(** * webgl-textures: the solar-system animation engine

    A shallow embedding of [js/app/astronomical_object.js] (the body entity
    and its per-frame [animate] method) and of the frame driver of
    [js/app/app.js], together with the properties the specification states
    about them.

    Numbers.  JavaScript numbers are IEEE doubles; here they are idealised
    as real numbers ([R]), so [Math.PI] is [PI], [Math.sin] is [sin], and
    rounding, [NaN] and the infinities are outside the model.  Equalities
    the specification asks for "within floating-point tolerance" are proved
    exactly in this model.

    Objects.  Every [AstronomicalObject] lives in a heap (a list, in
    allocation order); the [orbits] field of a body is a reference (an
    index) into that heap, so that a moon reads the *current* state of its
    planet, as the JavaScript object graph does. *)

From Stdlib Require Import Reals Lra RNsatz String.
From stdpp Require Import base list.

Open Scope R_scope.

(** ** Vectors and 4x4 matrices *)

Definition vec3 : Type := R * R * R.
Definition vec4 : Type := R * R * R * R.

(** A [mat4] is glMatrix's array of 16 numbers in column-major order:
    field [mK] is element [K] of the array. *)
Record mat4 : Type := Mat4 {
  m0 : R;  m1 : R;  m2 : R;  m3 : R;
  m4 : R;  m5 : R;  m6 : R;  m7 : R;
  m8 : R;  m9 : R;  m10 : R; m11 : R;
  m12 : R; m13 : R; m14 : R; m15 : R
}.

(** ** The matrix library

    Modelled from the spec: the "Transform Composer" of section 2, i.e. the
    linear-algebra library (glMatrix 2.2.1, loaded from [js/lib]) whose
    [mat4] functions the body entity calls.  The specification treats it as
    a given primitive building 4x4 affine transforms, stored as 16 numbers
    in column-major order (section 6); the definitions below are these
    primitives, each returning the new value of its [out] argument. *)
Module GlMatrix.

Definition GLMAT_EPSILON : R := 1 / 1000000.

(** [mat4.create()]: the identity. *)
Definition create : mat4 :=
  Mat4 1 0 0 0
       0 1 0 0
       0 0 1 0
       0 0 0 1.

(** [mat4.multiply(out, a, b)]: the product [a * b]. *)
Definition multiply (a b : mat4) : mat4 :=
  let a00 := m0 a in let a01 := m1 a in let a02 := m2 a in let a03 := m3 a in
  let a10 := m4 a in let a11 := m5 a in let a12 := m6 a in let a13 := m7 a in
  let a20 := m8 a in let a21 := m9 a in let a22 := m10 a in let a23 := m11 a in
  let a30 := m12 a in let a31 := m13 a in let a32 := m14 a in let a33 := m15 a in
  Mat4
    (m0 b * a00 + m1 b * a10 + m2 b * a20 + m3 b * a30)
    (m0 b * a01 + m1 b * a11 + m2 b * a21 + m3 b * a31)
    (m0 b * a02 + m1 b * a12 + m2 b * a22 + m3 b * a32)
    (m0 b * a03 + m1 b * a13 + m2 b * a23 + m3 b * a33)
    (m4 b * a00 + m5 b * a10 + m6 b * a20 + m7 b * a30)
    (m4 b * a01 + m5 b * a11 + m6 b * a21 + m7 b * a31)
    (m4 b * a02 + m5 b * a12 + m6 b * a22 + m7 b * a32)
    (m4 b * a03 + m5 b * a13 + m6 b * a23 + m7 b * a33)
    (m8 b * a00 + m9 b * a10 + m10 b * a20 + m11 b * a30)
    (m8 b * a01 + m9 b * a11 + m10 b * a21 + m11 b * a31)
    (m8 b * a02 + m9 b * a12 + m10 b * a22 + m11 b * a32)
    (m8 b * a03 + m9 b * a13 + m10 b * a23 + m11 b * a33)
    (m12 b * a00 + m13 b * a10 + m14 b * a20 + m15 b * a30)
    (m12 b * a01 + m13 b * a11 + m14 b * a21 + m15 b * a31)
    (m12 b * a02 + m13 b * a12 + m14 b * a22 + m15 b * a32)
    (m12 b * a03 + m13 b * a13 + m14 b * a23 + m15 b * a33).

(** [mat4.translate(out, a, v)]: [a] times the translation by [v]; only
    the last column changes. *)
Definition translate (a : mat4) (v : vec3) : mat4 :=
  let '(x, y, z) := v in
  Mat4 (m0 a) (m1 a) (m2 a) (m3 a)
       (m4 a) (m5 a) (m6 a) (m7 a)
       (m8 a) (m9 a) (m10 a) (m11 a)
       (m0 a * x + m4 a * y + m8 a * z + m12 a)
       (m1 a * x + m5 a * y + m9 a * z + m13 a)
       (m2 a * x + m6 a * y + m10 a * z + m14 a)
       (m3 a * x + m7 a * y + m11 a * z + m15 a).

(** [mat4.rotate(out, a, rad, axis)]: [a] times the rotation by [rad]
    about [axis].  The axis is normalised on local copies; for an axis
    shorter than [GLMAT_EPSILON] the function returns [null] and leaves
    [out] as it was.  The last column is never touched. *)
Definition rotate (a : mat4) (rad : R) (axis : vec3) : mat4 :=
  let '(x, y, z) := axis in
  let len := sqrt (x * x + y * y + z * z) in
  if Rlt_dec (Rabs len) GLMAT_EPSILON then a
  else
    let len := 1 / len in
    let x := x * len in
    let y := y * len in
    let z := z * len in
    let s := sin rad in
    let c := cos rad in
    let t := 1 - c in
    let a00 := m0 a in let a01 := m1 a in let a02 := m2 a in let a03 := m3 a in
    let a10 := m4 a in let a11 := m5 a in let a12 := m6 a in let a13 := m7 a in
    let a20 := m8 a in let a21 := m9 a in let a22 := m10 a in let a23 := m11 a in
    let b00 := x * x * t + c in
    let b01 := y * x * t + z * s in
    let b02 := z * x * t - y * s in
    let b10 := x * y * t - z * s in
    let b11 := y * y * t + c in
    let b12 := z * y * t + x * s in
    let b20 := x * z * t + y * s in
    let b21 := y * z * t - x * s in
    let b22 := z * z * t + c in
    Mat4
      (a00 * b00 + a10 * b01 + a20 * b02)
      (a01 * b00 + a11 * b01 + a21 * b02)
      (a02 * b00 + a12 * b01 + a22 * b02)
      (a03 * b00 + a13 * b01 + a23 * b02)
      (a00 * b10 + a10 * b11 + a20 * b12)
      (a01 * b10 + a11 * b11 + a21 * b12)
      (a02 * b10 + a12 * b11 + a22 * b12)
      (a03 * b10 + a13 * b11 + a23 * b12)
      (a00 * b20 + a10 * b21 + a20 * b22)
      (a01 * b20 + a11 * b21 + a21 * b22)
      (a02 * b20 + a12 * b21 + a22 * b22)
      (a03 * b20 + a13 * b21 + a23 * b22)
      (m12 a) (m13 a) (m14 a) (m15 a).

(** [vec4.transformMat4(out, v, m)]: the matrix applied to a point in
    homogeneous coordinates. *)
Definition transformMat4 (v : vec4) (m : mat4) : vec4 :=
  let '(x, y, z, w) := v in
  (m0 m * x + m4 m * y + m8 m * z + m12 m * w,
   m1 m * x + m5 m * y + m9 m * z + m13 m * w,
   m2 m * x + m6 m * y + m10 m * z + m14 m * w,
   m3 m * x + m7 m * y + m11 m * z + m15 m * w).

End GlMatrix.

Import GlMatrix.

(** The world Y axis, the literal [[0, 1, 0]] of the source. *)
Definition Yaxis : vec3 := (0, 1, 0).

(** ** The body entity ([AstronomicalObject])

    The fields of the JavaScript object that the animation engine reads or
    writes.  The texture, buffer and shader fields, [spherical],
    [useLighting], [shortcutKey] and [isReady] only concern the renderer,
    the camera and the start-up gate, and are left out. *)

Abbreviation Ref := nat.

Record AstronomicalObject : Type := mkAstronomicalObject {
  name : string;
  orbits : option Ref;
  orbitDistance : R;
  orbitalPeriod : R;
  spinPeriod : R;
  radius : R;
  spins : bool;
  spinsClockwise : bool;
  axis : R;
  axisArray : vec3;
  distanceFromBodyWeAreOrbiting : R;
  origin : vec3;
  lastSpinAngle : R;
  lastOrbitAngle : R;
  cumulativeOrbitAngle : R;
  modelViewMatrix : mat4;
  isNotFirstAnimationFrame : bool
}.

(** Assignments [this.f = v]: one setter for each field. *)
Definition set_name (v : string) (this : AstronomicalObject) : AstronomicalObject :=
  mkAstronomicalObject v (orbits this) (orbitDistance this)
    (orbitalPeriod this) (spinPeriod this) (radius this) (spins this)
    (spinsClockwise this) (axis this) (axisArray this)
    (distanceFromBodyWeAreOrbiting this) (origin this) (lastSpinAngle this)
    (lastOrbitAngle this) (cumulativeOrbitAngle this) (modelViewMatrix this)
    (isNotFirstAnimationFrame this).
Definition set_orbits (v : option Ref) (this : AstronomicalObject) : AstronomicalObject :=
  mkAstronomicalObject (name this) v (orbitDistance this) (orbitalPeriod this)
    (spinPeriod this) (radius this) (spins this) (spinsClockwise this)
    (axis this) (axisArray this) (distanceFromBodyWeAreOrbiting this)
    (origin this) (lastSpinAngle this) (lastOrbitAngle this)
    (cumulativeOrbitAngle this) (modelViewMatrix this)
    (isNotFirstAnimationFrame this).
Definition set_orbitDistance (v : R) (this : AstronomicalObject) : AstronomicalObject :=
  mkAstronomicalObject (name this) (orbits this) v (orbitalPeriod this)
    (spinPeriod this) (radius this) (spins this) (spinsClockwise this)
    (axis this) (axisArray this) (distanceFromBodyWeAreOrbiting this)
    (origin this) (lastSpinAngle this) (lastOrbitAngle this)
    (cumulativeOrbitAngle this) (modelViewMatrix this)
    (isNotFirstAnimationFrame this).
Definition set_orbitalPeriod (v : R) (this : AstronomicalObject) : AstronomicalObject :=
  mkAstronomicalObject (name this) (orbits this) (orbitDistance this) v
    (spinPeriod this) (radius this) (spins this) (spinsClockwise this)
    (axis this) (axisArray this) (distanceFromBodyWeAreOrbiting this)
    (origin this) (lastSpinAngle this) (lastOrbitAngle this)
    (cumulativeOrbitAngle this) (modelViewMatrix this)
    (isNotFirstAnimationFrame this).
Definition set_spinPeriod (v : R) (this : AstronomicalObject) : AstronomicalObject :=
  mkAstronomicalObject (name this) (orbits this) (orbitDistance this)
    (orbitalPeriod this) v (radius this) (spins this) (spinsClockwise this)
    (axis this) (axisArray this) (distanceFromBodyWeAreOrbiting this)
    (origin this) (lastSpinAngle this) (lastOrbitAngle this)
    (cumulativeOrbitAngle this) (modelViewMatrix this)
    (isNotFirstAnimationFrame this).
Definition set_radius (v : R) (this : AstronomicalObject) : AstronomicalObject :=
  mkAstronomicalObject (name this) (orbits this) (orbitDistance this)
    (orbitalPeriod this) (spinPeriod this) v (spins this)
    (spinsClockwise this) (axis this) (axisArray this)
    (distanceFromBodyWeAreOrbiting this) (origin this) (lastSpinAngle this)
    (lastOrbitAngle this) (cumulativeOrbitAngle this) (modelViewMatrix this)
    (isNotFirstAnimationFrame this).
Definition set_spins (v : bool) (this : AstronomicalObject) : AstronomicalObject :=
  mkAstronomicalObject (name this) (orbits this) (orbitDistance this)
    (orbitalPeriod this) (spinPeriod this) (radius this) v
    (spinsClockwise this) (axis this) (axisArray this)
    (distanceFromBodyWeAreOrbiting this) (origin this) (lastSpinAngle this)
    (lastOrbitAngle this) (cumulativeOrbitAngle this) (modelViewMatrix this)
    (isNotFirstAnimationFrame this).
Definition set_spinsClockwise (v : bool) (this : AstronomicalObject) : AstronomicalObject :=
  mkAstronomicalObject (name this) (orbits this) (orbitDistance this)
    (orbitalPeriod this) (spinPeriod this) (radius this) (spins this) v
    (axis this) (axisArray this) (distanceFromBodyWeAreOrbiting this)
    (origin this) (lastSpinAngle this) (lastOrbitAngle this)
    (cumulativeOrbitAngle this) (modelViewMatrix this)
    (isNotFirstAnimationFrame this).
Definition set_axis (v : R) (this : AstronomicalObject) : AstronomicalObject :=
  mkAstronomicalObject (name this) (orbits this) (orbitDistance this)
    (orbitalPeriod this) (spinPeriod this) (radius this) (spins this)
    (spinsClockwise this) v (axisArray this)
    (distanceFromBodyWeAreOrbiting this) (origin this) (lastSpinAngle this)
    (lastOrbitAngle this) (cumulativeOrbitAngle this) (modelViewMatrix this)
    (isNotFirstAnimationFrame this).
Definition set_axisArray (v : vec3) (this : AstronomicalObject) : AstronomicalObject :=
  mkAstronomicalObject (name this) (orbits this) (orbitDistance this)
    (orbitalPeriod this) (spinPeriod this) (radius this) (spins this)
    (spinsClockwise this) (axis this) v (distanceFromBodyWeAreOrbiting this)
    (origin this) (lastSpinAngle this) (lastOrbitAngle this)
    (cumulativeOrbitAngle this) (modelViewMatrix this)
    (isNotFirstAnimationFrame this).
Definition set_distanceFromBodyWeAreOrbiting (v : R) (this : AstronomicalObject) : AstronomicalObject :=
  mkAstronomicalObject (name this) (orbits this) (orbitDistance this)
    (orbitalPeriod this) (spinPeriod this) (radius this) (spins this)
    (spinsClockwise this) (axis this) (axisArray this) v (origin this)
    (lastSpinAngle this) (lastOrbitAngle this) (cumulativeOrbitAngle this)
    (modelViewMatrix this) (isNotFirstAnimationFrame this).
Definition set_origin (v : vec3) (this : AstronomicalObject) : AstronomicalObject :=
  mkAstronomicalObject (name this) (orbits this) (orbitDistance this)
    (orbitalPeriod this) (spinPeriod this) (radius this) (spins this)
    (spinsClockwise this) (axis this) (axisArray this)
    (distanceFromBodyWeAreOrbiting this) v (lastSpinAngle this)
    (lastOrbitAngle this) (cumulativeOrbitAngle this) (modelViewMatrix this)
    (isNotFirstAnimationFrame this).
Definition set_lastSpinAngle (v : R) (this : AstronomicalObject) : AstronomicalObject :=
  mkAstronomicalObject (name this) (orbits this) (orbitDistance this)
    (orbitalPeriod this) (spinPeriod this) (radius this) (spins this)
    (spinsClockwise this) (axis this) (axisArray this)
    (distanceFromBodyWeAreOrbiting this) (origin this) v (lastOrbitAngle this)
    (cumulativeOrbitAngle this) (modelViewMatrix this)
    (isNotFirstAnimationFrame this).
Definition set_lastOrbitAngle (v : R) (this : AstronomicalObject) : AstronomicalObject :=
  mkAstronomicalObject (name this) (orbits this) (orbitDistance this)
    (orbitalPeriod this) (spinPeriod this) (radius this) (spins this)
    (spinsClockwise this) (axis this) (axisArray this)
    (distanceFromBodyWeAreOrbiting this) (origin this) (lastSpinAngle this) v
    (cumulativeOrbitAngle this) (modelViewMatrix this)
    (isNotFirstAnimationFrame this).
Definition set_cumulativeOrbitAngle (v : R) (this : AstronomicalObject) : AstronomicalObject :=
  mkAstronomicalObject (name this) (orbits this) (orbitDistance this)
    (orbitalPeriod this) (spinPeriod this) (radius this) (spins this)
    (spinsClockwise this) (axis this) (axisArray this)
    (distanceFromBodyWeAreOrbiting this) (origin this) (lastSpinAngle this)
    (lastOrbitAngle this) v (modelViewMatrix this)
    (isNotFirstAnimationFrame this).
Definition set_modelViewMatrix (v : mat4) (this : AstronomicalObject) : AstronomicalObject :=
  mkAstronomicalObject (name this) (orbits this) (orbitDistance this)
    (orbitalPeriod this) (spinPeriod this) (radius this) (spins this)
    (spinsClockwise this) (axis this) (axisArray this)
    (distanceFromBodyWeAreOrbiting this) (origin this) (lastSpinAngle this)
    (lastOrbitAngle this) (cumulativeOrbitAngle this) v
    (isNotFirstAnimationFrame this).
Definition set_isNotFirstAnimationFrame (v : bool) (this : AstronomicalObject) : AstronomicalObject :=
  mkAstronomicalObject (name this) (orbits this) (orbitDistance this)
    (orbitalPeriod this) (spinPeriod this) (radius this) (spins this)
    (spinsClockwise this) (axis this) (axisArray this)
    (distanceFromBodyWeAreOrbiting this) (origin this) (lastSpinAngle this)
    (lastOrbitAngle this) (cumulativeOrbitAngle this) (modelViewMatrix this) v.

(** The object as [new] hands it to the constructor.  Every field of the
    model is assigned by the constructor before it is read, except
    [isNotFirstAnimationFrame], which stays [undefined] (falsy) until the
    first [afterOrbit]. *)
Definition fresh : AstronomicalObject :=
  mkAstronomicalObject "" None 0 0 0 0 false false 0 (0, 0, 0) 0 (0, 0, 0)
    0 0 0 create false.

(** The heap of bodies, in allocation order. *)
Abbreviation Heap := (list AstronomicalObject).

(** Following an [orbits] field: [Some None] for a body that orbits
    nothing ([false]), [Some (Some p)] for the current state of the orbited
    body, and [None] for a reference to no object, which JavaScript cannot
    produce. *)
Definition deref (h : Heap) (o : option Ref)
  : option (option AstronomicalObject) :=
  match o with
  | None => Some None
  | Some j => match h !! j with
              | Some p => Some (Some p)
              | None => None
              end
  end.

(** The configuration object of the constructor.  A field that may be
    left out is an [option]. *)
Module Config.
Record t : Type := mk {
  name : option string;
  orbits : option Ref;
  origin : option vec3;
  orbitDistance : option R;
  orbitalPeriod : option R;
  spinPeriod : option R;
  radius : option R;
  axis : option R;
  spins : option bool;
  spinsClockwise : option bool
}.
End Config.

(** [x || d] on an optional number: [undefined] and [0] are falsy. *)
Definition num_or (x : option R) (d : R) : R :=
  match x with
  | Some v => if Req_dec_T v 0 then d else v
  | None => d
  end.

(** [x || d] on an optional string: [undefined] and the empty string are
    falsy. *)
Definition str_or (x : option string) (d : string) : string :=
  match x with
  | Some v => if String.eqb v "" then d else v
  | None => d
  end.

Definition degreesToRadians (celsius : R) : R := celsius * (PI / 180).

Definition getBoolean (attribute : option bool) (defaultValue : option bool)
  : bool :=
  let defaultValue :=
    match defaultValue with None => true | Some d => d end in
  match attribute with None => defaultValue | Some a => a end.

Definition setAxis (axis0 : option R) (this : AstronomicalObject)
  : AstronomicalObject :=
  let axis0 := num_or axis0 0 in
  let this := set_axis (degreesToRadians axis0) this in
  set_axisArray
    (axis this / degreesToRadians 90,
     1 - (axis this / degreesToRadians 90),
     0) this.

Definition normalise (this : AstronomicalObject) : AstronomicalObject :=
  let this := set_orbitDistance (orbitDistance this / 50000) this in
  set_radius (radius this / 100) this.

Definition ringsName : string := "Saturn's Rings".

(** [P] is the object [this.orbits] points to, if any.  A body named
    "Saturn's Rings" that orbits nothing would read its periods from
    [false] and get [undefined], which is no number: the embedding rejects
    that configuration. *)
Definition prepareSpecialCases (P : option AstronomicalObject)
    (this : AstronomicalObject) : option AstronomicalObject :=
  let this := set_distanceFromBodyWeAreOrbiting 0 this in
  let this :=
    match P with
    | Some p =>
        set_distanceFromBodyWeAreOrbiting
          (radius this + orbitDistance this + radius p) this
    | None => this
    end in
  if String.eqb (name this) "Sun" then
    Some (set_radius (radius this / 10) this)
  else if String.eqb (name this) ringsName then
    match P with
    | Some p =>
        let this := set_distanceFromBodyWeAreOrbiting 0 this in
        let this := set_orbitalPeriod (orbitalPeriod p) this in
        Some (set_spinPeriod (spinPeriod p) this)
    | None => None
    end
  else Some this.

Definition setAttributes (P : option AstronomicalObject) (config : Config.t)
    (this : AstronomicalObject) : option AstronomicalObject :=
  let this := set_name (str_or (Config.name config) "name not set") this in
  let this := set_orbits (Config.orbits config) this in
  let this := set_orbitDistance (num_or (Config.orbitDistance config) 0) this in
  let this := set_orbitalPeriod (num_or (Config.orbitalPeriod config) 1) this in
  let this := set_spinPeriod (num_or (Config.spinPeriod config) 1) this in
  let this := set_radius (num_or (Config.radius config) 10) this in
  let this := set_spins (getBoolean (Config.spins config) None) this in
  let this :=
    set_spinsClockwise
      (getBoolean (Config.spinsClockwise config) (Some false)) this in
  let this := setAxis (Config.axis config) this in
  let this := normalise this in
  prepareSpecialCases P this.

Definition setOrigin (P : option AstronomicalObject) (origin0 : option vec3)
    (this : AstronomicalObject) : AstronomicalObject :=
  match origin0 with
  | Some o => set_origin o this
  | None =>
      match P with
      | Some p =>
          let '(px, py, pz) := origin p in
          set_origin (px, py, pz - distanceFromBodyWeAreOrbiting this) this
      | None => set_origin (0, 0, 0) this
      end
  end.

(** [rnd] is the number [Math.random()] returns when it is called. *)
Definition setRandomStartingOrbit (rnd : R) (this : AstronomicalObject)
  : AstronomicalObject :=
  let this := set_lastSpinAngle 0 this in
  let this := set_lastOrbitAngle 0 this in
  let this := set_cumulativeOrbitAngle 0 this in
  if String.eqb (name this) ringsName then
    let saturnsRingsAngle := degreesToRadians 90 in
    let this := set_lastOrbitAngle saturnsRingsAngle this in
    set_cumulativeOrbitAngle saturnsRingsAngle this
  else
    match orbits this with
    | Some _ =>
        let randomStartingOrbit := (PI * 2) / rnd in
        let randomStartingOrbit :=
          if spinsClockwise this then randomStartingOrbit * -1
          else randomStartingOrbit in
        let this := set_lastOrbitAngle randomStartingOrbit this in
        set_cumulativeOrbitAngle randomStartingOrbit this
    | None => this
    end.

Definition initMatrix (P : option AstronomicalObject)
    (this : AstronomicalObject) : AstronomicalObject :=
  let this := set_modelViewMatrix create this in
  let this :=
    match P with
    | Some p =>
        match orbits p with
        | Some _ =>
            let this :=
              set_modelViewMatrix
                (rotate (modelViewMatrix this) (lastOrbitAngle p) Yaxis)
                this in
            set_modelViewMatrix
              (translate (modelViewMatrix this) (origin p)) this
        | None => this
        end
    | None => this
    end in
  let this :=
    set_modelViewMatrix
      (rotate (modelViewMatrix this) (lastOrbitAngle this) Yaxis) this in
  set_modelViewMatrix
    (translate (modelViewMatrix this)
       (0, 0, - distanceFromBodyWeAreOrbiting this)) this.

(** [new AstronomicalObject(config)] on heap [h]: the object built, to be
    stored at the next free reference. *)
Definition new_AstronomicalObject (h : Heap) (config : Config.t) (rnd : R)
  : option AstronomicalObject :=
  match deref h (Config.orbits config) with
  | None => None
  | Some P =>
      match setAttributes P config fresh with
      | None => None
      | Some this =>
          let this := setOrigin P (Config.origin config) this in
          let this := setRandomStartingOrbit rnd this in
          Some (initMatrix P this)
      end
  end.

(** Allocation: the new object is stored behind the existing ones and its
    reference is the former length of the heap. *)
Definition alloc (h : Heap) (this : AstronomicalObject) : Heap := h ++ [this].

(** ** The animation engine ([animate] and its helpers) *)

Definition calculatePortionOf
    (attribute millisecondsSinceLastFrame millisecondsPerDay : R) : R :=
  let proportion :=
    millisecondsSinceLastFrame / (millisecondsPerDay * attribute) in
  let proportionInRadians := (PI * 2) * proportion in
  proportionInRadians.

(** The two angles [animate] computes first. *)
Definition orbitAmount (this : AstronomicalObject)
    (millisecondsPerDay millisecondsSinceLastFrame : R) : R :=
  calculatePortionOf (orbitalPeriod this) millisecondsSinceLastFrame
    millisecondsPerDay.

Definition spinAmount (this : AstronomicalObject)
    (millisecondsPerDay millisecondsSinceLastFrame : R) : R :=
  calculatePortionOf (spinPeriod this) millisecondsSinceLastFrame
    millisecondsPerDay.

Definition beforeOrbit (this : AstronomicalObject) (translationMatrix : mat4)
  : mat4 :=
  if isNotFirstAnimationFrame this then
    let angle :=
      if spinsClockwise this then lastSpinAngle this
      else - lastSpinAngle this in
    let translationMatrix := rotate translationMatrix angle Yaxis in
    rotate translationMatrix (-1) (axisArray this)
  else translationMatrix.

Definition afterOrbit (spinAmount0 : R) (this : AstronomicalObject)
  : AstronomicalObject :=
  let angle :=
    if spinsClockwise this then - lastSpinAngle this - spinAmount0
    else lastSpinAngle this + spinAmount0 in
  let this :=
    set_modelViewMatrix (rotate (modelViewMatrix this) 1 (axisArray this))
      this in
  let this :=
    set_modelViewMatrix (rotate (modelViewMatrix this) angle Yaxis) this in
  set_isNotFirstAnimationFrame true this.

Definition updateAttributes (orbitAmount0 spinAmount0 : R)
    (this : AstronomicalObject) : AstronomicalObject :=
  let this := set_lastOrbitAngle orbitAmount0 this in
  let this :=
    set_cumulativeOrbitAngle
      (cumulativeOrbitAngle this + lastOrbitAngle this) this in
  set_lastSpinAngle (lastSpinAngle this + spinAmount0) this.

(** The local [translationMatrix] of [animate] at the point where it is
    multiplied into the model-view matrix; [p] is the orbited body. *)
Definition translationMatrixOf (p this : AstronomicalObject)
    (orbitAmount0 : R) : mat4 :=
  let translationMatrix := create in
  let translationMatrix := beforeOrbit this translationMatrix in
  match orbits p with
  | None =>
      (* NORMAL PLANETS *)
      let translationMatrix :=
        translate translationMatrix
          (0, 0, distanceFromBodyWeAreOrbiting this) in
      let translationMatrix :=
        rotate translationMatrix orbitAmount0 Yaxis in
      translate translationMatrix
        (0, 0, - distanceFromBodyWeAreOrbiting this)
  | Some _ =>
      (* MOONS etc *)
      let translationMatrix :=
        translate translationMatrix
          (0, 0, distanceFromBodyWeAreOrbiting this) in
      let translationMatrix :=
        rotate translationMatrix (- cumulativeOrbitAngle this) Yaxis in
      let translationMatrix :=
        translate translationMatrix
          (0, 0, distanceFromBodyWeAreOrbiting p) in
      let translationMatrix :=
        rotate translationMatrix (lastOrbitAngle p) Yaxis in
      let translationMatrix :=
        translate translationMatrix
          (0, 0, - distanceFromBodyWeAreOrbiting p) in
      let translationMatrix :=
        rotate translationMatrix (cumulativeOrbitAngle this + orbitAmount0)
          Yaxis in
      translate translationMatrix
        (0, 0, - distanceFromBodyWeAreOrbiting this)
  end.

(** [this.animate(millisecondsPerDay, millisecondsSinceLastFrame)], where
    [P] is the current state of the object [this.orbits] points to, if
    any. *)
Definition animate (P : option AstronomicalObject)
    (millisecondsPerDay millisecondsSinceLastFrame : R)
    (this : AstronomicalObject) : AstronomicalObject :=
  let orbitAmount0 :=
    orbitAmount this millisecondsPerDay millisecondsSinceLastFrame in
  let spinAmount0 :=
    spinAmount this millisecondsPerDay millisecondsSinceLastFrame in
  let this :=
    match P with
    | Some p =>
        let translationMatrix := translationMatrixOf p this orbitAmount0 in
        let this :=
          set_modelViewMatrix
            (multiply (modelViewMatrix this) translationMatrix) this in
        afterOrbit spinAmount0 this
    | None =>
        if spins this then
          set_modelViewMatrix
            (rotate (modelViewMatrix this) spinAmount0 Yaxis) this
        else this
    end in
  updateAttributes orbitAmount0 spinAmount0 this.

(** [animate] called on the object behind reference [i] of the heap.  A
    reference to no object, which JavaScript cannot produce, leaves the
    heap as it is. *)
Definition animate_at (millisecondsPerDay millisecondsSinceLastFrame : R)
    (h : Heap) (i : Ref) : Heap :=
  match h !! i with
  | Some this =>
      match deref h (orbits this) with
      | Some P =>
          <[i := animate P millisecondsPerDay millisecondsSinceLastFrame this]> h
      | None => h
      end
  | None => h
  end.

(** ** The frame driver ([app.js])

    [SolarSystem] is the array of all bodies in construction order, which
    is the heap itself.  [timeLastFrame] is [false] ([None]) or a time
    stamp.  Drawing does not write to any body and is left out. *)
Module App.

Record t : Type := mk {
  timeLastFrame : option R;
  SolarSystem : Heap
}.

(** [!timeLastFrame]: [false] and [0] are falsy. *)
Definition falsy (x : option R) : bool :=
  match x with
  | None => true
  | Some v => if Req_dec_T v 0 then true else false
  end.

(** [millisecondsSinceLastFrame()], with [timeThisFrame] the value of
    [Date.now()]: the elapsed time and the new [timeLastFrame]. *)
Definition millisecondsSinceLastFrame (timeThisFrame : R)
    (timeLastFrame0 : option R) : R * option R :=
  let timeLastFrame1 : R :=
    match timeLastFrame0 with
    | Some v => if falsy timeLastFrame0 then timeThisFrame else v
    | None => timeThisFrame
    end in
  (timeThisFrame - timeLastFrame1, Some timeThisFrame).

(** The loop [for (i = 0; i < SolarSystem.length; i++)] of [animate]. *)
Definition animateAll (millisecondsPerDay deltaT : R) (h : Heap) : Heap :=
  foldl (animate_at millisecondsPerDay deltaT) h (seq 0 (length h)).

Definition animate (millisecondsPerDay timeThisFrame : R) (app : t) : t :=
  let '(deltaT, timeLastFrame1) :=
    millisecondsSinceLastFrame timeThisFrame (timeLastFrame app) in
  mk timeLastFrame1 (animateAll millisecondsPerDay deltaT (SolarSystem app)).

(** One call of [run]: [paused] and [millisecondsPerDay] are what the
    controls report, [timeThisFrame] what the clock reads. *)
Definition run (paused : bool) (millisecondsPerDay timeThisFrame : R)
    (app : t) : t :=
  if paused then mk None (SolarSystem app)
  else animate millisecondsPerDay timeThisFrame app.

(** The inputs of successive calls of [run]. *)
Definition runs (inputs : list (bool * R * R)) (app : t) : t :=
  foldl (fun app '(paused, millisecondsPerDay, timeThisFrame) =>
           run paused millisecondsPerDay timeThisFrame app)
        app inputs.

End App.

(** ** Reachable heaps

    What a program can build: objects are constructed on the heap built so
    far (so an [orbits] reference always points to an older object), and
    any body may be animated at any time.  [Math.random()] returns a number
    of the interval [0, 1); the invariants below do not depend on it. *)
Inductive Reachable : Heap -> Prop :=
| Reachable_nil : Reachable []
| Reachable_new (h : Heap) (config : Config.t) (rnd : R)
    (this : AstronomicalObject) :
    Reachable h ->
    new_AstronomicalObject h config rnd = Some this ->
    Reachable (alloc h this)
| Reachable_animate (h : Heap) (r t : R) (i : Ref) :
    Reachable h ->
    Reachable (animate_at r t h i).

(** ** Vocabulary of the specification *)

(** The two kinds of step section 4.2 composes an orbit from. *)
Inductive Step : Type :=
| TranslateZ (d : R)
| RotateY (rad : R).

Definition applyStep (m : mat4) (s : Step) : mat4 :=
  match s with
  | TranslateZ d => translate m (0, 0, d)
  | RotateY rad => rotate m rad Yaxis
  end.

(** The steps applied to [m], the first step of the list first. *)
Definition compose (steps : list Step) (m : mat4) : mat4 :=
  foldl applyStep m steps.

(** The seven steps of a moon-like body [this] around [p], as section 4.2
    lists them; [orbitDelta] is this frame's orbit angle. *)
Definition moonOrbitSteps (p this : AstronomicalObject) (orbitDelta : R)
  : list Step :=
  [ TranslateZ (distanceFromBodyWeAreOrbiting this);
    RotateY (- cumulativeOrbitAngle this);
    TranslateZ (distanceFromBodyWeAreOrbiting p);
    RotateY (lastOrbitAngle p);
    TranslateZ (- distanceFromBodyWeAreOrbiting p);
    RotateY (cumulativeOrbitAngle this + orbitDelta);
    TranslateZ (- distanceFromBodyWeAreOrbiting this) ].

(** The un-spin transform: what [beforeOrbit] leaves in a new identity
    matrix. *)
Definition unspin (this : AstronomicalObject) : mat4 :=
  beforeOrbit this create.

(** The re-spin of [afterOrbit] applied to a matrix. *)
Definition respin (this : AstronomicalObject) (spinDelta : R) (m : mat4)
  : mat4 :=
  rotate (rotate m 1 (axisArray this))
    (if spinsClockwise this then - lastSpinAngle this - spinDelta
     else lastSpinAngle this + spinDelta)
    Yaxis.

(** The world position of a body: its transform applied to the point
    [(0, 0, 0, 1)]. *)
Definition worldPosition (m : mat4) : vec3 :=
  let '(x, y, z, _) := transformMat4 (0, 0, 0, 1) m in (x, y, z).

(** A vector rotated about the world Y axis. *)
Definition rotateAboutY (rad : R) (v : vec3) : vec3 :=
  let '(x, y, z) := v in
  (cos rad * x + sin rad * z, y, - sin rad * x + cos rad * z).

Definition vadd (u v : vec3) : vec3 :=
  let '(ux, uy, uz) := u in
  let '(vx, vy, vz) := v in
  (ux + vx, uy + vy, uz + vz).

(** The offset at which the constructor places an orbiting body from the
    body it orbits ([setOrigin]); its length is
    [distanceFromBodyWeAreOrbiting]. *)
Definition orbitalOffset (this : AstronomicalObject) : vec3 :=
  (0, 0, - distanceFromBodyWeAreOrbiting this).

(** The rotation by [a] about the world Y axis followed by nothing else
    than a displacement [(x, 0, z)] of the origin: the shape of every
    matrix built from [TranslateZ] and [RotateY] steps. *)
Definition planar (a x z : R) : mat4 :=
  Mat4 (cos a) 0 (- sin a) 0
       0 1 0 0
       (sin a) 0 (cos a) 0
       x 0 z 1.

(** [animate] called [n] times on a body, the orbited body being in the
    state [Ps k] at the call number [k] (counted down from [n]). *)
Fixpoint animateTimes (n : nat) (Ps : nat -> option AstronomicalObject)
    (r t : R) (this : AstronomicalObject) : AstronomicalObject :=
  match n with
  | O => this
  | S k => animateTimes k Ps r t (animate (Ps k) r t this)
  end.

(** ** What the constructor computes, field by field *)

(** The starting orbit angle [setRandomStartingOrbit] assigns to both
    [lastOrbitAngle] and [cumulativeOrbitAngle]: the initial phase. *)
Definition startingOrbit (rnd : R) (this : AstronomicalObject) : R :=
  if String.eqb (name this) ringsName then degreesToRadians 90
  else
    match orbits this with
    | Some _ =>
        if spinsClockwise this then (PI * 2) / rnd * -1 else (PI * 2) / rnd
    | None => 0
    end.

(** The matrix [initMatrix] starts from before it applies the body's own
    orbit angle and distance. *)
Definition initialFrame (P : option AstronomicalObject) : mat4 :=
  match P with
  | Some p =>
      match orbits p with
      | Some _ => translate (rotate create (lastOrbitAngle p) Yaxis) (origin p)
      | None => create
      end
  | None => create
  end.

(** The origin [setOrigin] assigns. *)
Definition placedOrigin (P : option AstronomicalObject)
    (origin0 : option vec3) (this : AstronomicalObject) : vec3 :=
  match origin0 with
  | Some o => o
  | None =>
      match P with
      | Some p =>
          (fst (fst (origin p)), snd (fst (origin p)),
           snd (origin p) - distanceFromBodyWeAreOrbiting this)
      | None => (0, 0, 0)
      end
  end.

(** The fields [animate] never writes. *)
Definition sameStatic (a b : AstronomicalObject) : Prop :=
  name a = name b /\
  orbits a = orbits b /\
  orbitalPeriod a = orbitalPeriod b /\
  spinPeriod a = spinPeriod b /\
  distanceFromBodyWeAreOrbiting a = distanceFromBodyWeAreOrbiting b /\
  radius a = radius b /\
  spins a = spins b /\
  spinsClockwise a = spinsClockwise b /\
  axis a = axis b /\
  axisArray a = axisArray b.

(** Every [orbits] reference of the heap points to an older object. *)
Definition wellFormed (h : Heap) : Prop :=
  forall (i : Ref) (this : AstronomicalObject) (j : Ref),
    h !! i = Some this -> orbits this = Some j -> (j < i)%nat.

(** ** A small solar system

    The end-to-end scenario of the specification (a Sun, a Planet with
    orbital period 10 and spin period 2 at normalised orbit distance 100, a
    Moon around the Planet), with a ring system and Venus configured as in
    [solar_system.js].  Each body is constructed on the heap of the bodies
    before it; the second argument is what [Math.random()] returned. *)
Module Scenario.

Definition sunConfig : Config.t :=
  {| Config.name := Some "Sun"%string; Config.orbits := None;
     Config.origin := Some (0, 0, 0); Config.orbitDistance := None;
     Config.orbitalPeriod := None; Config.spinPeriod := Some 29;
     Config.radius := Some 432500; Config.axis := Some (725 / 100);
     Config.spins := None; Config.spinsClockwise := None |}.

Definition planetConfig : Config.t :=
  {| Config.name := Some "Planet"%string; Config.orbits := Some 0%nat;
     Config.origin := None; Config.orbitDistance := Some 5000000;
     Config.orbitalPeriod := Some 10; Config.spinPeriod := Some 2;
     Config.radius := Some 3959; Config.axis := Some (2345 / 100);
     Config.spins := None; Config.spinsClockwise := None |}.

Definition moonConfig : Config.t :=
  {| Config.name := Some "Moon"%string; Config.orbits := Some 1%nat;
     Config.origin := None; Config.orbitDistance := Some 2400000;
     Config.orbitalPeriod := Some (273 / 10);
     Config.spinPeriod := Some (273 / 10);
     Config.radius := Some 1000; Config.axis := None;
     Config.spins := None; Config.spinsClockwise := None |}.

Definition ringsConfig : Config.t :=
  {| Config.name := Some ringsName; Config.orbits := Some 1%nat;
     Config.origin := None; Config.orbitDistance := None;
     Config.orbitalPeriod := None; Config.spinPeriod := None;
     Config.radius := Some 85000; Config.axis := Some 27;
     Config.spins := None; Config.spinsClockwise := None |}.

Definition venusConfig : Config.t :=
  {| Config.name := Some "Venus"%string; Config.orbits := Some 0%nat;
     Config.origin := None; Config.orbitDistance := Some 67000000;
     Config.orbitalPeriod := Some (22646 / 100);
     Config.spinPeriod := Some 243;
     Config.radius := Some 3761; Config.axis := Some (17736 / 100);
     Config.spins := None; Config.spinsClockwise := Some true |}.

(** [new AstronomicalObject(config)], for a configuration the
    constructor accepts. *)
Definition construct (h : Heap) (config : Config.t) (rnd : R)
  : AstronomicalObject :=
  default fresh (new_AstronomicalObject h config rnd).

Definition sun : AstronomicalObject := construct [] sunConfig (1 / 2).
Definition planet : AstronomicalObject :=
  construct [sun] planetConfig (4 / 5).
Definition moon : AstronomicalObject :=
  construct [sun; planet] moonConfig (1 / 2).
Definition rings : AstronomicalObject :=
  construct [sun; planet; moon] ringsConfig (1 / 2).
Definition venus : AstronomicalObject :=
  construct [sun; planet; moon; rings] venusConfig (1 / 2).

Definition system : Heap := [sun; planet; moon; rings; venus].

End Scenario.

(** The two accumulated angles of a body. *)
Definition sameAngles (a b : AstronomicalObject) : Prop :=
  cumulativeOrbitAngle a = cumulativeOrbitAngle b /\
  lastSpinAngle a = lastSpinAngle b.

(** The sum of the rotation angles of a list of steps. *)
Fixpoint stepsAngle (steps : list Step) : R :=
  match steps with
  | [] => 0
  | TranslateZ _ :: steps => stepsAngle steps
  | RotateY rad :: steps => rad + stepsAngle steps
  end.

(** The Planet and the Moon of the scenario after the first frame the
    driver animates, on which no time has passed. *)
Module ScenarioFrame.
Definition planet1 : AstronomicalObject :=
  animate (Some Scenario.sun) 1000 0 Scenario.planet.
Definition moon1 : AstronomicalObject :=
  animate (Some planet1) 1000 0 Scenario.moon.
End ScenarioFrame.

(** The square of the distance between two points. *)
Definition dist2 (u v : vec3) : R :=
  let '(ux, uy, uz) := u in
  let '(vx, vy, vz) := v in
  (ux - vx) * (ux - vx) + (uy - vy) * (uy - vy) + (uz - vz) * (uz - vz).

(** ** Vocabulary for the further properties *)

(** Successive calls of [animate] on one body; each call comes with the
    state the orbited body is in at that time, the rate and the elapsed
    time. *)
Definition animateSeq
    (calls : list (option AstronomicalObject * R * R))
    (this : AstronomicalObject) : AstronomicalObject :=
  foldl (fun this '(P, r, t) => animate P r t this) this calls.

(** The re-spin a body carries after its first animation frame: the tilt
    of 1 radian about its axis vector, then its accumulated spin about the
    world Y axis. *)
Definition respinOf (this : AstronomicalObject) (n : mat4) : mat4 :=
  rotate (rotate n 1 (axisArray this))
    (if spinsClockwise this then - lastSpinAngle this
     else lastSpinAngle this) Yaxis.

(** The transform of a point on the circle of radius [d] around the world
    origin, at angle [c]. *)
Definition orbitPlace (c d : R) : mat4 :=
  planar c (- d * sin c) (- d * cos c).

(** The transform of a body that orbits a root is its place on the orbit,
    re-spun once the body has been animated. *)
Definition onOrbit (this : AstronomicalObject) : Prop :=
  modelViewMatrix this
  = (if isNotFirstAnimationFrame this then respinOf this else fun n => n)
      (orbitPlace (cumulativeOrbitAngle this)
         (distanceFromBodyWeAreOrbiting this)).

(** The state [P] in which [animate] finds the orbited body of [this],
    read in heap [g]. *)
Definition seesOrbited (g : Heap) (this : AstronomicalObject)
    (P : option AstronomicalObject) : Prop :=
  match orbits this with
  | None => P = None
  | Some j => exists p, g !! j = Some p /\ P = Some p
  end.

(** The loop of the driver's [animate] stopped before index [k]. *)
Definition animateUpTo (r t : R) (h : Heap) (k : nat) : Heap :=
  foldl (animate_at r t) h (seq 0 k).

(** Successive calls of the driver that are not paused, at one rate; the
    list gives what the clock reads at each call. *)
Definition unpausedRuns (r : R) (times : list R) (app : App.t) : App.t :=
  App.runs (map (fun timeThisFrame => (false, r, timeThisFrame)) times) app.

(** Successive frames of the driver's [animate], each with its rate and
    elapsed time. *)
Definition animateFrames (frames : list (R * R)) (h : Heap) : Heap :=
  foldl (fun h '(r, t) => App.animateAll r t h) h frames.

(** The transform of a point at distance [dM] and angle [cP + cM] from a
    point that is itself at distance [dP] and angle [cP] from the world
    origin. *)
Definition moonPlace (cP dP cM dM : R) : mat4 :=
  planar (cP + cM)
    (- dP * sin cP - dM * sin (cP + cM))
    (- dP * cos cP - dM * cos (cP + cM)).

(** The transform of a moon [m] agrees with the state of its planet [p]. *)
Definition followsPlanet (m p : AstronomicalObject) : Prop :=
  modelViewMatrix m
  = (if isNotFirstAnimationFrame m then respinOf m else fun n => n)
      (moonPlace (cumulativeOrbitAngle p) (distanceFromBodyWeAreOrbiting p)
         (cumulativeOrbitAngle m) (distanceFromBodyWeAreOrbiting m)).

(** ** The camera

    The part of the Camera module that places the camera: its
    [cameraMatrix], moved by the keyboard handlers and set by [snapTo] from
    the fields of a body.  The projection matrix, the canvas size and the
    full-screen mode are left out.  Each function returns the new
    [cameraMatrix]. *)
Module Camera.

Definition calculateMovementSpeed (acceleration : R) : R :=
  acceleration * acceleration.

Definition moveCameraToStartingPosition : mat4 :=
  let cameraMatrix := create in
  translate cameraMatrix (0, 0, -5000).

Definition rotateView (rotationMatrix cameraMatrix : mat4) : mat4 :=
  multiply cameraMatrix rotationMatrix.

Definition goForwards (acceleration : R) (cameraMatrix : mat4) : mat4 :=
  translate cameraMatrix (0, 0, calculateMovementSpeed acceleration).

Definition goBackwards (acceleration : R) (cameraMatrix : mat4) : mat4 :=
  translate cameraMatrix (0, 0, - calculateMovementSpeed acceleration).

Definition goLeft (acceleration : R) (cameraMatrix : mat4) : mat4 :=
  translate cameraMatrix (calculateMovementSpeed acceleration, 0, 0).

Definition goRight (acceleration : R) (cameraMatrix : mat4) : mat4 :=
  translate cameraMatrix (- calculateMovementSpeed acceleration, 0, 0).

Definition snapTo (planet : AstronomicalObject) : mat4 :=
  let cameraMatrix := create in
  let cameraMatrix :=
    translate cameraMatrix
      ((origin planet).1.1, (origin planet).1.2, (origin planet).2) in
  let cameraMatrix := translate cameraMatrix (0, 0, - radius planet * 5) in
  let cameraMatrix :=
    rotate cameraMatrix (- cumulativeOrbitAngle planet) Yaxis in
  rotate cameraMatrix PI Yaxis.

End Camera.

(** Where the camera sees a body: the camera matrix times the model-view
    matrix, applied to the point [(0, 0, 0, 1)]. *)
Definition viewPosition (cameraMatrix : mat4) (this : AstronomicalObject)
  : vec3 :=
  worldPosition (multiply cameraMatrix (modelViewMatrix this)).

(** ** The keyboard controls

    The movement keys of the Controls module: [keyDown] is [false] or the
    number of key-down events since the key went down, and is what the
    camera takes as acceleration.  The handlers return the new state. *)
Module Controls.

Record t : Type := mk {
  keyDown : option nat;
  paused : bool;
  cameraMatrix : mat4
}.

(** The key-down handler bound to the keys w, a, s and d. *)
Definition keydownMove (key : string) (st : t) : t :=
  let keyDown1 : nat :=
    match keyDown st with
    | Some (S n) => S (S n)
    | Some O => 1%nat
    | None => 1%nat
    end in
  let cameraMatrix1 :=
    if String.eqb key "w" then
      Camera.goForwards (INR keyDown1) (cameraMatrix st)
    else if String.eqb key "a" then
      Camera.goLeft (INR keyDown1) (cameraMatrix st)
    else if String.eqb key "s" then
      Camera.goBackwards (INR keyDown1) (cameraMatrix st)
    else if String.eqb key "d" then
      Camera.goRight (INR keyDown1) (cameraMatrix st)
    else cameraMatrix st in
  mk (Some keyDown1) (paused st) cameraMatrix1.

(** The key-up handler of the same keys. *)
Definition keyupMove (st : t) : t :=
  mk None (paused st) (cameraMatrix st).

(** The key-down handler of the key p. *)
Definition keydownPause (st : t) : t :=
  mk (keyDown st) (negb (paused st)) (cameraMatrix st).

(** [n] key-down events of one key in a row, as the keyboard sends them
    while the key is held. *)
Fixpoint hold (key : string) (n : nat) (st : t) : t :=
  match n with
  | O => st
  | S k => keydownMove key (hold key k st)
  end.

End Controls.

(** ** The sphere buffers

    The part of the Buffers module that computes the arrays of a sphere.
    The arrays are handed to the graphics library as [Float32Array] (the
    rounding to single precision is outside the model) and, for the
    indices, as [Uint16Array], which keeps each number modulo 65536. *)
Module Buffers.

(** [array.push(x)] *)
Definition push {A : Type} (array : list A) (x : A) : list A := array ++ [x].

Definition _getIndexData (latitudeBands longitudeBands : nat) : list nat :=
  foldl
    (fun indexData latNumber =>
       foldl
         (fun indexData longNumber =>
            let first :=
              (latNumber * (longitudeBands + 1) + longNumber)%nat in
            let second := (first + longitudeBands + 1)%nat in
            let indexData := push indexData first in
            let indexData := push indexData second in
            let indexData := push indexData (first + 1)%nat in
            let indexData := push indexData second in
            let indexData := push indexData (second + 1)%nat in
            push indexData (first + 1)%nat)
         indexData (seq 0 longitudeBands))
    [] (seq 0 latitudeBands).

(** The three arrays the loops of [initSphericalBuffers] fill. *)
Record Arrays : Type := mkArrays {
  normalData : list R;
  textureCoordData : list R;
  vertexPositionData : list R
}.

(** The loops of [initSphericalBuffers], for [latitudeBands] and
    [longitudeBands] bands. *)
Definition sphereArrays (radius : R) (latitudeBands longitudeBands : nat)
  : Arrays :=
  foldl
    (fun arrays latNumber =>
       let theta := INR latNumber * PI / INR latitudeBands in
       let sinTheta := sin theta in
       let cosTheta := cos theta in
       foldl
         (fun arrays longNumber =>
            let phi := INR longNumber * 2 * PI / INR longitudeBands in
            let sinPhi := sin phi in
            let cosPhi := cos phi in
            let x := cosPhi * sinTheta in
            let y := cosTheta in
            let z := sinPhi * sinTheta in
            let u := 1 - (INR longNumber / INR longitudeBands) in
            let v := 1 - (INR latNumber / INR latitudeBands) in
            mkArrays
              (push (push (push (normalData arrays) x) y) z)
              (push (push (textureCoordData arrays) u) v)
              (push (push (push (vertexPositionData arrays) (radius * x))
                       (radius * y)) (radius * z)))
         arrays (seq 0 (S longitudeBands)))
    (mkArrays [] [] []) (seq 0 (S latitudeBands)).

Record Buffer (A : Type) : Type := mkBuffer {
  data : list A;
  itemSize : nat;
  numItems : nat
}.
Arguments mkBuffer {A} _ _ _.
Arguments data {A} _.
Arguments itemSize {A} _.
Arguments numItems {A} _.

Definition Uint16Array (array : list nat) : list nat :=
  map (fun n => n mod (256 * 256))%nat array.

Record SphericalBuffers : Type := mkSphericalBuffers {
  vertexNormalBuffer : Buffer R;
  vertexTextureCoordBuffer : Buffer R;
  vertexPositionBuffer : Buffer R;
  vertexIndexBuffer : Buffer nat
}.

(** [initSphericalBuffers(obj)], from the radius of the object: the four
    buffers it stores in the object. *)
Definition initSphericalBuffers (radius : R) : SphericalBuffers :=
  let latitudeBands := 30%nat in
  let longitudeBands := 30%nat in
  let arrays := sphereArrays radius latitudeBands longitudeBands in
  let indexData := _getIndexData latitudeBands longitudeBands in
  mkSphericalBuffers
    (mkBuffer (normalData arrays) 3 (length (normalData arrays) / 3))
    (mkBuffer (textureCoordData arrays) 2
       (length (textureCoordData arrays) / 2))
    (mkBuffer (vertexPositionData arrays) 3
       (length (vertexPositionData arrays) / 3))
    (mkBuffer (Uint16Array indexData) 1 (length indexData)).

(** The vertex of the sphere at one latitude and longitude: its normal and
    its texture coordinates. *)
Definition vertexNormal (latitudeBands longitudeBands : nat)
    (latNumber longNumber : nat) : vec3 :=
  let theta := INR latNumber * PI / INR latitudeBands in
  let phi := INR longNumber * 2 * PI / INR longitudeBands in
  (cos phi * sin theta, cos theta, sin phi * sin theta).

Definition vertexTexture (latitudeBands longitudeBands : nat)
    (latNumber longNumber : nat) : R * R :=
  (1 - (INR longNumber / INR longitudeBands),
   1 - (INR latNumber / INR latitudeBands)).

(** All pairs of a latitude and a longitude, in the order of the loops. *)
Definition grid (latitudeBands longitudeBands : nat) : list (nat * nat) :=
  flat_map
    (fun latNumber =>
       map (fun longNumber => (latNumber, longNumber))
         (seq 0 (S longitudeBands)))
    (seq 0 (S latitudeBands)).

(** The three numbers of a vector and the two numbers of a pair, as they
    are pushed to an array. *)
Definition triple (v : vec3) : list R := let '(x, y, z) := v in [x; y; z].
Definition couple (v : R * R) : list R := let '(x, y) := v in [x; y].
Definition scale (k : R) (v : vec3) : vec3 :=
  let '(x, y, z) := v in (k * x, k * y, k * z).

(** The six indices [_getIndexData] pushes for one cell of the grid: two
    triangles. *)
Definition indexCell (longitudeBands latNumber longNumber : nat) : list nat :=
  let first := (latNumber * (longitudeBands + 1) + longNumber)%nat in
  let second := (first + longitudeBands + 1)%nat in
  [first; second; (first + 1)%nat; second; (second + 1)%nat; (first + 1)%nat].

End Buffers.

(** ** Basic facts about [animate] *)

Section AnimateFields.
Variables (P : option AstronomicalObject) (r t : R)
          (this : AstronomicalObject).

Lemma animate_lastOrbitAngle :
  lastOrbitAngle (animate P r t this) = orbitAmount this r t.
Proof. unfold animate. destruct P; [|destruct (spins this)]; reflexivity. Qed.

Lemma animate_cumulativeOrbitAngle :
  cumulativeOrbitAngle (animate P r t this)
  = cumulativeOrbitAngle this + orbitAmount this r t.
Proof. unfold animate. destruct P; [|destruct (spins this)]; reflexivity. Qed.

Lemma animate_lastSpinAngle :
  lastSpinAngle (animate P r t this)
  = lastSpinAngle this + spinAmount this r t.
Proof. unfold animate. destruct P; [|destruct (spins this)]; reflexivity. Qed.

Lemma animate_axis : axis (animate P r t this) = axis this.
Proof. unfold animate. destruct P; [|destruct (spins this)]; reflexivity. Qed.

Lemma animate_axisArray : axisArray (animate P r t this) = axisArray this.
Proof. unfold animate. destruct P; [|destruct (spins this)]; reflexivity. Qed.

Lemma animate_name : name (animate P r t this) = name this.
Proof. unfold animate. destruct P; [|destruct (spins this)]; reflexivity. Qed.

Lemma animate_orbits : orbits (animate P r t this) = orbits this.
Proof. unfold animate. destruct P; [|destruct (spins this)]; reflexivity. Qed.

Lemma animate_orbitalPeriod :
  orbitalPeriod (animate P r t this) = orbitalPeriod this.
Proof. unfold animate. destruct P; [|destruct (spins this)]; reflexivity. Qed.

Lemma animate_spinPeriod : spinPeriod (animate P r t this) = spinPeriod this.
Proof. unfold animate. destruct P; [|destruct (spins this)]; reflexivity. Qed.

Lemma animate_distance :
  distanceFromBodyWeAreOrbiting (animate P r t this)
  = distanceFromBodyWeAreOrbiting this.
Proof. unfold animate. destruct P; [|destruct (spins this)]; reflexivity. Qed.


End AnimateFields.

Lemma calculatePortionOf_eq (attribute t r : R) :
  calculatePortionOf attribute t r = 2 * PI * t / (r * attribute).
Proof. unfold calculatePortionOf, Rdiv. ring. Qed.

(** The angle does not depend on the period when no time has passed. *)
Lemma calculatePortionOf_0 (attribute r : R) :
  calculatePortionOf attribute 0 r = 0.
Proof. unfold calculatePortionOf, Rdiv. ring. Qed.

(** ** The per-frame angle deltas *)

(** C1.  [animate] computes the orbit angle of the frame as
    [2 PI t / (r * orbitalPeriod)] and the spin angle as
    [2 PI t / (r * spinPeriod)]; the first becomes [lastOrbitAngle] and the
    second is what [lastSpinAngle] grows by.  For orbital period 10 and
    spin period 2, rate 1000 and elapsed time 500 give [PI / 10] and
    [PI / 2]. *)
Theorem C1_angle_deltas (P : option AstronomicalObject) (r t : R)
    (this : AstronomicalObject) :
  orbitAmount this r t = 2 * PI * t / (r * orbitalPeriod this) /\
  spinAmount this r t = 2 * PI * t / (r * spinPeriod this) /\
  lastOrbitAngle (animate P r t this)
    = 2 * PI * t / (r * orbitalPeriod this) /\
  lastSpinAngle (animate P r t this) - lastSpinAngle this
    = 2 * PI * t / (r * spinPeriod this) /\
  (orbitalPeriod this = 10 -> spinPeriod this = 2 ->
   orbitAmount this 1000 500 = PI / 10 /\
   spinAmount this 1000 500 = PI / 2 /\
   lastOrbitAngle (animate P 1000 500 this) = PI / 10 /\
   lastSpinAngle (animate P 1000 500 this) - lastSpinAngle this = PI / 2).
Proof.
  rewrite animate_lastOrbitAngle, animate_lastSpinAngle.
  unfold orbitAmount, spinAmount. rewrite !calculatePortionOf_eq.
  repeat apply conj; try ring.
  intros Ho Hs. rewrite animate_lastOrbitAngle, animate_lastSpinAngle.
  unfold orbitAmount, spinAmount. rewrite !calculatePortionOf_eq, Ho, Hs.
  repeat apply conj; field.
Qed.

(** ** The constructor *)

#[local] Arguments rotate : simpl never.
#[local] Arguments translate : simpl never.
#[local] Arguments multiply : simpl never.
#[local] Arguments num_or : simpl never.
#[local] Arguments str_or : simpl never.
#[local] Arguments degreesToRadians : simpl never.
#[local] Arguments getBoolean : simpl never.

Lemma sun_not_rings (s : string) :
  String.eqb s "Sun" = true -> String.eqb s ringsName = false.
Proof. intros H. apply String.eqb_eq in H. subst s. reflexivity. Qed.

Lemma setOrigin_eq (P : option AstronomicalObject) (origin0 : option vec3)
    (this : AstronomicalObject) :
  setOrigin P origin0 this = set_origin (placedOrigin P origin0 this) this.
Proof.
  unfold setOrigin, placedOrigin.
  destruct origin0 as [o|]; [reflexivity|].
  destruct P as [p|]; [|reflexivity].
  destruct (origin p) as [[px py] pz]. reflexivity.
Qed.

Lemma setRandomStartingOrbit_eq (rnd : R) (this : AstronomicalObject) :
  setRandomStartingOrbit rnd this
  = set_cumulativeOrbitAngle (startingOrbit rnd this)
      (set_lastOrbitAngle (startingOrbit rnd this)
         (set_lastSpinAngle 0 this)).
Proof.
  unfold setRandomStartingOrbit, startingOrbit. cbn.
  destruct (String.eqb (name this) ringsName); [reflexivity|].
  destruct (orbits this); [|reflexivity].
  destruct (spinsClockwise this); reflexivity.
Qed.

Lemma initMatrix_eq (P : option AstronomicalObject)
    (this : AstronomicalObject) :
  initMatrix P this
  = set_modelViewMatrix
      (translate (rotate (initialFrame P) (lastOrbitAngle this) Yaxis)
         (0, 0, - distanceFromBodyWeAreOrbiting this)) this.
Proof.
  unfold initMatrix, initialFrame.
  destruct P as [p|]; [destruct (orbits p)|]; reflexivity.
Qed.

(** The shape of every constructed object. *)
Lemma new_AstronomicalObject_eq (h : Heap) (config : Config.t) (rnd : R)
    (this : AstronomicalObject) :
  new_AstronomicalObject h config rnd = Some this ->
  exists P a,
    deref h (Config.orbits config) = Some P /\
    setAttributes P config fresh = Some a /\
    this =
      let b := set_origin (placedOrigin P (Config.origin config) a) a in
      let c :=
        set_cumulativeOrbitAngle (startingOrbit rnd b)
          (set_lastOrbitAngle (startingOrbit rnd b)
             (set_lastSpinAngle 0 b)) in
      set_modelViewMatrix
        (translate (rotate (initialFrame P) (lastOrbitAngle c) Yaxis)
           (0, 0, - distanceFromBodyWeAreOrbiting c)) c.
Proof.
  unfold new_AstronomicalObject.
  destruct (deref h (Config.orbits config)) as [P|] eqn:HP; [|discriminate].
  destruct (setAttributes P config fresh) as [a|] eqn:Ha; [|discriminate].
  intros [= <-]. exists P, a. split; [reflexivity|]. split; [exact Ha|].
  rewrite setOrigin_eq, setRandomStartingOrbit_eq, initMatrix_eq. reflexivity.
Qed.

(** The fields [setAttributes] leaves in a new object. *)
Section Attributes.
Variables (P : option AstronomicalObject) (config : Config.t)
          (a : AstronomicalObject).
Hypothesis Hattr : setAttributes P config fresh = Some a.

Let nm : string := str_or (Config.name config) "name not set".

Ltac attributes :=
  let Hsun := fresh "Hsun" in
  let Hrings := fresh "Hrings" in
  revert Hattr; subst nm; unfold setAttributes, prepareSpecialCases;
  destruct P as [p|]; cbn;
  (destruct (String.eqb _ "Sun") eqn:Hsun;
   [pose proof (sun_not_rings _ Hsun) as Hrings
   |destruct (String.eqb _ ringsName) eqn:Hrings]);
  intros [= <-]; cbn; rewrite ?Hrings; try reflexivity.

Lemma attr_name : name a = nm.
Proof. attributes. Qed.

Lemma attr_orbits : orbits a = Config.orbits config.
Proof. attributes. Qed.

Lemma attr_spins : spins a = getBoolean (Config.spins config) None.
Proof. attributes. Qed.

Lemma attr_spinsClockwise :
  spinsClockwise a = getBoolean (Config.spinsClockwise config) (Some false).
Proof. attributes. Qed.

Lemma attr_axisArray :
  axisArray a
  = (degreesToRadians (num_or (Config.axis config) 0) / degreesToRadians 90,
     1 - degreesToRadians (num_or (Config.axis config) 0)
         / degreesToRadians 90,
     0).
Proof. attributes. Qed.

Lemma attr_orbitalPeriod :
  orbitalPeriod a
  = if String.eqb nm ringsName
    then match P with Some p => orbitalPeriod p | None => 1 end
    else num_or (Config.orbitalPeriod config) 1.
Proof. attributes. Qed.

Lemma attr_spinPeriod :
  spinPeriod a
  = if String.eqb nm ringsName
    then match P with Some p => spinPeriod p | None => 1 end
    else num_or (Config.spinPeriod config) 1.
Proof. attributes. Qed.

Lemma attr_distance :
  distanceFromBodyWeAreOrbiting a
  = if String.eqb nm ringsName then 0
    else match P with
         | Some p =>
             num_or (Config.radius config) 10 / 100
             + num_or (Config.orbitDistance config) 0 / 50000 + radius p
         | None => 0
         end.
Proof. attributes. Qed.

Lemma attr_rings_orbit :
  String.eqb nm ringsName = true -> exists p, P = Some p.
Proof. attributes; try discriminate. eauto. Qed.

Lemma attr_isNotFirstAnimationFrame : isNotFirstAnimationFrame a = false.
Proof. attributes. Qed.

End Attributes.

(** The fields of a constructed object, read off the two lemmas above. *)
Section Constructed.
Variables (h : Heap) (config : Config.t) (rnd : R)
          (this : AstronomicalObject).
Hypothesis Hnew : new_AstronomicalObject h config rnd = Some this.

Let nm : string := str_or (Config.name config) "name not set".

Ltac constructed :=
  let P := fresh "P" in
  let a := fresh "a" in
  let HP := fresh "HP" in
  let Ha := fresh "Ha" in
  let E := fresh "E" in
  destruct (new_AstronomicalObject_eq _ _ _ _ Hnew) as (P & a & HP & Ha & E);
  subst nm; rewrite E; unfold startingOrbit; cbn;
  rewrite ?(attr_name _ _ _ Ha), ?(attr_orbits _ _ _ Ha),
    ?(attr_spinsClockwise _ _ _ Ha), ?(attr_distance _ _ _ Ha),
    ?(attr_orbitalPeriod _ _ _ Ha), ?(attr_spinPeriod _ _ _ Ha),
    ?(attr_axisArray _ _ _ Ha), ?(attr_isNotFirstAnimationFrame _ _ _ Ha),
    ?(attr_spins _ _ _ Ha).

Lemma new_name : name this = nm.
Proof. constructed. reflexivity. Qed.

Lemma new_orbits : orbits this = Config.orbits config.
Proof. constructed. reflexivity. Qed.

Lemma new_static :
  exists P a,
    deref h (Config.orbits config) = Some P /\
    setAttributes P config fresh = Some a /\
    sameStatic this a.
Proof.
  destruct (new_AstronomicalObject_eq _ _ _ _ Hnew) as (P & a & HP & Ha & E).
  exists P, a. repeat apply conj; try assumption; rewrite E; reflexivity.
Qed.

Lemma new_lastSpinAngle : lastSpinAngle this = 0.
Proof. constructed. reflexivity. Qed.

Lemma new_isNotFirstAnimationFrame : isNotFirstAnimationFrame this = false.
Proof. constructed. reflexivity. Qed.

Lemma new_last_cumulative :
  lastOrbitAngle this = cumulativeOrbitAngle this.
Proof. constructed. reflexivity. Qed.

(** The initial phase. *)
Lemma new_cumulativeOrbitAngle :
  cumulativeOrbitAngle this
  = if String.eqb nm ringsName then degreesToRadians 90
    else match Config.orbits config with
         | Some _ =>
             if getBoolean (Config.spinsClockwise config) (Some false)
             then (PI * 2) / rnd * -1 else (PI * 2) / rnd
         | None => 0
         end.
Proof. constructed. reflexivity. Qed.

Lemma new_axisArray :
  axisArray this
  = (degreesToRadians (num_or (Config.axis config) 0) / degreesToRadians 90,
     1 - degreesToRadians (num_or (Config.axis config) 0)
         / degreesToRadians 90,
     0).
Proof. constructed. reflexivity. Qed.

End Constructed.

(** ** The heap under [animate] *)

Lemma animate_static (P : option AstronomicalObject) (r t : R)
    (this : AstronomicalObject) :
  sameStatic (animate P r t this) this.
Proof.
  unfold sameStatic, animate.
  destruct P; [|destruct (spins this) eqn:E]; cbn; rewrite ?E;
    repeat apply conj; reflexivity.
Qed.

Lemma sameStatic_refl (a : AstronomicalObject) : sameStatic a a.
Proof. unfold sameStatic. repeat apply conj; reflexivity. Qed.

Lemma sameStatic_sym (a b : AstronomicalObject) :
  sameStatic a b -> sameStatic b a.
Proof. unfold sameStatic. intuition congruence. Qed.

Lemma animate_at_length (r t : R) (h : Heap) (i : Ref) :
  length (animate_at r t h i) = length h.
Proof.
  unfold animate_at. destruct (h !! i) as [this|]; [|reflexivity].
  destruct (deref h (orbits this)); [|reflexivity].
  apply length_insert.
Qed.

Lemma animate_at_lookup_ne (r t : R) (h : Heap) (i k : Ref) :
  i <> k -> animate_at r t h i !! k = h !! k.
Proof.
  intros Hne. unfold animate_at. destruct (h !! i) as [this|]; [|reflexivity].
  destruct (deref h (orbits this)); [|reflexivity].
  apply list_lookup_insert_ne. exact Hne.
Qed.

Lemma animate_at_lookup_eq (r t : R) (h : Heap) (i : Ref)
    (this : AstronomicalObject) (P : option AstronomicalObject) :
  h !! i = Some this -> deref h (orbits this) = Some P ->
  animate_at r t h i !! i = Some (animate P r t this).
Proof.
  intros Hi HP. unfold animate_at. rewrite Hi, HP.
  apply list_lookup_insert_eq. apply lookup_lt_Some with this. exact Hi.
Qed.

(** Animating any body keeps the static fields of every body. *)
Lemma animate_at_static (r t : R) (h : Heap) (i k : Ref)
    (this : AstronomicalObject) :
  h !! k = Some this ->
  exists this', animate_at r t h i !! k = Some this' /\ sameStatic this' this.
Proof.
  intros Hk. destruct (decide (i = k)) as [->|Hne].
  - unfold animate_at. rewrite Hk.
    destruct (deref h (orbits this)) as [P|].
    + exists (animate P r t this). split; [|apply animate_static].
      apply list_lookup_insert_eq. apply lookup_lt_Some with this. exact Hk.
    + exists this. split; [exact Hk|apply sameStatic_refl].
  - exists this. rewrite animate_at_lookup_ne by exact Hne.
    split; [exact Hk|apply sameStatic_refl].
Qed.

Lemma animate_at_static_inv (r t : R) (h : Heap) (i k : Ref)
    (this' : AstronomicalObject) :
  animate_at r t h i !! k = Some this' ->
  exists this, h !! k = Some this /\ sameStatic this' this.
Proof.
  intros Hk.
  assert (Hlt : (k < length h)%nat).
  { rewrite <- (animate_at_length r t h i). apply lookup_lt_Some with this'.
    exact Hk. }
  destruct (lookup_lt_is_Some_2 h k Hlt) as [this Hthis].
  exists this. split; [exact Hthis|].
  destruct (animate_at_static r t h i k this Hthis) as (b & Hb & Hs).
  congruence.
Qed.

Lemma deref_Some_inv (h : Heap) (o : option Ref) (p : AstronomicalObject) :
  deref h o = Some (Some p) -> exists j, o = Some j /\ h !! j = Some p.
Proof.
  unfold deref. destruct o as [j|]; [|discriminate].
  destruct (h !! j) as [q|] eqn:E; [|discriminate].
  intros [= <-]. eauto.
Qed.

Lemma deref_None_inv (h : Heap) (o : option Ref) :
  deref h o = Some None -> o = None.
Proof.
  unfold deref. destruct o as [j|]; [|reflexivity].
  destruct (h !! j); discriminate.
Qed.

(** In a reachable heap every reference points to an older object, so the
    lookups of [animate_at] never fail. *)
Lemma Reachable_wellFormed (h : Heap) : Reachable h -> wellFormed h.
Proof.
  induction 1 as [|h config rnd this Hh IH Hnew|h r t i Hh IH];
    intros k b j Hk Hj.
  - discriminate.
  - unfold alloc in Hk. apply lookup_app_Some in Hk as [Hk|[Hge Hk]].
    + eapply IH; eassumption.
    + destruct (k - length h)%nat eqn:E; [|discriminate].
      injection Hk as <-.
      rewrite (new_orbits _ _ _ _ Hnew) in Hj.
      destruct (new_static _ _ _ _ Hnew) as (P & a & HP & _ & _).
      rewrite Hj in HP. unfold deref in HP.
      destruct (h !! j) eqn:Ej; [|discriminate].
      apply lookup_lt_Some in Ej. lia.
  - apply animate_at_static_inv in Hk as (b0 & Hb0 & Hs).
    destruct Hs as (_ & Ho & _). rewrite Ho in Hj.
    eapply IH; eassumption.
Qed.

Lemma wellFormed_deref (h : Heap) (i : Ref) (this : AstronomicalObject) :
  wellFormed h -> h !! i = Some this ->
  exists P, deref h (orbits this) = Some P.
Proof.
  intros Hwf Hi. unfold deref. destruct (orbits this) as [j|] eqn:Ej; [|eauto].
  pose proof (Hwf i this j Hi Ej) as Hlt.
  apply lookup_lt_Some in Hi.
  destruct (lookup_lt_is_Some_2 h j) as [p Hp]; [lia|].
  rewrite Hp. eauto.
Qed.

(** ** The scenario bodies are constructed *)

Lemma setAttributes_is_Some (P : option AstronomicalObject)
    (config : Config.t) :
  (String.eqb (str_or (Config.name config) "name not set") ringsName = true ->
   is_Some P) ->
  is_Some (setAttributes P config fresh).
Proof.
  intros HP. unfold setAttributes, prepareSpecialCases.
  destruct P as [p|]; cbn;
    (destruct (String.eqb _ "Sun") eqn:Hsun;
     [|destruct (String.eqb _ ringsName) eqn:Hrings]); eauto.
Qed.

Lemma new_AstronomicalObject_is_Some (h : Heap) (config : Config.t) (rnd : R)
    (P : option AstronomicalObject) :
  deref h (Config.orbits config) = Some P ->
  (String.eqb (str_or (Config.name config) "name not set") ringsName = true ->
   is_Some P) ->
  new_AstronomicalObject h config rnd
  = Some (Scenario.construct h config rnd).
Proof.
  intros HP Hr. unfold Scenario.construct, new_AstronomicalObject.
  rewrite HP. destruct (setAttributes_is_Some P config Hr) as [a ->].
  reflexivity.
Qed.

Module ScenarioFacts.
Import Scenario.

Lemma new_sun : new_AstronomicalObject [] sunConfig (1 / 2) = Some sun.
Proof.
  apply new_AstronomicalObject_is_Some with (P := None);
    [reflexivity|discriminate].
Qed.

Lemma new_planet :
  new_AstronomicalObject [sun] planetConfig (4 / 5) = Some planet.
Proof.
  apply new_AstronomicalObject_is_Some with (P := Some sun);
    [reflexivity|discriminate].
Qed.

Lemma new_moon :
  new_AstronomicalObject [sun; planet] moonConfig (1 / 2) = Some moon.
Proof.
  apply new_AstronomicalObject_is_Some with (P := Some planet);
    [reflexivity|discriminate].
Qed.

Lemma new_rings :
  new_AstronomicalObject [sun; planet; moon] ringsConfig (1 / 2)
  = Some rings.
Proof.
  apply new_AstronomicalObject_is_Some with (P := Some planet);
    [reflexivity|eauto].
Qed.

Lemma new_venus :
  new_AstronomicalObject [sun; planet; moon; rings] venusConfig (1 / 2)
  = Some venus.
Proof.
  apply new_AstronomicalObject_is_Some with (P := Some sun);
    [reflexivity|discriminate].
Qed.

Lemma Reachable_system : Reachable system.
Proof.
  unfold system.
  apply (Reachable_new [sun; planet; moon; rings] _ _ _) with (2 := new_venus).
  apply (Reachable_new [sun; planet; moon] _ _ _) with (2 := new_rings).
  apply (Reachable_new [sun; planet] _ _ _) with (2 := new_moon).
  apply (Reachable_new [sun] _ _ _) with (2 := new_planet).
  apply (Reachable_new [] _ _ _) with (2 := new_sun).
  constructor.
Qed.

End ScenarioFacts.

(** ** Periods and distance of constructed objects *)

Lemma num_or_Some (v d : R) : v <> 0 -> num_or (Some v) d = v.
Proof. intros Hv. unfold num_or. destruct (Req_dec_T v 0); tauto. Qed.

Lemma num_or_Some_0 (v : R) : num_or (Some v) 0 = v.
Proof. unfold num_or. destruct (Req_dec_T v 0); congruence. Qed.

Lemma num_or_falsy (x : option R) (d : R) :
  x = None \/ x = Some 0 -> num_or x d = d.
Proof.
  intros [->| ->]; unfold num_or; [reflexivity|].
  destruct (Req_dec_T 0 0); tauto.
Qed.

Lemma num_or_neq_0 (x : option R) (d : R) : d <> 0 -> num_or x d <> 0.
Proof.
  intros Hd. unfold num_or. destruct x as [v|]; [|exact Hd].
  destruct (Req_dec_T v 0); assumption.
Qed.

Lemma new_periods (h : Heap) (config : Config.t) (rnd : R)
    (this : AstronomicalObject) :
  new_AstronomicalObject h config rnd = Some this ->
  let nm := str_or (Config.name config) "name not set" in
  exists P,
    deref h (Config.orbits config) = Some P /\
    (String.eqb nm ringsName = true -> is_Some P) /\
    orbitalPeriod this
    = (if String.eqb nm ringsName
       then match P with Some p => orbitalPeriod p | None => 1 end
       else num_or (Config.orbitalPeriod config) 1) /\
    spinPeriod this
    = (if String.eqb nm ringsName
       then match P with Some p => spinPeriod p | None => 1 end
       else num_or (Config.spinPeriod config) 1) /\
    distanceFromBodyWeAreOrbiting this
    = (if String.eqb nm ringsName then 0
       else match P with
            | Some p =>
                num_or (Config.radius config) 10 / 100
                + num_or (Config.orbitDistance config) 0 / 50000 + radius p
            | None => 0
            end).
Proof.
  intros Hnew nm.
  destruct (new_static _ _ _ _ Hnew) as (P & a & HP & Ha & Hs).
  destruct Hs as (_ & _ & Ho & Hsp & Hd & _).
  exists P. split; [exact HP|]. split.
  { intros Hr. destruct (attr_rings_orbit _ _ _ Ha Hr) as [p ->]. eauto. }
  rewrite Ho, Hsp, Hd.
  rewrite (attr_orbitalPeriod _ _ _ Ha), (attr_spinPeriod _ _ _ Ha),
    (attr_distance _ _ _ Ha).
  repeat apply conj; reflexivity.
Qed.

(** The scenario bodies are used through the lemmas above and never
    unfolded. *)
#[global] Opaque Scenario.sun Scenario.planet Scenario.moon Scenario.rings
  Scenario.venus.

Module ScenarioPeriods.
Import Scenario ScenarioFacts.

Lemma planet_orbitalPeriod : orbitalPeriod planet = 10.
Proof.
  destruct (new_periods _ _ _ _ new_planet) as (P & _ & _ & Ho & _).
  rewrite Ho. cbn. apply num_or_Some. lra.
Qed.

Lemma planet_spinPeriod : spinPeriod planet = 2.
Proof.
  destruct (new_periods _ _ _ _ new_planet) as (P & _ & _ & _ & Hs & _).
  rewrite Hs. cbn. apply num_or_Some. lra.
Qed.

Lemma planet_orbits : orbits planet = Some 0%nat.
Proof. apply (new_orbits _ _ _ _ new_planet). Qed.

Lemma moon_orbits : orbits moon = Some 1%nat.
Proof. apply (new_orbits _ _ _ _ new_moon). Qed.

Lemma sun_orbits : orbits sun = None.
Proof. apply (new_orbits _ _ _ _ new_sun). Qed.

Lemma sun_orbitalPeriod : orbitalPeriod sun = 1.
Proof.
  destruct (new_periods _ _ _ _ new_sun) as (P & _ & _ & Ho & _).
  rewrite Ho. reflexivity.
Qed.

Lemma rings_name : name rings = ringsName.
Proof. apply (new_name _ _ _ _ new_rings). Qed.

Lemma rings_orbitalPeriod : orbitalPeriod rings = 10.
Proof.
  destruct (new_periods _ _ _ _ new_rings) as (P & HP & _ & Ho & _).
  injection HP as <-. rewrite Ho. exact planet_orbitalPeriod.
Qed.

End ScenarioPeriods.

(** ** The running state *)

(** C4.  After a call of [animate] the running state is: [lastOrbitAngle]
    is the orbit angle of the frame (replaced), [cumulativeOrbitAngle] has
    grown by it, [lastSpinAngle] has grown by the spin angle of the frame;
    the axis angle and the axis vector are as before.  This holds whether
    the body orbits something or not. *)
Theorem C4_running_state (P : option AstronomicalObject) (r t : R)
    (this : AstronomicalObject) :
  let this' := animate P r t this in
  lastOrbitAngle this' = orbitAmount this r t /\
  cumulativeOrbitAngle this'
    = cumulativeOrbitAngle this + orbitAmount this r t /\
  lastSpinAngle this' = lastSpinAngle this + spinAmount this r t /\
  axis this' = axis this /\
  axisArray this' = axisArray this.
Proof.
  cbn zeta.
  rewrite animate_lastOrbitAngle, animate_cumulativeOrbitAngle,
    animate_lastSpinAngle, animate_axis, animate_axisArray.
  repeat apply conj; reflexivity.
Qed.

Lemma animateTimes_orbitalPeriod (n : nat)
    (Ps : nat -> option AstronomicalObject) (r t : R)
    (this : AstronomicalObject) :
  orbitalPeriod (animateTimes n Ps r t this) = orbitalPeriod this.
Proof.
  revert this. induction n as [|n IH]; intros this; cbn; [reflexivity|].
  rewrite IH. apply animate_orbitalPeriod.
Qed.

Lemma animateTimes_cumulativeOrbitAngle (n : nat)
    (Ps : nat -> option AstronomicalObject) (r t : R)
    (this : AstronomicalObject) :
  cumulativeOrbitAngle (animateTimes n Ps r t this)
  = cumulativeOrbitAngle this
    + INR n * (2 * PI * t / (r * orbitalPeriod this)).
Proof.
  revert this. induction n as [|n IH]; intros this.
  - cbn. ring.
  - cbn [animateTimes]. rewrite IH, animate_cumulativeOrbitAngle,
      animate_orbitalPeriod, S_INR.
    unfold orbitAmount. rewrite calculatePortionOf_eq. ring.
Qed.

(** C5.  A constructed body that is animated [n] times with the same rate
    and elapsed time has [cumulativeOrbitAngle] equal to its initial phase
    (a quarter turn for the rings, plus or minus [2 PI / rnd] for another
    orbiting body, [0] for a root) plus [n] times
    [2 PI t / (r * orbitalPeriod)], whatever the orbited body does in
    between. *)
Theorem C5_cumulative_after_n_frames (h : Heap) (config : Config.t)
    (rnd : R) (this : AstronomicalObject) (n : nat)
    (Ps : nat -> option AstronomicalObject) (r t : R) :
  new_AstronomicalObject h config rnd = Some this ->
  let initialPhase :=
    if String.eqb (str_or (Config.name config) "name not set") ringsName
    then degreesToRadians 90
    else match Config.orbits config with
         | Some _ =>
             if getBoolean (Config.spinsClockwise config) (Some false)
             then (PI * 2) / rnd * -1 else (PI * 2) / rnd
         | None => 0
         end in
  cumulativeOrbitAngle this = initialPhase /\
  cumulativeOrbitAngle (animateTimes n Ps r t this)
  = initialPhase + INR n * (2 * PI * t / (r * orbitalPeriod this)).
Proof.
  intros Hnew initialPhase.
  pose proof (new_cumulativeOrbitAngle _ _ _ _ Hnew) as H0.
  split; [exact H0|].
  rewrite animateTimes_cumulativeOrbitAngle, H0. reflexivity.
Qed.

Lemma C5_cumulative_after_n_frames_witness :
  cumulativeOrbitAngle Scenario.planet = (PI * 2) / (4 / 5) /\
  cumulativeOrbitAngle
    (animateTimes 3 (fun _ => Some Scenario.sun) 1000 500 Scenario.planet)
  = (PI * 2) / (4 / 5)
    + INR 3 * (2 * PI * 500 / (1000 * orbitalPeriod Scenario.planet)).
Proof.
  exact (C5_cumulative_after_n_frames [Scenario.sun] Scenario.planetConfig
           (4 / 5) Scenario.planet 3 (fun _ => Some Scenario.sun) 1000 500
           ScenarioFacts.new_planet).
Defined.

Lemma C1_angle_deltas_witness :
  orbitAmount Scenario.planet 1000 500 = PI / 10 /\
  spinAmount Scenario.planet 1000 500 = PI / 2 /\
  lastOrbitAngle (animate (Some Scenario.sun) 1000 500 Scenario.planet)
    = PI / 10 /\
  lastSpinAngle (animate (Some Scenario.sun) 1000 500 Scenario.planet)
    - lastSpinAngle Scenario.planet = PI / 2.
Proof.
  exact (proj2 (proj2 (proj2 (proj2
           (C1_angle_deltas (Some Scenario.sun) 1000 500 Scenario.planet))))
           ScenarioPeriods.planet_orbitalPeriod
           ScenarioPeriods.planet_spinPeriod).
Defined.

(** ** Matrices: the last column *)

Lemma triple_ext (a a' b b' c c' : R) :
  a = a' -> b = b' -> c = c' -> (a, b, c) = (a', b', c').
Proof. intros -> -> ->. reflexivity. Qed.

Lemma rotate_last_column (a : mat4) (rad : R) (ax : vec3) :
  m12 (rotate a rad ax) = m12 a /\ m13 (rotate a rad ax) = m13 a /\
  m14 (rotate a rad ax) = m14 a /\ m15 (rotate a rad ax) = m15 a.
Proof.
  unfold rotate. destruct ax as [[x y] z].
  destruct (Rlt_dec _ _); repeat apply conj; reflexivity.
Qed.

Lemma worldPosition_eq (m : mat4) : worldPosition m = (m12 m, m13 m, m14 m).
Proof. unfold worldPosition, transformMat4. apply triple_ext; ring. Qed.

Lemma worldPosition_rotate (a : mat4) (rad : R) (ax : vec3) :
  worldPosition (rotate a rad ax) = worldPosition a.
Proof.
  rewrite !worldPosition_eq.
  destruct (rotate_last_column a rad ax) as (-> & -> & -> & _). reflexivity.
Qed.

(** ** Root bodies *)

Lemma animate_at_root (r t : R) (h : Heap) (i : Ref)
    (this : AstronomicalObject) :
  h !! i = Some this -> orbits this = None ->
  animate_at r t h i !! i = Some (animate None r t this).
Proof.
  intros Hi Ho. apply animate_at_lookup_eq; [exact Hi|].
  rewrite Ho. reflexivity.
Qed.

Lemma portion_neq_0 (attribute t r : R) :
  t <> 0 -> r <> 0 -> attribute <> 0 -> 2 * PI * t / (r * attribute) <> 0.
Proof.
  intros Ht Hr Ha. unfold Rdiv.
  apply Rmult_integral_contrapositive_currified.
  - apply Rmult_integral_contrapositive_currified; [|exact Ht].
    pose proof PI_RGT_0. lra.
  - apply Rinv_neq_0_compat.
    apply Rmult_integral_contrapositive_currified; assumption.
Qed.

(** C9 (as amended).  Animating a body that orbits nothing sets
    [lastOrbitAngle] to [2 PI t / (r * orbitalPeriod)] and adds that angle
    to [cumulativeOrbitAngle]; the angle is not zero when time has passed
    ([t <> 0], with a rate and a period that are not zero).  The transform
    is rotated by the spin angle about the world Y axis when the body
    spins and is left alone otherwise; its translation part, that is the
    world position of the body, never changes. *)
Theorem C9_root_body (h : Heap) (i : Ref) (this : AstronomicalObject)
    (r t : R) :
  h !! i = Some this -> orbits this = None ->
  exists this',
    animate_at r t h i !! i = Some this' /\
    lastOrbitAngle this' = 2 * PI * t / (r * orbitalPeriod this) /\
    cumulativeOrbitAngle this'
      = cumulativeOrbitAngle this + 2 * PI * t / (r * orbitalPeriod this) /\
    (t <> 0 -> r <> 0 -> orbitalPeriod this <> 0 ->
     lastOrbitAngle this' <> 0) /\
    modelViewMatrix this'
      = (if spins this
         then rotate (modelViewMatrix this)
                (2 * PI * t / (r * spinPeriod this)) Yaxis
         else modelViewMatrix this) /\
    worldPosition (modelViewMatrix this')
      = worldPosition (modelViewMatrix this).
Proof.
  intros Hi Ho. exists (animate None r t this).
  split; [apply animate_at_root; assumption|].
  rewrite animate_lastOrbitAngle, animate_cumulativeOrbitAngle.
  unfold orbitAmount. rewrite calculatePortionOf_eq.
  assert (Hm : modelViewMatrix (animate None r t this)
               = if spins this
                 then rotate (modelViewMatrix this)
                        (2 * PI * t / (r * spinPeriod this)) Yaxis
                 else modelViewMatrix this).
  { unfold animate, spinAmount. rewrite calculatePortionOf_eq.
    destruct (spins this); reflexivity. }
  repeat apply conj; try reflexivity.
  - apply portion_neq_0.
  - exact Hm.
  - rewrite Hm. destruct (spins this); [|reflexivity].
    apply worldPosition_rotate.
Qed.

Lemma C9_root_body_witness :
  exists this',
    animate_at 1000 500 Scenario.system 0 !! 0%nat = Some this' /\
    lastOrbitAngle this'
      = 2 * PI * 500 / (1000 * orbitalPeriod Scenario.sun) /\
    lastOrbitAngle this' <> 0 /\
    worldPosition (modelViewMatrix this')
      = worldPosition (modelViewMatrix Scenario.sun).
Proof.
  destruct (C9_root_body Scenario.system 0 Scenario.sun 1000 500 eq_refl
              ScenarioPeriods.sun_orbits)
    as (this' & H1 & H2 & _ & H4 & _ & H6).
  exists this'. repeat apply conj; [exact H1|exact H2| |exact H6].
  apply H4; [lra|lra|].
  rewrite ScenarioPeriods.sun_orbitalPeriod. lra.
Defined.

(** The claim of C9 as it was stated fails on a frame with no elapsed
    time, such as the first frame the driver animates: the Sun orbits
    nothing and its [lastOrbitAngle] is set to [0]. *)
Lemma C9_counterexample :
  orbits Scenario.sun = None /\
  ~ lastOrbitAngle (animate None 1000 0 Scenario.sun) <> 0.
Proof.
  split; [exact ScenarioPeriods.sun_orbits|].
  intros H. apply H. rewrite animate_lastOrbitAngle.
  apply calculatePortionOf_0.
Qed.

(** ** The spin axis *)

Lemma axis_components (d : R) :
  (degreesToRadians d / degreesToRadians 90,
   1 - degreesToRadians d / degreesToRadians 90, 0)
  = ((d / 90, 1 - d / 90, 0) : vec3).
Proof.
  unfold degreesToRadians. pose proof PI_neq0.
  apply triple_ext; field; assumption.
Qed.

(** C10.  For an axis of [d] degrees the constructor derives the spin-axis
    vector [(d / 90, 1 - d / 90, 0)]; [animate] never changes it, so it is
    stored as it is and not normalised.  When [d] exceeds 90 the first
    component exceeds 1, the second is negative and the vector has not
    length 1. *)
Theorem C10_axis_vector (h : Heap) (config : Config.t) (rnd d : R)
    (this : AstronomicalObject) :
  new_AstronomicalObject h config rnd = Some this ->
  Config.axis config = Some d ->
  axisArray (setAxis (Some d) fresh) = (d / 90, 1 - d / 90, 0) /\
  axisArray this = (d / 90, 1 - d / 90, 0) /\
  (forall P r t, axisArray (animate P r t this) = (d / 90, 1 - d / 90, 0)) /\
  (90 < d ->
   let '(x, y, z) := axisArray this in
   1 < x /\ y < 0 /\ x * x + y * y + z * z <> 1).
Proof.
  intros Hnew Hd.
  assert (Ha : axisArray this = (d / 90, 1 - d / 90, 0)).
  { rewrite (new_axisArray _ _ _ _ Hnew), Hd, num_or_Some_0.
    apply axis_components. }
  repeat apply conj.
  - unfold setAxis. cbn. rewrite num_or_Some_0. apply axis_components.
  - exact Ha.
  - intros P r t. rewrite animate_axisArray. exact Ha.
  - intros Hgt. rewrite Ha. repeat apply conj; [lra|lra|nra].
Qed.

Lemma C10_axis_vector_witness :
  axisArray Scenario.venus = (17736 / 100 / 90, 1 - 17736 / 100 / 90, 0) /\
  (let '(x, y, z) := axisArray Scenario.venus in
   1 < x /\ y < 0 /\ x * x + y * y + z * z <> 1).
Proof.
  destruct (C10_axis_vector _ Scenario.venusConfig (1 / 2) (17736 / 100)
              Scenario.venus ScenarioFacts.new_venus eq_refl)
    as (_ & H2 & _ & H4).
  split; [exact H2|]. apply H4. lra.
Defined.

(** ** Rings and periods in reachable heaps *)

Lemma alloc_lookup_inv (h : Heap) (this b : AstronomicalObject) (i : Ref) :
  alloc h this !! i = Some b ->
  h !! i = Some b \/ (i = length h /\ b = this).
Proof.
  unfold alloc. intros H. apply lookup_app_Some in H as [H|[Hge H]].
  - left. exact H.
  - right. destruct (i - length h)%nat as [|k] eqn:E; [|discriminate].
    injection H as <-. split; [lia|reflexivity].
Qed.

Lemma alloc_lookup_old (h : Heap) (this b : AstronomicalObject) (i : Ref) :
  h !! i = Some b -> alloc h this !! i = Some b.
Proof.
  intros H. unfold alloc. rewrite lookup_app_l; [exact H|].
  apply lookup_lt_Some with b. exact H.
Qed.

Lemma Reachable_periods (h : Heap) :
  Reachable h ->
  forall (i : Ref) (b : AstronomicalObject),
    h !! i = Some b -> orbitalPeriod b <> 0 /\ spinPeriod b <> 0.
Proof.
  induction 1 as [|h config rnd this Hh IH Hnew|h r t k Hh IH]; intros i b Hi.
  - discriminate.
  - apply alloc_lookup_inv in Hi as [Hi|[_ ->]]; [eapply IH; eassumption|].
    destruct (new_periods _ _ _ _ Hnew) as (P & HP & Hr & Ho & Hs & _).
    rewrite Ho, Hs.
    destruct (String.eqb _ ringsName).
    + destruct (Hr eq_refl) as [p ->].
      apply deref_Some_inv in HP as (j & _ & Hj). eapply IH; eassumption.
    + split; apply num_or_neq_0; lra.
  - apply animate_at_static_inv in Hi as (b0 & Hb0 & Hs).
    destruct Hs as (_ & _ & -> & -> & _). eapply IH; eassumption.
Qed.

(** C7.  In every heap a program can reach, that is after construction and
    across any calls of [animate], a body named "Saturn's Rings" has
    [distanceFromBodyWeAreOrbiting = 0], and its orbital and spin periods
    are those of the body it orbits. *)
Theorem C7_rings_invariant (h : Heap) (i : Ref) (ring : AstronomicalObject) :
  Reachable h ->
  h !! i = Some ring ->
  name ring = ringsName ->
  distanceFromBodyWeAreOrbiting ring = 0 /\
  exists (j : Ref) (parent : AstronomicalObject),
    orbits ring = Some j /\ h !! j = Some parent /\
    orbitalPeriod ring = orbitalPeriod parent /\
    spinPeriod ring = spinPeriod parent.
Proof.
  intros Hh. revert i ring.
  induction Hh as [|h config rnd this Hh IH Hnew|h r t k Hh IH];
    intros i ring Hi Hname.
  - discriminate.
  - apply alloc_lookup_inv in Hi as [Hi|[_ ->]].
    + destruct (IH i ring Hi Hname) as (Hd & j & parent & Ho & Hj & Hp).
      split; [exact Hd|]. exists j, parent.
      split; [exact Ho|]. split; [|exact Hp].
      apply alloc_lookup_old. exact Hj.
    + destruct (new_periods _ _ _ _ Hnew) as (P & HP & Hr & Ho & Hs & Hd).
      rewrite (new_name _ _ _ _ Hnew) in Hname.
      apply String.eqb_eq in Hname. rewrite Hname in Ho, Hs, Hd.
      destruct (Hr Hname) as [p ->].
      apply deref_Some_inv in HP as (j & Hj & Hp).
      split; [exact Hd|]. exists j, p.
      rewrite (new_orbits _ _ _ _ Hnew).
      repeat apply conj; try assumption.
      apply alloc_lookup_old. exact Hp.
  - apply animate_at_static_inv in Hi as (ring0 & Hring0 & Hs).
    destruct Hs as (Hn & Ho & Hop & Hsp & Hd & _).
    rewrite Hn in Hname.
    destruct (IH i ring0 Hring0 Hname)
      as (Hd0 & j & parent & Ho0 & Hj & Hp1 & Hp2).
    split; [congruence|].
    destruct (animate_at_static r t h k j parent Hj)
      as (parent' & Hparent' & Hs').
    destruct Hs' as (_ & _ & Hop' & Hsp' & _).
    exists j, parent'. repeat apply conj; congruence.
Qed.

Lemma C7_rings_invariant_witness :
  distanceFromBodyWeAreOrbiting Scenario.rings = 0 /\
  exists (j : Ref) (parent : AstronomicalObject),
    orbits Scenario.rings = Some j /\
    animate_at 1000 500 Scenario.system 1 !! j = Some parent /\
    orbitalPeriod Scenario.rings = orbitalPeriod parent /\
    spinPeriod Scenario.rings = spinPeriod parent.
Proof.
  apply (C7_rings_invariant (animate_at 1000 500 Scenario.system 1) 3
           Scenario.rings).
  - apply Reachable_animate. exact ScenarioFacts.Reachable_system.
  - rewrite animate_at_lookup_ne by discriminate. reflexivity.
  - exact ScenarioPeriods.rings_name.
Defined.

(** C8 (as amended).  A body that is not named "Saturn's Rings" and whose
    configuration leaves out a period, or gives 0 for it, has that period
    equal to 1; the rings take both periods from the body they orbit
    whatever their configuration says.  In every reachable heap both
    periods of every body are different from 0, so for a rate [r <> 0] the
    divisors [r * orbitalPeriod] and [r * spinPeriod] of
    [calculatePortionOf] are not 0. *)
Theorem C8_period_defaults (h : Heap) (config : Config.t) (rnd : R)
    (this : AstronomicalObject) :
  new_AstronomicalObject h config rnd = Some this ->
  (name this <> ringsName ->
   (Config.orbitalPeriod config = None \/ Config.orbitalPeriod config = Some 0
    -> orbitalPeriod this = 1) /\
   (Config.spinPeriod config = None \/ Config.spinPeriod config = Some 0
    -> spinPeriod this = 1)) /\
  (name this = ringsName ->
   exists (j : Ref) (parent : AstronomicalObject),
     orbits this = Some j /\ h !! j = Some parent /\
     orbitalPeriod this = orbitalPeriod parent /\
     spinPeriod this = spinPeriod parent) /\
  (forall (h' : Heap) (i : Ref) (b : AstronomicalObject) (r : R),
     Reachable h' -> h' !! i = Some b -> r <> 0 ->
     r * orbitalPeriod b <> 0 /\ r * spinPeriod b <> 0).
Proof.
  intros Hnew.
  destruct (new_periods _ _ _ _ Hnew) as (P & HP & Hr & Ho & Hs & _).
  rewrite (new_name _ _ _ _ Hnew).
  split; [|split].
  - intros Hname.
    destruct (String.eqb _ ringsName) eqn:E.
    { apply String.eqb_eq in E. contradiction. }
    rewrite Ho, Hs. split; intros Hcfg; apply num_or_falsy; exact Hcfg.
  - intros Hname. apply String.eqb_eq in Hname. rewrite Hname in Ho, Hs.
    destruct (Hr Hname) as [p ->].
    apply deref_Some_inv in HP as (j & Hj & Hp).
    exists j, p. rewrite (new_orbits _ _ _ _ Hnew). auto.
  - intros h' i b r Hh' Hi Hr0.
    destruct (Reachable_periods h' Hh' i b Hi) as [H1 H2].
    split; apply Rmult_integral_contrapositive_currified; assumption.
Qed.

Lemma C8_period_defaults_witness :
  orbitalPeriod Scenario.sun = 1 /\
  1000 * orbitalPeriod Scenario.rings <> 0 /\
  1000 * spinPeriod Scenario.rings <> 0.
Proof.
  destruct (C8_period_defaults [] Scenario.sunConfig (1 / 2) Scenario.sun
              ScenarioFacts.new_sun) as (H1 & _ & H3).
  split.
  - apply H1; [|left; reflexivity].
    rewrite (new_name _ _ _ _ ScenarioFacts.new_sun). discriminate.
  - apply (H3 Scenario.system 3%nat Scenario.rings 1000
             ScenarioFacts.Reachable_system eq_refl). lra.
Defined.

(** The first half of C8 as it was stated fails for the rings: their
    configuration leaves out both periods, as in [solar_system.js], and
    they get the orbital period 10 of the planet, not 1. *)
Lemma C8_counterexample :
  new_AstronomicalObject [Scenario.sun; Scenario.planet; Scenario.moon]
    Scenario.ringsConfig (1 / 2) = Some Scenario.rings /\
  Config.orbitalPeriod Scenario.ringsConfig = None /\
  orbitalPeriod Scenario.rings <> 1.
Proof.
  split; [exact ScenarioFacts.new_rings|]. split; [reflexivity|].
  rewrite ScenarioPeriods.rings_orbitalPeriod. lra.
Qed.

(** ** The frame driver *)

Lemma animate_0_angles (P : option AstronomicalObject) (r : R)
    (this : AstronomicalObject) :
  sameAngles (animate P r 0 this) this.
Proof.
  unfold sameAngles.
  rewrite animate_cumulativeOrbitAngle, animate_lastSpinAngle.
  unfold orbitAmount, spinAmount. rewrite !calculatePortionOf_0.
  split; ring.
Qed.

Lemma animate_at_0_angles (r : R) (h : Heap) (i k : Ref)
    (this : AstronomicalObject) :
  h !! k = Some this ->
  exists this', animate_at r 0 h i !! k = Some this' /\ sameAngles this' this.
Proof.
  intros Hk. destruct (decide (i = k)) as [->|Hne].
  - unfold animate_at. rewrite Hk.
    destruct (deref h (orbits this)) as [P|].
    + exists (animate P r 0 this). split; [|apply animate_0_angles].
      apply list_lookup_insert_eq. apply lookup_lt_Some with this. exact Hk.
    + exists this. split; [exact Hk|]. split; reflexivity.
  - exists this. rewrite animate_at_lookup_ne by exact Hne.
    split; [exact Hk|]. split; reflexivity.
Qed.

Lemma foldl_animate_at_0_angles (r : R) (refs : list Ref) (h : Heap)
    (k : Ref) (this : AstronomicalObject) :
  h !! k = Some this ->
  exists this',
    foldl (animate_at r 0) h refs !! k = Some this' /\ sameAngles this' this.
Proof.
  revert h this. induction refs as [|i refs IH]; intros h this Hk; cbn.
  - exists this. split; [exact Hk|]. split; reflexivity.
  - destruct (animate_at_0_angles r h i k this Hk) as (b & Hb & [Hb1 Hb2]).
    destruct (IH _ b Hb) as (c & Hc & [Hc1 Hc2]).
    exists c. split; [exact Hc|]. split; congruence.
Qed.

Lemma runs_paused (inputs : list (bool * R * R)) (app : App.t) :
  Forall (fun input => input.1.1 = true) inputs ->
  App.SolarSystem (App.runs inputs app) = App.SolarSystem app /\
  (inputs <> [] -> App.timeLastFrame (App.runs inputs app) = None).
Proof.
  intros Hp. revert app.
  induction Hp as [|[[paused mpd] now] inputs Hx Hp IH]; intros app.
  - split; [reflexivity|]. intros H. contradiction.
  - cbn in Hx. subst paused. unfold App.runs. cbn.
    destruct (IH (App.mk None (App.SolarSystem app))) as [H1 H2].
    unfold App.runs in H1, H2. split; [exact H1|]. intros _.
    destruct inputs as [|input inputs]; [reflexivity|].
    apply H2. discriminate.
Qed.

(** C6.  Calls of the driver while paused, however many, leave the heap of
    bodies as it is, hence every transform and every angle.  After at
    least one such call the next call that is not paused computes 0
    elapsed milliseconds whatever the clock reads, and animates every body
    with that: no [cumulativeOrbitAngle] and no [lastSpinAngle] moves. *)
Theorem C6_pause (inputs : list (bool * R * R)) (app : App.t)
    (millisecondsPerDay timeThisFrame : R) :
  Forall (fun input => input.1.1 = true) inputs ->
  let app' := App.runs inputs app in
  App.SolarSystem app' = App.SolarSystem app /\
  (inputs <> [] ->
   (App.millisecondsSinceLastFrame timeThisFrame (App.timeLastFrame app')).1
     = 0 /\
   App.SolarSystem (App.run false millisecondsPerDay timeThisFrame app')
     = App.animateAll millisecondsPerDay 0 (App.SolarSystem app) /\
   forall (i : Ref) (this : AstronomicalObject),
     App.SolarSystem app !! i = Some this ->
     exists this',
       App.SolarSystem (App.run false millisecondsPerDay timeThisFrame app')
         !! i = Some this' /\
       cumulativeOrbitAngle this' = cumulativeOrbitAngle this /\
       lastSpinAngle this' = lastSpinAngle this).
Proof.
  intros Hp app'. destruct (runs_paused inputs app Hp) as [Hh Ht].
  split; [exact Hh|]. intros Hne. specialize (Ht Hne).
  assert (Hrun : App.SolarSystem
                   (App.run false millisecondsPerDay timeThisFrame app')
                 = App.animateAll millisecondsPerDay 0 (App.SolarSystem app)).
  { subst app'. unfold App.run, App.animate, App.millisecondsSinceLastFrame.
    rewrite Ht, Hh. cbn. f_equal. unfold Rminus. apply Rplus_opp_r. }
  repeat apply conj.
  - subst app'. rewrite Ht. cbn. unfold Rminus. apply Rplus_opp_r.
  - exact Hrun.
  - intros i this Hi. rewrite Hrun. unfold App.animateAll.
    destruct (foldl_animate_at_0_angles millisecondsPerDay
                (seq 0 (length (App.SolarSystem app))) _ i this Hi)
      as (this' & H1 & H2 & H3).
    exists this'. auto.
Qed.

Lemma C6_pause_witness :
  let app := App.mk (Some 1000) Scenario.system in
  let app' := App.runs [(true, 1000, 1016); (true, 1000, 1033)] app in
  App.SolarSystem app' = Scenario.system /\
  (App.millisecondsSinceLastFrame 5000 (App.timeLastFrame app')).1 = 0 /\
  exists this',
    App.SolarSystem (App.run false 1000 5000 app') !! 1%nat = Some this' /\
    cumulativeOrbitAngle this' = cumulativeOrbitAngle Scenario.planet /\
    lastSpinAngle this' = lastSpinAngle Scenario.planet.
Proof.
  intros app app'.
  destruct (C6_pause [(true, 1000, 1016); (true, 1000, 1033)] app 1000 5000)
    as [H1 H2].
  - repeat constructor.
  - split; [exact H1|]. destruct (H2 ltac:(discriminate)) as (H3 & _ & H5).
    split; [exact H3|]. exact (H5 1%nat Scenario.planet eq_refl).
Defined.

(** ** Matrices: products and planar transforms *)

Lemma multiply_create (a : mat4) : multiply a create = a.
Proof. destruct a. unfold multiply, create. cbn. f_equal; ring. Qed.

Lemma multiply_translate (a b : mat4) (v : vec3) :
  multiply a (translate b v) = translate (multiply a b) v.
Proof.
  destruct v as [[x y] z]. unfold multiply, translate. cbn. f_equal; ring.
Qed.

Lemma multiply_rotate (a b : mat4) (rad : R) (ax : vec3) :
  multiply a (rotate b rad ax) = rotate (multiply a b) rad ax.
Proof.
  destruct ax as [[x y] z]. unfold rotate.
  destruct (Rlt_dec _ _); [reflexivity|].
  unfold multiply. cbn. f_equal; ring.
Qed.

(** Multiplying by a matrix built step by step from the identity is
    applying the steps. *)
Lemma multiply_compose (steps : list Step) (a b : mat4) :
  multiply a (compose steps b) = compose steps (multiply a b).
Proof.
  unfold compose. revert b.
  induction steps as [|s steps IH]; intros b; cbn; [reflexivity|].
  rewrite IH. f_equal.
  destruct s; cbn; [apply multiply_translate|apply multiply_rotate].
Qed.

Lemma Yaxis_length_ok :
  ~ Rabs (sqrt (0 * 0 + 1 * 1 + 0 * 0)) < GLMAT_EPSILON.
Proof.
  replace (0 * 0 + 1 * 1 + 0 * 0) with 1 by ring.
  rewrite sqrt_1, Rabs_R1. unfold GLMAT_EPSILON. lra.
Qed.

Lemma rotate_planar (a x z b : R) :
  rotate (planar a x z) b Yaxis = planar (a + b) x z.
Proof.
  unfold rotate, Yaxis.
  destruct (Rlt_dec _ _) as [Hlt|_]; [destruct (Yaxis_length_ok Hlt)|].
  replace (0 * 0 + 1 * 1 + 0 * 0) with 1 by ring. rewrite sqrt_1.
  unfold planar. cbn. rewrite cos_plus, sin_plus. f_equal; field.
Qed.

Lemma translate_planar (a x z d : R) :
  translate (planar a x z) (0, 0, d)
  = planar a (x + d * sin a) (z + d * cos a).
Proof. unfold translate, planar. cbn. f_equal; ring. Qed.

Lemma create_planar : create = planar 0 0 0.
Proof. unfold create, planar. rewrite cos_0, sin_0. f_equal; ring. Qed.

Lemma worldPosition_planar (a x z : R) :
  worldPosition (planar a x z) = (x, 0, z).
Proof. rewrite worldPosition_eq. reflexivity. Qed.

Lemma planar_ext (a a' x x' z z' : R) :
  a = a' -> x = x' -> z = z' -> planar a x z = planar a' x' z'.
Proof. intros -> -> ->. reflexivity. Qed.

Ltac planar_steps :=
  unfold compose; cbn [foldl applyStep];
  rewrite create_planar;
  repeat (rewrite rotate_planar || rewrite translate_planar).

Lemma planet_chain (th d dl : R) :
  compose [TranslateZ d; RotateY dl; TranslateZ (- d)]
    (translate (rotate create th Yaxis) (0, 0, - d))
  = planar (th + dl) (- d * sin (th + dl)) (- d * cos (th + dl)).
Proof.
  planar_steps.
  replace (0 + th + dl) with (th + dl) by ring.
  replace (0 + th) with th by ring.
  apply planar_ext; ring.
Qed.

Lemma moon_chain (thP dP thM dM lP dlM : R) :
  compose
    [TranslateZ dM; RotateY (- thM); TranslateZ dP; RotateY lP;
     TranslateZ (- dP); RotateY (thM + dlM); TranslateZ (- dM)]
    (translate
       (rotate (translate (rotate create thP Yaxis) (0, 0, 0 - dP)) thM Yaxis)
       (0, 0, - dM))
  = planar (thP + lP + (thM + dlM))
      (- dP * sin (thP + lP) - dM * sin (thP + lP + (thM + dlM)))
      (- dP * cos (thP + lP) - dM * cos (thP + lP + (thM + dlM))).
Proof.
  planar_steps.
  replace (0 + thP + thM + - thM + lP + (thM + dlM))
    with (thP + lP + (thM + dlM)) by ring.
  replace (0 + thP + thM + - thM + lP) with (thP + lP) by ring.
  replace (0 + thP + thM + - thM) with (0 + thP) by ring.
  apply planar_ext; ring.
Qed.

(** ** The transform [animate] builds for an orbiting body *)

Lemma new_modelViewMatrix (h : Heap) (config : Config.t) (rnd : R)
    (this : AstronomicalObject) :
  new_AstronomicalObject h config rnd = Some this ->
  exists P,
    deref h (Config.orbits config) = Some P /\
    modelViewMatrix this
    = translate (rotate (initialFrame P) (lastOrbitAngle this) Yaxis)
        (0, 0, - distanceFromBodyWeAreOrbiting this) /\
    origin this = placedOrigin P (Config.origin config) this.
Proof.
  intros Hnew.
  destruct (new_AstronomicalObject_eq _ _ _ _ Hnew) as (P & a & HP & Ha & E).
  exists P. split; [exact HP|]. rewrite E. split; reflexivity.
Qed.

Lemma new_origin_default (h : Heap) (config : Config.t) (rnd : R)
    (this p : AstronomicalObject) :
  new_AstronomicalObject h config rnd = Some this ->
  deref h (Config.orbits config) = Some (Some p) ->
  Config.origin config = None ->
  origin this
  = ((origin p).1.1, (origin p).1.2,
     (origin p).2 - distanceFromBodyWeAreOrbiting this).
Proof.
  intros Hnew Hp Ho.
  destruct (new_modelViewMatrix _ _ _ _ Hnew) as (P & HP & _ & ->).
  rewrite Hp in HP. injection HP as <-. rewrite Ho. reflexivity.
Qed.

Lemma unspin_first (this : AstronomicalObject) :
  isNotFirstAnimationFrame this = false -> unspin this = create.
Proof. intros H. unfold unspin, beforeOrbit. rewrite H. reflexivity. Qed.

Lemma unspin_later (this : AstronomicalObject) :
  isNotFirstAnimationFrame this = true ->
  unspin this
  = rotate
      (rotate create
         (if spinsClockwise this then lastSpinAngle this
          else - lastSpinAngle this) Yaxis)
      (-1) (axisArray this).
Proof. intros H. unfold unspin, beforeOrbit. rewrite H. reflexivity. Qed.

Lemma translationMatrixOf_planet (p this : AstronomicalObject) (dl : R) :
  orbits p = None ->
  translationMatrixOf p this dl
  = compose
      [TranslateZ (distanceFromBodyWeAreOrbiting this); RotateY dl;
       TranslateZ (- distanceFromBodyWeAreOrbiting this)]
      (unspin this).
Proof.
  intros H. unfold translationMatrixOf, compose, unspin. rewrite H.
  cbn [foldl applyStep]. reflexivity.
Qed.

Lemma translationMatrixOf_moon (p this : AstronomicalObject) (dl : R)
    (g : Ref) :
  orbits p = Some g ->
  translationMatrixOf p this dl
  = compose (moonOrbitSteps p this dl) (unspin this).
Proof.
  intros H. unfold translationMatrixOf, compose, unspin, moonOrbitSteps.
  rewrite H. cbn [foldl applyStep]. reflexivity.
Qed.

Lemma animate_modelViewMatrix (p this : AstronomicalObject) (r t : R) :
  modelViewMatrix (animate (Some p) r t this)
  = respin this (spinAmount this r t)
      (multiply (modelViewMatrix this)
         (translationMatrixOf p this (orbitAmount this r t))).
Proof.
  unfold animate, afterOrbit, updateAttributes, respin.
  cbn [modelViewMatrix set_modelViewMatrix set_isNotFirstAnimationFrame
       set_lastOrbitAngle set_cumulativeOrbitAngle set_lastSpinAngle
       axisArray spinsClockwise lastSpinAngle].
  reflexivity.
Qed.

Lemma worldPosition_respin (this : AstronomicalObject) (s : R) (m : mat4) :
  worldPosition (respin this s m) = worldPosition m.
Proof. unfold respin. rewrite !worldPosition_rotate. reflexivity. Qed.

(** C2 (as amended).  For a body whose orbited body [p] itself orbits
    something, [animate] builds the matrix it multiplies into the
    model-view matrix by applying the seven steps, in the order of the
    specification, to the un-spin transform: the identity on the first
    animation frame of the body, and on later frames the identity rotated
    by the signed last spin angle about the world Y axis and by -1 radian
    about the body's axis vector.  That matrix is multiplied on the right
    into the model-view matrix, which comes to applying the steps to the
    un-spun model-view matrix, and the re-spin follows. *)
Theorem C2_moon_orbit_steps (p this : AstronomicalObject) (g : Ref)
    (r t : R) :
  orbits p = Some g ->
  let orbitDelta := 2 * PI * t / (r * orbitalPeriod this) in
  let steps := moonOrbitSteps p this orbitDelta in
  translationMatrixOf p this (orbitAmount this r t)
    = compose steps (unspin this) /\
  (isNotFirstAnimationFrame this = false ->
   translationMatrixOf p this (orbitAmount this r t) = compose steps create) /\
  (isNotFirstAnimationFrame this = true ->
   unspin this
   = rotate
       (rotate create
          (if spinsClockwise this then lastSpinAngle this
           else - lastSpinAngle this) Yaxis)
       (-1) (axisArray this)) /\
  modelViewMatrix (animate (Some p) r t this)
    = respin this (spinAmount this r t)
        (multiply (modelViewMatrix this) (compose steps (unspin this))) /\
  multiply (modelViewMatrix this) (compose steps (unspin this))
    = compose steps (multiply (modelViewMatrix this) (unspin this)).
Proof.
  intros Hp orbitDelta steps. subst steps orbitDelta.
  rewrite <- (calculatePortionOf_eq (orbitalPeriod this) t r).
  fold (orbitAmount this r t).
  assert (H1 := translationMatrixOf_moon p this (orbitAmount this r t) g Hp).
  split; [exact H1|]. split.
  { intros Hf. rewrite H1, (unspin_first this Hf). reflexivity. }
  split; [apply unspin_later|]. split.
  - rewrite animate_modelViewMatrix, H1. reflexivity.
  - apply multiply_compose.
Qed.

Lemma C2_moon_orbit_steps_witness :
  let orbitDelta := 2 * PI * 500 / (1000 * orbitalPeriod Scenario.moon) in
  let steps := moonOrbitSteps Scenario.planet Scenario.moon orbitDelta in
  translationMatrixOf Scenario.planet Scenario.moon
    (orbitAmount Scenario.moon 1000 500)
  = compose steps create /\
  modelViewMatrix (animate (Some Scenario.planet) 1000 500 Scenario.moon)
  = respin Scenario.moon (spinAmount Scenario.moon 1000 500)
      (multiply (modelViewMatrix Scenario.moon)
         (compose steps (unspin Scenario.moon))).
Proof.
  destruct (C2_moon_orbit_steps Scenario.planet Scenario.moon 0%nat 1000 500
              ScenarioPeriods.planet_orbits) as (_ & H2 & _ & H4 & _).
  split; [|exact H4].
  apply H2. exact (new_isNotFirstAnimationFrame _ _ _ _ ScenarioFacts.new_moon).
Defined.

Lemma compose_planar_angle (steps : list Step) (a x z : R) :
  exists x' z',
    compose steps (planar a x z) = planar (a + stepsAngle steps) x' z'.
Proof.
  unfold compose. revert a x z.
  induction steps as [|[d|b] steps IH]; intros a x z; cbn [foldl applyStep].
  - exists x, z. cbn. apply planar_ext; ring.
  - rewrite translate_planar. apply IH.
  - rewrite rotate_planar. destruct (IH (a + b) x z) as (x' & z' & ->).
    exists x', z'. cbn. apply planar_ext; ring.
Qed.

Lemma cos_1_lt_1 : cos 1 < 1.
Proof.
  pose proof PI2_1 as Hpi.
  assert (H : cos 1 < cos 0) by (apply cos_decreasing_1; lra).
  rewrite cos_0 in H. exact H.
Qed.

(** The claim of C2 as it was stated fails on the second animation frame
    of the scenario's Moon: the steps are applied to the un-spin transform,
    a rotation by -1 radian about the world Y axis, and not to the
    identity. *)
Lemma C2_counterexample :
  orbits ScenarioFrame.planet1 = Some 0%nat /\
  translationMatrixOf ScenarioFrame.planet1 ScenarioFrame.moon1
    (orbitAmount ScenarioFrame.moon1 1000 0)
  <> compose
       (moonOrbitSteps ScenarioFrame.planet1 ScenarioFrame.moon1
          (2 * PI * 0 / (1000 * orbitalPeriod ScenarioFrame.moon1)))
       create.
Proof.
  assert (Ho : orbits ScenarioFrame.planet1 = Some 0%nat).
  { unfold ScenarioFrame.planet1. rewrite animate_orbits.
    exact ScenarioPeriods.planet_orbits. }
  split; [exact Ho|].
  rewrite <- (calculatePortionOf_eq (orbitalPeriod ScenarioFrame.moon1) 0 1000).
  fold (orbitAmount ScenarioFrame.moon1 1000 0).
  rewrite (translationMatrixOf_moon _ _ _ _ Ho).
  assert (Hu : unspin ScenarioFrame.moon1 = planar (-1) 0 0).
  { rewrite unspin_later by reflexivity.
    assert (Hc : spinsClockwise ScenarioFrame.moon1 = false).
    { unfold ScenarioFrame.moon1.
      destruct (animate_static (Some ScenarioFrame.planet1) 1000 0
                  Scenario.moon) as (_ & _ & _ & _ & _ & _ & _ & -> & _).
      destruct (new_static _ _ _ _ ScenarioFacts.new_moon)
        as (P & a & _ & Ha & Hs).
      destruct Hs as (_ & _ & _ & _ & _ & _ & _ & -> & _).
      rewrite (attr_spinsClockwise _ _ _ Ha). reflexivity. }
    assert (Hs : lastSpinAngle ScenarioFrame.moon1 = 0).
    { unfold ScenarioFrame.moon1. rewrite animate_lastSpinAngle.
      rewrite (new_lastSpinAngle _ _ _ _ ScenarioFacts.new_moon).
      unfold spinAmount. rewrite calculatePortionOf_0. ring. }
    assert (Ha : axisArray ScenarioFrame.moon1 = Yaxis).
    { unfold ScenarioFrame.moon1. rewrite animate_axisArray.
      rewrite (new_axisArray _ _ _ _ ScenarioFacts.new_moon).
      cbn [Config.axis Scenario.moonConfig].
      replace (num_or None 0) with 0 by reflexivity.
      rewrite axis_components. unfold Yaxis. apply triple_ext; lra. }
    rewrite Hc, Hs, Ha, create_planar, !rotate_planar.
    apply planar_ext; ring. }
  rewrite Hu, create_planar.
  set (steps := moonOrbitSteps _ _ _).
  destruct (compose_planar_angle steps (-1) 0 0) as (x1 & z1 & ->).
  destruct (compose_planar_angle steps 0 0 0) as (x2 & z2 & ->).
  assert (Hangle : stepsAngle steps = 0).
  { subst steps. unfold moonOrbitSteps. cbn [stepsAngle].
    replace (lastOrbitAngle ScenarioFrame.planet1) with 0.
    2:{ unfold ScenarioFrame.planet1. rewrite animate_lastOrbitAngle.
        unfold orbitAmount. rewrite calculatePortionOf_0. reflexivity. }
    unfold orbitAmount. rewrite calculatePortionOf_0. ring. }
  rewrite Hangle. intros Heq. apply (f_equal m0) in Heq.
  cbn [m0 planar] in Heq.
  replace (-1 + 0) with (- (1)) in Heq by ring.
  replace (0 + 0) with 0 in Heq by ring.
  rewrite cos_neg, cos_0 in Heq. pose proof cos_1_lt_1. lra.
Qed.

(** ** A moon around a planet around a root *)

Lemma root_orbits_None (config : Config.t) (rnd : R)
    (this : AstronomicalObject) :
  new_AstronomicalObject [] config rnd = Some this -> orbits this = None.
Proof.
  intros Hnew. rewrite (new_orbits _ _ _ _ Hnew).
  destruct (new_static _ _ _ _ Hnew) as (P & a & HP & _ & _).
  destruct (Config.orbits config) as [j|]; [discriminate HP|reflexivity].
Qed.

Section MoonAroundPlanet.

Variables (sunConfig planetConfig moonConfig : Config.t) (rs rp rm : R).
Variables (sun planet moon : AstronomicalObject) (r t : R).

Hypothesis Hsun : new_AstronomicalObject [] sunConfig rs = Some sun.
Hypothesis Hsun0 : origin sun = (0, 0, 0).
Hypothesis Hplanet : new_AstronomicalObject [sun] planetConfig rp = Some planet.
Hypothesis HplanetOrbits : Config.orbits planetConfig = Some 0%nat.
Hypothesis HplanetOrigin : Config.origin planetConfig = None.
Hypothesis Hmoon :
new_AstronomicalObject [sun; planet] moonConfig rm = Some moon.
Hypothesis HmoonOrbits : Config.orbits moonConfig = Some 1%nat.

Let planet' : AstronomicalObject := animate (Some sun) r t planet.
Let moon' : AstronomicalObject := animate (Some planet') r t moon.

Lemma two_calls_heap :
animate_at r t (animate_at r t [sun; planet; moon] 1) 2
= [sun; planet'; moon'].
Proof.
assert (H1 : animate_at r t [sun; planet; moon] 1 = [sun; planet'; moon]).
{ unfold animate_at. cbn [lookup list_lookup].
  rewrite (new_orbits _ _ _ _ Hplanet), HplanetOrbits. reflexivity. }
rewrite H1. unfold animate_at. cbn [lookup list_lookup].
rewrite (new_orbits _ _ _ _ Hmoon), HmoonOrbits. reflexivity.
Qed.

Lemma planet_modelViewMatrix :
modelViewMatrix planet
= translate (rotate create (lastOrbitAngle planet) Yaxis)
    (0, 0, - distanceFromBodyWeAreOrbiting planet)
/\ origin planet = (0, 0, 0 - distanceFromBodyWeAreOrbiting planet).
Proof.
destruct (new_modelViewMatrix _ _ _ _ Hplanet) as (P & HP & Hm & Ho).
rewrite HplanetOrbits in HP. injection HP as <-.
rewrite Hm, Ho, HplanetOrigin. unfold initialFrame, placedOrigin.
rewrite (root_orbits_None _ _ _ Hsun), Hsun0. split; reflexivity.
Qed.

Lemma moon_modelViewMatrix :
modelViewMatrix moon
= translate
    (rotate
       (translate (rotate create (lastOrbitAngle planet) Yaxis)
          (0, 0, 0 - distanceFromBodyWeAreOrbiting planet))
       (lastOrbitAngle moon) Yaxis)
    (0, 0, - distanceFromBodyWeAreOrbiting moon).
Proof.
destruct (new_modelViewMatrix _ _ _ _ Hmoon) as (P & HP & Hm & _).
rewrite HmoonOrbits in HP. injection HP as <-.
rewrite Hm. unfold initialFrame.
rewrite (new_orbits _ _ _ _ Hplanet), HplanetOrbits.
destruct planet_modelViewMatrix as [_ ->]. reflexivity.
Qed.

(** Where the two calls put the planet and the moon. *)
Lemma planet_worldPosition :
worldPosition (modelViewMatrix planet')
= (- distanceFromBodyWeAreOrbiting planet
     * sin (cumulativeOrbitAngle planet'),
   0,
   - distanceFromBodyWeAreOrbiting planet
     * cos (cumulativeOrbitAngle planet')).
Proof.
subst planet'. rewrite animate_modelViewMatrix, worldPosition_respin.
rewrite (translationMatrixOf_planet _ _ _ (root_orbits_None _ _ _ Hsun)).
rewrite (unspin_first _ (new_isNotFirstAnimationFrame _ _ _ _ Hplanet)).
rewrite multiply_compose, multiply_create.
destruct planet_modelViewMatrix as [-> _].
rewrite planet_chain, worldPosition_planar, animate_cumulativeOrbitAngle.
rewrite <- (new_last_cumulative _ _ _ _ Hplanet). reflexivity.
Qed.

Lemma moon_worldPosition :
worldPosition (modelViewMatrix moon')
= (- distanceFromBodyWeAreOrbiting planet
     * sin (cumulativeOrbitAngle planet')
   - distanceFromBodyWeAreOrbiting moon
     * sin (cumulativeOrbitAngle planet' + cumulativeOrbitAngle moon'),
   0,
   - distanceFromBodyWeAreOrbiting planet
     * cos (cumulativeOrbitAngle planet')
   - distanceFromBodyWeAreOrbiting moon
     * cos (cumulativeOrbitAngle planet' + cumulativeOrbitAngle moon')).
Proof.
assert (Ho : orbits planet' = Some 0%nat).
{ subst planet'. rewrite animate_orbits, (new_orbits _ _ _ _ Hplanet).
  exact HplanetOrbits. }
subst moon'. rewrite animate_modelViewMatrix, worldPosition_respin.
rewrite (translationMatrixOf_moon _ _ _ _ Ho).
rewrite (unspin_first _ (new_isNotFirstAnimationFrame _ _ _ _ Hmoon)).
rewrite multiply_compose, multiply_create, moon_modelViewMatrix.
unfold moonOrbitSteps.
replace (distanceFromBodyWeAreOrbiting planet')
  with (distanceFromBodyWeAreOrbiting planet)
  by (subst planet'; rewrite animate_distance; reflexivity).
rewrite <- (new_last_cumulative _ _ _ _ Hmoon).
rewrite moon_chain, worldPosition_planar.
rewrite animate_cumulativeOrbitAngle.
subst planet'. rewrite animate_cumulativeOrbitAngle, animate_lastOrbitAngle.
rewrite <- (new_last_cumulative _ _ _ _ Hplanet),
  <- (new_last_cumulative _ _ _ _ Hmoon).
reflexivity.
Qed.

(** C3 (as amended).  A Sun at the origin that orbits nothing, a Planet
  constructed around it with no origin of its own in its configuration
  (so that [setOrigin] places it from the Sun's origin and its orbit
  distance) and a Moon constructed around the Planet; the Planet is
  animated once and then the Moon, with the same rate and elapsed time.
  The world position of the Moon is then the new world position of the
  Planet plus the Moon's orbital offset rotated about the world Y axis by
  the sum of the Planet's and the Moon's updated cumulative orbit
  angles. *)
Theorem C3_moon_world_position :
exists planet1 moon1 : AstronomicalObject,
  animate_at r t (animate_at r t [sun; planet; moon] 1) 2
    = [sun; planet1; moon1] /\
  worldPosition (modelViewMatrix moon1)
  = vadd (worldPosition (modelViewMatrix planet1))
      (rotateAboutY
         (cumulativeOrbitAngle planet1 + cumulativeOrbitAngle moon1)
         (orbitalOffset moon1)).
Proof.
exists planet', moon'. split; [exact two_calls_heap|].
rewrite moon_worldPosition, planet_worldPosition.
unfold orbitalOffset, rotateAboutY, vadd.
replace (distanceFromBodyWeAreOrbiting moon')
  with (distanceFromBodyWeAreOrbiting moon)
  by (subst moon'; rewrite animate_distance; reflexivity).
apply triple_ext; ring.
Qed.

End MoonAroundPlanet.

(** ** The scenario: where the Moon is after the first calls *)

Lemma new_radius (h : Heap) (config : Config.t) (rnd : R)
    (this : AstronomicalObject) :
  new_AstronomicalObject h config rnd = Some this ->
  radius this
  = if String.eqb (str_or (Config.name config) "name not set") "Sun"
    then num_or (Config.radius config) 10 / 100 / 10
    else num_or (Config.radius config) 10 / 100.
Proof.
  intros Hnew. destruct (new_static _ _ _ _ Hnew) as (P & a & _ & Ha & Hs).
  destruct Hs as (_ & _ & _ & _ & _ & -> & _).
  revert Ha. unfold setAttributes, prepareSpecialCases.
  destruct P as [p|]; cbn;
    (destruct (String.eqb _ "Sun");
     [|destruct (String.eqb _ ringsName)]);
    try discriminate; intros [= <-]; reflexivity.
Qed.

Module ScenarioPlaces.
Import Scenario ScenarioFacts ScenarioPeriods.

Lemma sun_origin : origin sun = (0, 0, 0).
Proof.
  destruct (new_modelViewMatrix _ _ _ _ new_sun) as (P & _ & _ & ->).
  reflexivity.
Qed.

Lemma planet_radius : radius planet = 3959 / 100.
Proof.
  rewrite (new_radius _ _ _ _ new_planet).
  cbn [Config.name Config.radius planetConfig]. unfold str_or. cbn.
  rewrite num_or_Some by lra. reflexivity.
Qed.

Lemma moon_distance :
  distanceFromBodyWeAreOrbiting moon
  = 1000 / 100 + 2400000 / 50000 + 3959 / 100.
Proof.
  destruct (new_periods _ _ _ _ new_moon) as (P & HP & _ & _ & _ & Hd).
  injection HP as <-. rewrite Hd.
  cbn [Config.name Config.radius Config.orbitDistance moonConfig].
  unfold str_or. cbn.
  rewrite !num_or_Some by lra. rewrite planet_radius. reflexivity.
Qed.

Lemma planet_cumulativeOrbitAngle :
  cumulativeOrbitAngle planet = (PI * 2) / (4 / 5).
Proof. exact (new_cumulativeOrbitAngle _ _ _ _ new_planet). Qed.

Lemma planet_orbitAmount : orbitAmount planet 1000 500 = PI / 10.
Proof.
  unfold orbitAmount. rewrite calculatePortionOf_eq, planet_orbitalPeriod.
  field.
Qed.

End ScenarioPlaces.

Lemma offset_gap (dP dM A B : R) :
  dist2
    (- dP * sin A - dM * sin (A + B), 0, - dP * cos A - dM * cos (A + B))
    (vadd (- dP * sin A, 0, - dP * cos A) (rotateAboutY B (0, 0, - dM)))
  = dM * dM * (2 - 2 * cos A).
Proof.
  unfold dist2, vadd, rotateAboutY. rewrite sin_plus, cos_plus.
  pose proof (sin2_cos2 A) as HA. pose proof (sin2_cos2 B) as HB.
  unfold Rsqr in HA, HB.
  transitivity
    (dM * dM
     * ((sin A * sin A + cos A * cos A) * (sin B * sin B + cos B * cos B)
        + (sin B * sin B + cos B * cos B)
        - 2 * cos A * (sin B * sin B + cos B * cos B))).
  - ring.
  - rewrite HA, HB. ring.
Qed.

Lemma dist2_refl (u : vec3) : dist2 u u = 0.
Proof. destruct u as [[x y] z]. unfold dist2. ring. Qed.

Lemma cos_quarter_and_tenth : cos ((PI * 2) / (4 / 5) + PI / 10) < 0.
Proof.
  replace ((PI * 2) / (4 / 5) + PI / 10)
    with (PI / 2 + PI / 10 + 2 * INR 1 * PI) by (cbn [INR]; field).
  rewrite cos_period, cos_plus, cos_PI2, sin_PI2.
  pose proof PI_RGT_0 as Hpi.
  assert (H : 0 < sin (PI / 10)) by (apply sin_gt_0; lra).
  lra.
Qed.

Lemma C3_moon_world_position_witness :
  exists planet1 moon1 : AstronomicalObject,
    animate_at 1000 500
      (animate_at 1000 500
         [Scenario.sun; Scenario.planet; Scenario.moon] 1) 2
      = [Scenario.sun; planet1; moon1] /\
    worldPosition (modelViewMatrix moon1)
    = vadd (worldPosition (modelViewMatrix planet1))
        (rotateAboutY
           (cumulativeOrbitAngle planet1 + cumulativeOrbitAngle moon1)
           (orbitalOffset moon1)).
Proof.
  exact (C3_moon_world_position Scenario.sunConfig Scenario.planetConfig
           Scenario.moonConfig (1 / 2) (4 / 5) (1 / 2)
           Scenario.sun Scenario.planet Scenario.moon 1000 500
           ScenarioFacts.new_sun ScenarioPlaces.sun_origin
           ScenarioFacts.new_planet eq_refl eq_refl
           ScenarioFacts.new_moon eq_refl).
Defined.

(** The claim of C3 as it was stated fails in the scenario, with the rate
    1000 and the elapsed time 500 of the specification: the Moon is away
    from the place the claim gives, by more than 10 units of length. *)
Lemma C3_counterexample :
  exists planet1 moon1 : AstronomicalObject,
    animate_at 1000 500
      (animate_at 1000 500
         [Scenario.sun; Scenario.planet; Scenario.moon] 1) 2
      = [Scenario.sun; planet1; moon1] /\
    100 < dist2 (worldPosition (modelViewMatrix moon1))
            (vadd (worldPosition (modelViewMatrix planet1))
               (rotateAboutY (cumulativeOrbitAngle moon1)
                  (orbitalOffset moon1))) /\
    worldPosition (modelViewMatrix moon1)
    <> vadd (worldPosition (modelViewMatrix planet1))
         (rotateAboutY (cumulativeOrbitAngle moon1) (orbitalOffset moon1)).
Proof.
  set (planet1 := animate (Some Scenario.sun) 1000 500 Scenario.planet).
  set (moon1 := animate (Some planet1) 1000 500 Scenario.moon).
  exists planet1, moon1.
  assert (Hgap :
    100 < dist2 (worldPosition (modelViewMatrix moon1))
            (vadd (worldPosition (modelViewMatrix planet1))
               (rotateAboutY (cumulativeOrbitAngle moon1)
                  (orbitalOffset moon1)))).
  { subst moon1 planet1.
    rewrite (moon_worldPosition Scenario.sunConfig Scenario.planetConfig
               Scenario.moonConfig (1 / 2) (4 / 5) (1 / 2) _ _ _ 1000 500
               ScenarioFacts.new_sun ScenarioPlaces.sun_origin
               ScenarioFacts.new_planet eq_refl eq_refl
               ScenarioFacts.new_moon eq_refl).
    rewrite (planet_worldPosition Scenario.sunConfig Scenario.planetConfig
               (1 / 2) (4 / 5) _ _ 1000 500
               ScenarioFacts.new_sun ScenarioPlaces.sun_origin
               ScenarioFacts.new_planet eq_refl eq_refl).
    unfold orbitalOffset. rewrite animate_distance, offset_gap.
    rewrite animate_cumulativeOrbitAngle,
      ScenarioPlaces.planet_cumulativeOrbitAngle,
      ScenarioPlaces.planet_orbitAmount, ScenarioPlaces.moon_distance.
    pose proof cos_quarter_and_tenth. nra. }
  split; [|split; [exact Hgap|]].
  - exact (two_calls_heap Scenario.planetConfig Scenario.moonConfig
             (4 / 5) (1 / 2) Scenario.sun Scenario.planet Scenario.moon
             1000 500 ScenarioFacts.new_planet eq_refl
             ScenarioFacts.new_moon eq_refl).
  - intros Heq. rewrite <- Heq, dist2_refl in Hgap. lra.
Qed.

(** * Further properties of the code *)

(** ** Rotations undo each other *)

Lemma unit_axis (x y z : R) :
  ~ Rabs (sqrt (x * x + y * y + z * z)) < GLMAT_EPSILON ->
  let len := 1 / sqrt (x * x + y * y + z * z) in
  (x * len) * (x * len) + (y * len) * (y * len) + (z * len) * (z * len) = 1.
Proof.
  intros Hlen len. set (q := x * x + y * y + z * z) in *.
  assert (Hq0 : 0 <= q) by (unfold q; nra).
  assert (Hs : sqrt q <> 0).
  { intros E. rewrite E, Rabs_R0 in Hlen. unfold GLMAT_EPSILON in Hlen. lra. }
  assert (Hsq : sqrt q * sqrt q = q) by (apply sqrt_sqrt; exact Hq0).
  subst len.
  replace (x * (1 / sqrt q) * (x * (1 / sqrt q))
           + y * (1 / sqrt q) * (y * (1 / sqrt q))
           + z * (1 / sqrt q) * (z * (1 / sqrt q)))
    with (q / (sqrt q * sqrt q)) by (unfold q; field; exact Hs).
  rewrite Hsq. field. rewrite <- Hsq. nra.
Qed.

(** A rotation followed by the opposite rotation about the same axis is
    no rotation, whatever the axis (a degenerate axis is ignored both
    times). *)
Lemma rotate_inverse (a : mat4) (rad : R) (ax : vec3) :
  rotate (rotate a rad ax) (- rad) ax = a.
Proof.
  destruct ax as [[x y] z]. unfold rotate.
  destruct (Rlt_dec _ _) as [Hlt|Hge]; [reflexivity|].
  pose proof (unit_axis x y z Hge) as Hu. cbv zeta in Hu.
  set (len := 1 / sqrt (x * x + y * y + z * z)) in *.
  set (X := x * len) in *. set (Y := y * len) in *. set (Z := z * len) in *.
  rewrite sin_neg, cos_neg.
  pose proof (sin2_cos2 rad) as Ht. unfold Rsqr in Ht.
  set (s := sin rad) in *. set (c := cos rad) in *.
  destruct a. cbn. f_equal; try reflexivity; nsatz.
Qed.

Lemma rotate_inverse_opp (a : mat4) (rad : R) (ax : vec3) :
  rotate (rotate a (- rad) ax) rad ax = a.
Proof.
  rewrite <- (Ropp_involutive rad) at 2. apply rotate_inverse.
Qed.

Lemma rotate_rotate_Y (a : mat4) (r1 r2 : R) :
  rotate (rotate a r1 Yaxis) r2 Yaxis = rotate a (r1 + r2) Yaxis.
Proof.
  unfold rotate, Yaxis.
  destruct (Rlt_dec _ _) as [Hlt|_]; [destruct (Yaxis_length_ok Hlt)|].
  replace (0 * 0 + 1 * 1 + 0 * 0) with 1 by ring. rewrite sqrt_1.
  rewrite cos_plus, sin_plus. destruct a. cbn. f_equal; field.
Qed.

Lemma rotate_0_Y (a : mat4) : rotate a 0 Yaxis = a.
Proof.
  unfold rotate, Yaxis.
  destruct (Rlt_dec _ _) as [Hlt|_]; [destruct (Yaxis_length_ok Hlt)|].
  replace (0 * 0 + 1 * 1 + 0 * 0) with 1 by ring. rewrite sqrt_1.
  rewrite cos_0, sin_0. destruct a. cbn. f_equal; field.
Qed.

Lemma translate_translate_Z (a : mat4) (d e : R) :
  translate (translate a (0, 0, d)) (0, 0, e) = translate a (0, 0, d + e).
Proof. destruct a. unfold translate. cbn. f_equal; ring. Qed.

Lemma translate_0_Z (a : mat4) : translate a (0, 0, 0) = a.
Proof. destruct a. unfold translate. cbn. f_equal; ring. Qed.

(** The un-spin of a frame cancels the re-spin of the frame before. *)
Lemma unspin_respin (this : AstronomicalObject) (n : mat4) :
  isNotFirstAnimationFrame this = true ->
  multiply
    (rotate (rotate n 1 (axisArray this))
       (if spinsClockwise this then - lastSpinAngle this
        else lastSpinAngle this) Yaxis)
    (unspin this)
  = n.
Proof.
  intros Hf. rewrite (unspin_later this Hf).
  rewrite !multiply_rotate, multiply_create, rotate_rotate_Y.
  replace ((if spinsClockwise this then - lastSpinAngle this
            else lastSpinAngle this)
           + (if spinsClockwise this then lastSpinAngle this
              else - lastSpinAngle this)) with 0
    by (destruct (spinsClockwise this); ring).
  rewrite rotate_0_Y. apply rotate_inverse.
Qed.

(** ** A body around a root stays on its circle *)

Lemma new_onOrbit (h : Heap) (config : Config.t) (rnd : R)
    (this p : AstronomicalObject) :
  new_AstronomicalObject h config rnd = Some this ->
  deref h (Config.orbits config) = Some (Some p) ->
  orbits p = None ->
  onOrbit this.
Proof.
  intros Hnew Hp Ho. unfold onOrbit.
  rewrite (new_isNotFirstAnimationFrame _ _ _ _ Hnew).
  destruct (new_modelViewMatrix _ _ _ _ Hnew) as (P & HP & -> & _).
  rewrite Hp in HP. injection HP as <-.
  unfold initialFrame. rewrite Ho.
  rewrite (new_last_cumulative _ _ _ _ Hnew).
  rewrite create_planar, rotate_planar, translate_planar.
  unfold orbitPlace.
  replace (0 + cumulativeOrbitAngle this) with (cumulativeOrbitAngle this)
    by ring.
  apply planar_ext; ring.
Qed.

Lemma orbit_step (c d dl : R) :
  compose [TranslateZ d; RotateY dl; TranslateZ (- d)] (orbitPlace c d)
  = orbitPlace (c + dl) d.
Proof.
  unfold compose, orbitPlace. cbn [foldl applyStep].
  rewrite translate_planar, rotate_planar, translate_planar.
  apply planar_ext; ring.
Qed.

Lemma onOrbit_unspun (this : AstronomicalObject) :
  onOrbit this ->
  multiply (modelViewMatrix this) (unspin this)
  = orbitPlace (cumulativeOrbitAngle this)
      (distanceFromBodyWeAreOrbiting this).
Proof.
  unfold onOrbit. intros ->.
  destruct (isNotFirstAnimationFrame this) eqn:Hf.
  - unfold respinOf. apply unspin_respin. exact Hf.
  - rewrite (unspin_first this Hf). apply multiply_create.
Qed.

Lemma respin_respinOf (this : AstronomicalObject) (P : option AstronomicalObject)
    (r t : R) (n : mat4) :
  respin this (spinAmount this r t) n = respinOf (animate P r t this) n.
Proof.
  unfold respin, respinOf.
  rewrite animate_axisArray, animate_lastSpinAngle.
  destruct (animate_static P r t this) as (_ & _ & _ & _ & _ & _ & _ & -> & _).
  destruct (spinsClockwise this); f_equal; ring.
Qed.

Lemma animate_isNotFirstAnimationFrame (p this : AstronomicalObject)
    (r t : R) :
  isNotFirstAnimationFrame (animate (Some p) r t this) = true.
Proof. reflexivity. Qed.

Lemma animate_onOrbit (p this : AstronomicalObject) (r t : R) :
  orbits p = None -> onOrbit this -> onOrbit (animate (Some p) r t this).
Proof.
  intros Ho Hon. unfold onOrbit.
  rewrite animate_isNotFirstAnimationFrame, animate_modelViewMatrix.
  rewrite (translationMatrixOf_planet _ _ _ Ho), multiply_compose.
  rewrite (onOrbit_unspun this Hon), orbit_step.
  rewrite animate_cumulativeOrbitAngle, animate_distance.
  apply respin_respinOf.
Qed.

Lemma onOrbit_worldPosition (this : AstronomicalObject) :
  onOrbit this ->
  worldPosition (modelViewMatrix this)
  = rotateAboutY (cumulativeOrbitAngle this) (orbitalOffset this).
Proof.
  unfold onOrbit. intros ->.
  assert (H : worldPosition
                (orbitPlace (cumulativeOrbitAngle this)
                   (distanceFromBodyWeAreOrbiting this))
              = rotateAboutY (cumulativeOrbitAngle this) (orbitalOffset this)).
  { unfold orbitPlace, orbitalOffset, rotateAboutY.
    rewrite worldPosition_planar. apply triple_ext; ring. }
  destruct (isNotFirstAnimationFrame this); [|exact H].
  unfold respinOf. rewrite !worldPosition_rotate. exact H.
Qed.

Lemma animateSeq_onOrbit
    (calls : list (option AstronomicalObject * R * R))
    (this : AstronomicalObject) :
  Forall (fun call => exists p, call.1.1 = Some p /\ orbits p = None) calls ->
  onOrbit this -> onOrbit (animateSeq calls this).
Proof.
  intros Hcalls. revert this. unfold animateSeq.
  induction Hcalls as [|[[P r] t] calls (p & HP & Ho) _ IH]; intros this Hon.
  - exact Hon.
  - cbn in HP. subst P. cbn [foldl]. apply IH.
    apply animate_onOrbit; assumption.
Qed.

Lemma animateSeq_distance
    (calls : list (option AstronomicalObject * R * R))
    (this : AstronomicalObject) :
  distanceFromBodyWeAreOrbiting (animateSeq calls this)
  = distanceFromBodyWeAreOrbiting this.
Proof.
  revert this. unfold animateSeq.
  induction calls as [|[[P r] t] calls IH]; intros this; cbn [foldl].
  - reflexivity.
  - rewrite IH. apply animate_distance.
Qed.

(** X1.  A body constructed around a root and animated any number of
    times, with any rates and elapsed times, is at every moment on the
    circle of radius [distanceFromBodyWeAreOrbiting] around the world
    origin, at the angle [cumulativeOrbitAngle]: un-spin, orbit step and
    re-spin never make it drift. *)
Theorem X1_planet_on_circle (h : Heap) (config : Config.t) (rnd : R)
    (this p : AstronomicalObject)
    (calls : list (option AstronomicalObject * R * R)) :
  new_AstronomicalObject h config rnd = Some this ->
  deref h (Config.orbits config) = Some (Some p) ->
  orbits p = None ->
  Forall (fun call => exists q, call.1.1 = Some q /\ orbits q = None) calls ->
  let this' := animateSeq calls this in
  worldPosition (modelViewMatrix this')
    = rotateAboutY (cumulativeOrbitAngle this') (orbitalOffset this) /\
  dist2 (worldPosition (modelViewMatrix this')) (0, 0, 0)
    = distanceFromBodyWeAreOrbiting this * distanceFromBodyWeAreOrbiting this.
Proof.
  intros Hnew Hp Ho Hcalls this'.
  pose proof (animateSeq_onOrbit calls this Hcalls
                (new_onOrbit _ _ _ _ _ Hnew Hp Ho)) as Hon.
  pose proof (onOrbit_worldPosition _ Hon) as Hw. fold this' in Hw.
  unfold orbitalOffset in Hw. subst this'.
  rewrite animateSeq_distance in Hw. rewrite Hw.
  split; [reflexivity|].
  unfold rotateAboutY, dist2.
  pose proof (sin2_cos2 (cumulativeOrbitAngle (animateSeq calls this))) as Hs.
  unfold Rsqr in Hs.
  set (s := sin _) in *. set (c := cos _) in *.
  set (d := distanceFromBodyWeAreOrbiting this).
  transitivity (d * d * (s * s + c * c)); [ring|].
  rewrite Hs. ring.
Qed.

Lemma X1_planet_on_circle_witness :
  let calls :=
    [(Some Scenario.sun, 1000, 16); (Some Scenario.sun, 250, 17);
     (Some Scenario.sun, 1000, 0)] in
  let this' := animateSeq calls Scenario.planet in
  worldPosition (modelViewMatrix this')
    = rotateAboutY (cumulativeOrbitAngle this')
        (orbitalOffset Scenario.planet) /\
  dist2 (worldPosition (modelViewMatrix this')) (0, 0, 0)
    = distanceFromBodyWeAreOrbiting Scenario.planet
      * distanceFromBodyWeAreOrbiting Scenario.planet.
Proof.
  apply (X1_planet_on_circle [Scenario.sun] Scenario.planetConfig (4 / 5)
           Scenario.planet Scenario.sun).
  - exact ScenarioFacts.new_planet.
  - reflexivity.
  - exact ScenarioPeriods.sun_orbits.
  - repeat constructor; exists Scenario.sun;
      (split; [reflexivity|exact ScenarioPeriods.sun_orbits]).
Defined.

(** ** A root only spins *)





(** ** One frame of the driver *)

Lemma animateUpTo_S (r t : R) (h : Heap) (k : nat) :
  animateUpTo r t h (S k) = animate_at r t (animateUpTo r t h k) k.
Proof. unfold animateUpTo. rewrite seq_S, foldl_app. reflexivity. Qed.

Lemma animateUpTo_spec (r t : R) (h : Heap) (k : nat) :
  wellFormed h ->
  length (animateUpTo r t h k) = length h /\
  forall (i : Ref) (this : AstronomicalObject),
    h !! i = Some this ->
    ((i < k)%nat ->
     exists P, animateUpTo r t h k !! i = Some (animate P r t this) /\
               seesOrbited (animateUpTo r t h k) this P) /\
    ((k <= i)%nat -> animateUpTo r t h k !! i = Some this).
Proof.
  intros Hwf. induction k as [|k [IHlen IH]].
  - split; [reflexivity|]. intros i this Hi. split; [lia|]. intros _. exact Hi.
  - rewrite animateUpTo_S. set (g := animateUpTo r t h k) in *.
    split; [rewrite animate_at_length; exact IHlen|].
    intros i this Hi.
    destruct (h !! k) as [thisk|] eqn:Hk.
    + destruct (IH k thisk Hk) as [_ Hgk]. specialize (Hgk (le_n k)).
      assert (HP : exists P, deref g (orbits thisk) = Some P
                             /\ seesOrbited g thisk P).
      { unfold deref, seesOrbited.
        destruct (orbits thisk) as [j|] eqn:Ej; [|eauto].
        pose proof (Hwf k thisk j Hk Ej) as Hjk.
        destruct (lookup_lt_is_Some_2 h j) as [pj Hpj].
        { apply lookup_lt_Some in Hk. lia. }
        destruct (IH j pj Hpj) as [Hlt _].
        destruct (Hlt Hjk) as (Pj & Hgj & _).
        rewrite Hgj. eauto. }
      destruct HP as (P & HP & Hsees).
      assert (Hg' : animate_at r t g k = <[k := animate P r t thisk]> g).
      { unfold animate_at. rewrite Hgk, HP. reflexivity. }
      rewrite Hg'.
      assert (Hstable : forall (b : AstronomicalObject) Q,
                 (forall j, orbits b = Some j -> j <> k) ->
                 seesOrbited g b Q ->
                 seesOrbited (<[k := animate P r t thisk]> g) b Q).
      { intros b Q Hj. unfold seesOrbited.
        destruct (orbits b) as [j|]; [|auto].
        intros (p & Hp & ->). exists p.
        rewrite list_lookup_insert_ne by (intros E; exact (Hj j eq_refl (eq_sym E))).
        auto. }
      destruct (IH i this Hi) as [Hlt Hge]. split.
      * intros HiS. destruct (decide (i = k)) as [->|Hne].
        -- assert (this = thisk) by congruence. subst thisk.
           exists P. split.
           ++ apply list_lookup_insert_eq. rewrite IHlen.
              apply lookup_lt_Some with this. exact Hi.
           ++ apply Hstable; [|exact Hsees].
              intros j Ej E. subst j. pose proof (Hwf k this k Hi Ej). lia.
        -- destruct (Hlt ltac:(lia)) as (Q & HQ & HseesQ).
           exists Q. split.
           ++ rewrite list_lookup_insert_ne by (intros E; congruence). exact HQ.
           ++ apply Hstable; [|exact HseesQ].
              intros j Ej E. subst j. pose proof (Hwf i this k Hi Ej). lia.
      * intros HiS. rewrite list_lookup_insert_ne by lia. apply Hge. lia.
    + assert (Hgk : g !! k = None).
      { apply lookup_ge_None. rewrite IHlen. apply lookup_ge_None. exact Hk. }
      assert (Hg' : animate_at r t g k = g).
      { unfold animate_at. rewrite Hgk. reflexivity. }
      rewrite Hg'. destruct (IH i this Hi) as [Hlt Hge].
      assert (i < k)%nat.
      { apply lookup_lt_Some in Hi. apply lookup_ge_None in Hk. lia. }
      split; [intros _; apply Hlt; assumption|intros; lia].
Qed.

Lemma animateAll_sees (r t : R) (h : Heap) (i : Ref)
    (this : AstronomicalObject) :
  wellFormed h -> h !! i = Some this ->
  exists P,
    App.animateAll r t h !! i = Some (animate P r t this) /\
    seesOrbited (App.animateAll r t h) this P.
Proof.
  intros Hwf Hi. unfold App.animateAll. fold (animateUpTo r t h (length h)).
  destruct (animateUpTo_spec r t h (length h) Hwf) as [_ H].
  destruct (H i this Hi) as [Hlt _].
  exact (Hlt (lookup_lt_Some _ _ _ Hi)).
Qed.

(** X3.  One frame of the driver animates every body exactly once, with
    the frame's rate and elapsed time, and a body that orbits another
    finds that body already animated for the same frame, because every
    [orbits] reference points to an older entry of the registry. *)
Theorem X3_frame_animates_each_body_once (r t : R) (h : Heap) (i : Ref)
    (this : AstronomicalObject) :
  wellFormed h ->
  h !! i = Some this ->
  length (App.animateAll r t h) = length h /\
  exists P,
    App.animateAll r t h !! i = Some (animate P r t this) /\
    match orbits this with
    | None => P = None
    | Some j =>
        exists (p : AstronomicalObject) (Pj : option AstronomicalObject),
          h !! j = Some p /\ P = Some (animate Pj r t p) /\
          App.animateAll r t h !! j = Some (animate Pj r t p)
    end.
Proof.
  intros Hwf Hi. unfold App.animateAll. fold (animateUpTo r t h (length h)).
  destruct (animateUpTo_spec r t h (length h) Hwf) as [Hlen H].
  split; [exact Hlen|].
  destruct (H i this Hi) as [Hlt _].
  destruct (Hlt (lookup_lt_Some _ _ _ Hi)) as (P & HP & Hsees).
  exists P. split; [exact HP|].
  unfold seesOrbited in Hsees. destruct (orbits this) as [j|] eqn:Ej; [|exact Hsees].
  destruct Hsees as (p' & Hp' & ->).
  pose proof (Hwf i this j Hi Ej) as Hji.
  destruct (lookup_lt_is_Some_2 h j) as [p Hp].
  { apply lookup_lt_Some in Hi. lia. }
  destruct (H j p Hp) as [Hltj _].
  destruct (Hltj ltac:(apply lookup_lt_Some in Hi; lia)) as (Pj & HPj & _).
  exists p, Pj. rewrite HPj in Hp'. injection Hp' as <-. auto.
Qed.

Lemma X3_frame_animates_each_body_once_witness :
  length (App.animateAll 1000 16 Scenario.system) = length Scenario.system /\
  exists P,
    App.animateAll 1000 16 Scenario.system !! 2%nat
      = Some (animate P 1000 16 Scenario.moon) /\
    match orbits Scenario.moon with
    | None => P = None
    | Some j =>
        exists (p : AstronomicalObject) (Pj : option AstronomicalObject),
          Scenario.system !! j = Some p /\ P = Some (animate Pj 1000 16 p) /\
          App.animateAll 1000 16 Scenario.system !! j
            = Some (animate Pj 1000 16 p)
    end.
Proof.
  apply (X3_frame_animates_each_body_once 1000 16 Scenario.system 2
           Scenario.moon).
  - apply Reachable_wellFormed. exact ScenarioFacts.Reachable_system.
  - reflexivity.
Defined.

Lemma animateAll_lookup (r t : R) (h : Heap) (i : Ref)
    (this : AstronomicalObject) :
  wellFormed h -> h !! i = Some this ->
  exists P, App.animateAll r t h !! i = Some (animate P r t this).
Proof.
  intros Hwf Hi.
  destruct (animateAll_sees r t h i this Hwf Hi) as (P & HP & _).
  eauto.
Qed.

Lemma animateAll_wellFormed (r t : R) (h : Heap) :
  wellFormed h -> wellFormed (App.animateAll r t h).
Proof.
  intros Hwf i b j Hi Hj.
  assert (Hlt : (i < length h)%nat).
  { apply lookup_lt_Some in Hi. unfold App.animateAll in Hi.
    fold (animateUpTo r t h (length h)) in Hi.
    destruct (animateUpTo_spec r t h (length h) Hwf) as [Hlen _]. lia. }
  destruct (lookup_lt_is_Some_2 h i Hlt) as [this Hthis].
  destruct (animateAll_lookup r t h i this Hwf Hthis) as (P & HP).
  rewrite HP in Hi. injection Hi as <-. rewrite animate_orbits in Hj.
  exact (Hwf i this j Hthis Hj).
Qed.

Lemma last_cons (t d : R) (ts : list R) :
  List.last (t :: ts) d = List.last ts t.
Proof.
  revert t d. induction ts as [|u ts IH]; intros t d; [reflexivity|].
  change (List.last (u :: ts) d = List.last (u :: ts) t).
  rewrite (IH u d), (IH u t). reflexivity.
Qed.

Lemma unpausedRuns_angles (r : R) (i : Ref) (ts : list R) :
  forall (app : App.t) (this : AstronomicalObject) (t0 : R),
    wellFormed (App.SolarSystem app) ->
    App.timeLastFrame app = Some t0 -> t0 <> 0 ->
    Forall (fun t => t <> 0) ts ->
    App.SolarSystem app !! i = Some this ->
    exists this',
      App.SolarSystem (unpausedRuns r ts app) !! i = Some this' /\
      cumulativeOrbitAngle this'
      = cumulativeOrbitAngle this
        + 2 * PI * (List.last ts t0 - t0) / (r * orbitalPeriod this) /\
      lastSpinAngle this'
      = lastSpinAngle this
        + 2 * PI * (List.last ts t0 - t0) / (r * spinPeriod this).
Proof.
  induction ts as [|t ts IH]; intros app this t0 Hwf Ht0 Hnz Hts Hi.
  - exists this. split; [exact Hi|]. cbn. unfold Rdiv. split; ring.
  - inversion Hts as [|? ? Ht Hts']; subst.
    unfold unpausedRuns, App.runs. cbn [map foldl].
    set (app1 := App.run false r t app).
    assert (Happ1 : app1 = App.mk (Some t)
                             (App.animateAll r (t - t0) (App.SolarSystem app))).
    { subst app1. unfold App.run, App.animate, App.millisecondsSinceLastFrame.
      rewrite Ht0. unfold App.falsy.
      destruct (Req_dec_T t0 0) as [E|_]; [contradiction|]. reflexivity. }
    destruct (animateAll_lookup r (t - t0) _ i this Hwf Hi) as (P & HP).
    destruct (IH app1 (animate P r (t - t0) this) t) as (this' & H1 & H2 & H3).
    + rewrite Happ1. apply animateAll_wellFormed. exact Hwf.
    + rewrite Happ1. reflexivity.
    + exact Ht.
    + exact Hts'.
    + rewrite Happ1. exact HP.
    + exists this'. split; [exact H1|].
      rewrite H2, H3, animate_cumulativeOrbitAngle, animate_lastSpinAngle,
        animate_orbitalPeriod, animate_spinPeriod, last_cons.
      unfold orbitAmount, spinAmount. rewrite !calculatePortionOf_eq.
      unfold Rdiv. split; ring.
Qed.

(** X4.  From a first frame on (or the first frame after a pause), the
    driver called at clock readings [t1], then [ts], at a constant rate
    and never paused, has advanced every body's [cumulativeOrbitAngle]
    by the angle of the total time, [2 PI (tn - t1) / (r * orbitalPeriod)],
    and its [lastSpinAngle] likewise: the split of the time into frames
    does not matter, and the first frame itself moves nothing.  A clock
    reading of 0 would be taken for "no previous frame" and is excluded. *)
Theorem X4_elapsed_time_telescopes (r t1 : R) (ts : list R) (app : App.t)
    (i : Ref) (this : AstronomicalObject) :
  wellFormed (App.SolarSystem app) ->
  App.timeLastFrame app = None ->
  t1 <> 0 -> Forall (fun t => t <> 0) ts ->
  App.SolarSystem app !! i = Some this ->
  exists this',
    App.SolarSystem (unpausedRuns r (t1 :: ts) app) !! i = Some this' /\
    cumulativeOrbitAngle this'
    = cumulativeOrbitAngle this
      + 2 * PI * (List.last ts t1 - t1) / (r * orbitalPeriod this) /\
    lastSpinAngle this'
    = lastSpinAngle this
      + 2 * PI * (List.last ts t1 - t1) / (r * spinPeriod this).
Proof.
  intros Hwf Ht0 Ht1 Hts Hi.
  unfold unpausedRuns, App.runs. cbn [map foldl].
  set (app1 := App.run false r t1 app).
  assert (Happ1 : app1 = App.mk (Some t1)
                           (App.animateAll r 0 (App.SolarSystem app))).
  { subst app1. unfold App.run, App.animate, App.millisecondsSinceLastFrame.
    rewrite Ht0. cbn. f_equal. f_equal. unfold Rminus. apply Rplus_opp_r. }
  destruct (animateAll_lookup r 0 _ i this Hwf Hi) as (P & HP).
  destruct (unpausedRuns_angles r i ts app1 (animate P r 0 this) t1)
    as (this' & H1 & H2 & H3).
  - rewrite Happ1. apply animateAll_wellFormed. exact Hwf.
  - rewrite Happ1. reflexivity.
  - exact Ht1.
  - exact Hts.
  - rewrite Happ1. exact HP.
  - exists this'. split; [exact H1|].
    rewrite H2, H3, animate_cumulativeOrbitAngle, animate_lastSpinAngle,
      animate_orbitalPeriod, animate_spinPeriod.
    unfold orbitAmount, spinAmount. rewrite !calculatePortionOf_0.
    split; ring.
Qed.

Lemma X4_elapsed_time_telescopes_witness :
  exists this',
    App.SolarSystem
      (unpausedRuns 1000 [5000; 5016; 5033; 5050]
         (App.mk None Scenario.system)) !! 1%nat = Some this' /\
    cumulativeOrbitAngle this'
    = cumulativeOrbitAngle Scenario.planet
      + 2 * PI * (5050 - 5000) / (1000 * orbitalPeriod Scenario.planet) /\
    lastSpinAngle this'
    = lastSpinAngle Scenario.planet
      + 2 * PI * (5050 - 5000) / (1000 * spinPeriod Scenario.planet).
Proof.
  apply (X4_elapsed_time_telescopes 1000 5000 [5016; 5033; 5050]
           (App.mk None Scenario.system) 1 Scenario.planet).
  - apply Reachable_wellFormed. exact ScenarioFacts.Reachable_system.
  - reflexivity.
  - lra.
  - repeat constructor; lra.
  - reflexivity.
Defined.

(** ** A frame on which no time has passed *)

Lemma planet_steps_0 (x : mat4) (d : R) :
  compose [TranslateZ d; RotateY 0; TranslateZ (- d)] x = x.
Proof.
  unfold compose. cbn [foldl applyStep].
  rewrite rotate_0_Y, translate_translate_Z.
  replace (d + - d) with 0 by ring. apply translate_0_Z.
Qed.

Lemma moon_steps_0 (x : mat4) (d c dP : R) :
  compose
    [TranslateZ d; RotateY (- c); TranslateZ dP; RotateY 0;
     TranslateZ (- dP); RotateY (c + 0); TranslateZ (- d)] x
  = x.
Proof.
  unfold compose. cbn [foldl applyStep].
  rewrite rotate_0_Y, translate_translate_Z.
  replace (dP + - dP) with 0 by ring. rewrite translate_0_Z.
  rewrite rotate_rotate_Y. replace (- c + (c + 0)) with 0 by ring.
  rewrite rotate_0_Y, translate_translate_Z.
  replace (d + - d) with 0 by ring. apply translate_0_Z.
Qed.

Lemma respin_unspin (this : AstronomicalObject) (m : mat4) :
  isNotFirstAnimationFrame this = true ->
  respin this 0 (multiply m (unspin this)) = m.
Proof.
  intros Hf. rewrite (unspin_later this Hf).
  rewrite !multiply_rotate, multiply_create. unfold respin.
  replace 1 with (- (-1)) at 1 by ring. rewrite rotate_inverse.
  rewrite rotate_rotate_Y.
  replace ((if spinsClockwise this then lastSpinAngle this
            else - lastSpinAngle this)
           + (if spinsClockwise this then - lastSpinAngle this - 0
              else lastSpinAngle this + 0)) with 0
    by (destruct (spinsClockwise this); ring).
  apply rotate_0_Y.
Qed.

Lemma animate_0_modelViewMatrix (P : option AstronomicalObject) (r : R)
    (this : AstronomicalObject) :
  match P with
  | None => True
  | Some p =>
      isNotFirstAnimationFrame this = true /\
      (is_Some (orbits p) -> lastOrbitAngle p = 0)
  end ->
  modelViewMatrix (animate P r 0 this) = modelViewMatrix this.
Proof.
  destruct P as [p|].
  - intros [Hf Hp]. rewrite animate_modelViewMatrix.
    unfold orbitAmount, spinAmount. rewrite !calculatePortionOf_0.
    destruct (orbits p) as [g|] eqn:Ho.
    + rewrite (translationMatrixOf_moon _ _ _ _ Ho). unfold moonOrbitSteps.
      rewrite (Hp ltac:(eauto)), moon_steps_0.
      apply respin_unspin. exact Hf.
    + rewrite (translationMatrixOf_planet _ _ _ Ho), planet_steps_0.
      apply respin_unspin. exact Hf.
  - intros _. unfold animate, spinAmount. rewrite calculatePortionOf_0.
    destruct (spins this); cbn; [apply rotate_0_Y|reflexivity].
Qed.

(** X5.  A frame on which no time has passed (the first frame, and the
    first frame after a pause) changes no transform, no
    [cumulativeOrbitAngle] and no [lastSpinAngle], provided every body
    that orbits another has been animated before: un-spin and re-spin
    cancel and the orbit steps come to nothing. *)
Theorem X5_zero_time_frame_changes_nothing (r : R) (h : Heap) (i : Ref)
    (this : AstronomicalObject) :
  wellFormed h ->
  (forall (k : Ref) (b : AstronomicalObject),
     h !! k = Some b -> is_Some (orbits b) ->
     isNotFirstAnimationFrame b = true) ->
  h !! i = Some this ->
  exists this',
    App.animateAll r 0 h !! i = Some this' /\
    modelViewMatrix this' = modelViewMatrix this /\
    cumulativeOrbitAngle this' = cumulativeOrbitAngle this /\
    lastSpinAngle this' = lastSpinAngle this.
Proof.
  intros Hwf Hold Hi.
  destruct (animateAll_sees r 0 h i this Hwf Hi) as (P & HP & Hsees).
  exists (animate P r 0 this). split; [exact HP|].
  destruct (animate_0_angles P r this) as [Hc Hs].
  split; [|split; assumption].
  apply animate_0_modelViewMatrix.
  unfold seesOrbited in Hsees. destruct (orbits this) as [j|] eqn:Ej.
  - destruct Hsees as (p' & Hp' & ->). split.
    + apply (Hold i this Hi). rewrite Ej. eauto.
    + intros _.
      assert (Hj : (j < length h)%nat).
      { pose proof (Hwf i this j Hi Ej). apply lookup_lt_Some in Hi. lia. }
      destruct (lookup_lt_is_Some_2 h j Hj) as [p Hp].
      destruct (animateAll_sees r 0 h j p Hwf Hp) as (Pj & HPj & _).
      rewrite HPj in Hp'. injection Hp' as <-.
      rewrite animate_lastOrbitAngle.
      unfold orbitAmount. apply calculatePortionOf_0.
  - subst P. exact I.
Qed.

Lemma animateAll_notFirst (r t : R) (h : Heap) (k : Ref)
    (b : AstronomicalObject) :
  wellFormed h ->
  App.animateAll r t h !! k = Some b -> is_Some (orbits b) ->
  isNotFirstAnimationFrame b = true.
Proof.
  intros Hwf Hk Ho.
  assert (Hlt : (k < length h)%nat).
  { apply lookup_lt_Some in Hk. unfold App.animateAll in Hk.
    fold (animateUpTo r t h (length h)) in Hk.
    destruct (animateUpTo_spec r t h (length h) Hwf) as [Hlen _]. lia. }
  destruct (lookup_lt_is_Some_2 h k Hlt) as [this Hthis].
  destruct (animateAll_sees r t h k this Hwf Hthis) as (P & HP & Hsees).
  rewrite HP in Hk. injection Hk as <-. rewrite animate_orbits in Ho.
  destruct Ho as [j Ej]. unfold seesOrbited in Hsees. rewrite Ej in Hsees.
  destruct Hsees as (p & _ & ->). reflexivity.
Qed.

Lemma X5_zero_time_frame_changes_nothing_witness :
  exists this this' : AstronomicalObject,
    App.animateAll 1000 16 Scenario.system !! 2%nat = Some this /\
    App.animateAll 1000 0 (App.animateAll 1000 16 Scenario.system) !! 2%nat
      = Some this' /\
    modelViewMatrix this' = modelViewMatrix this /\
    cumulativeOrbitAngle this' = cumulativeOrbitAngle this /\
    lastSpinAngle this' = lastSpinAngle this.
Proof.
  pose proof (Reachable_wellFormed _ ScenarioFacts.Reachable_system) as Hwf.
  destruct (animateAll_lookup 1000 16 Scenario.system 2 Scenario.moon Hwf
              eq_refl) as (P & HP).
  exists (animate P 1000 16 Scenario.moon).
  destruct (X5_zero_time_frame_changes_nothing 1000
              (App.animateAll 1000 16 Scenario.system) 2
              (animate P 1000 16 Scenario.moon))
    as (this' & H1 & H2).
  - apply animateAll_wellFormed. exact Hwf.
  - intros k b. apply animateAll_notFirst. exact Hwf.
  - exact HP.
  - exists this'. split; [exact HP|]. split; [exact H1|exact H2].
Defined.

(** ** A moon follows its planet on every frame *)

Lemma moon_place_step (cP dP cM dM lP dlM : R) :
  compose
    [TranslateZ dM; RotateY (- cM); TranslateZ dP; RotateY lP;
     TranslateZ (- dP); RotateY (cM + dlM); TranslateZ (- dM)]
    (moonPlace cP dP cM dM)
  = moonPlace (cP + lP) dP (cM + dlM) dM.
Proof.
  unfold compose, moonPlace. cbn [foldl applyStep].
  repeat (rewrite rotate_planar || rewrite translate_planar).
  replace (cP + cM + - cM + lP + (cM + dlM)) with (cP + lP + (cM + dlM))
    by ring.
  replace (cP + cM + - cM + lP) with (cP + lP) by ring.
  replace (cP + cM + - cM) with cP by ring.
  apply planar_ext; ring.
Qed.

Lemma followsPlanet_unspun (m p : AstronomicalObject) :
  followsPlanet m p ->
  multiply (modelViewMatrix m) (unspin m)
  = moonPlace (cumulativeOrbitAngle p) (distanceFromBodyWeAreOrbiting p)
      (cumulativeOrbitAngle m) (distanceFromBodyWeAreOrbiting m).
Proof.
  unfold followsPlanet. intros ->.
  destruct (isNotFirstAnimationFrame m) eqn:Hf.
  - unfold respinOf. apply unspin_respin. exact Hf.
  - rewrite (unspin_first m Hf). apply multiply_create.
Qed.

(** The planet is animated, then the moon: the moon still follows. *)
Lemma animate_followsPlanet (m p : AstronomicalObject)
    (Pp : option AstronomicalObject) (r t r' t' : R) :
  is_Some (orbits p) ->
  followsPlanet m p ->
  followsPlanet (animate (Some (animate Pp r' t' p)) r t m)
    (animate Pp r' t' p).
Proof.
  intros [g Hg] Hf. unfold followsPlanet.
  rewrite animate_isNotFirstAnimationFrame, animate_modelViewMatrix.
  assert (Hg' : orbits (animate Pp r' t' p) = Some g)
    by (rewrite animate_orbits; exact Hg).
  rewrite (translationMatrixOf_moon _ _ _ _ Hg'), multiply_compose.
  rewrite (followsPlanet_unspun m p Hf). unfold moonOrbitSteps.
  rewrite !animate_distance, animate_lastOrbitAngle, moon_place_step.
  rewrite !animate_cumulativeOrbitAngle.
  apply respin_respinOf.
Qed.

Lemma new_followsPlanet (h : Heap) (config : Config.t) (rnd : R)
    (m p : AstronomicalObject) :
  new_AstronomicalObject h config rnd = Some m ->
  deref h (Config.orbits config) = Some (Some p) ->
  is_Some (orbits p) ->
  origin p = (0, 0, 0 - distanceFromBodyWeAreOrbiting p) ->
  lastOrbitAngle p = cumulativeOrbitAngle p ->
  followsPlanet m p.
Proof.
  intros Hnew Hp [g Hg] Ho Hl. unfold followsPlanet.
  rewrite (new_isNotFirstAnimationFrame _ _ _ _ Hnew).
  destruct (new_modelViewMatrix _ _ _ _ Hnew) as (P & HP & -> & _).
  rewrite Hp in HP. injection HP as <-.
  unfold initialFrame. rewrite Hg, Ho, Hl, (new_last_cumulative _ _ _ _ Hnew).
  rewrite create_planar.
  repeat (rewrite rotate_planar || rewrite translate_planar).
  unfold moonPlace.
  replace (0 + cumulativeOrbitAngle p + cumulativeOrbitAngle m)
    with (cumulativeOrbitAngle p + cumulativeOrbitAngle m) by ring.
  replace (0 + cumulativeOrbitAngle p) with (cumulativeOrbitAngle p) by ring.
  apply planar_ext; ring.
Qed.

Lemma followsPlanet_worldPosition (m p : AstronomicalObject) :
  followsPlanet m p -> onOrbit p ->
  worldPosition (modelViewMatrix m)
  = vadd (worldPosition (modelViewMatrix p))
      (rotateAboutY (cumulativeOrbitAngle p + cumulativeOrbitAngle m)
         (orbitalOffset m)).
Proof.
  intros Hm Hp. rewrite (onOrbit_worldPosition p Hp).
  unfold followsPlanet in Hm. rewrite Hm.
  assert (H : worldPosition
                (moonPlace (cumulativeOrbitAngle p)
                   (distanceFromBodyWeAreOrbiting p)
                   (cumulativeOrbitAngle m)
                   (distanceFromBodyWeAreOrbiting m))
              = vadd
                  (rotateAboutY (cumulativeOrbitAngle p) (orbitalOffset p))
                  (rotateAboutY
                     (cumulativeOrbitAngle p + cumulativeOrbitAngle m)
                     (orbitalOffset m))).
  { unfold moonPlace, orbitalOffset, rotateAboutY, vadd.
    rewrite worldPosition_planar. apply triple_ext; ring. }
  destruct (isNotFirstAnimationFrame m); [|exact H].
  unfold respinOf. rewrite !worldPosition_rotate. exact H.
Qed.

Lemma frame_of_three (r t : R) (s p m : AstronomicalObject) :
  orbits s = None -> orbits p = Some 0%nat -> orbits m = Some 1%nat ->
  App.animateAll r t [s; p; m]
  = [animate None r t s;
     animate (Some (animate None r t s)) r t p;
     animate (Some (animate (Some (animate None r t s)) r t p)) r t m].
Proof.
  intros Hs Hp Hm. unfold App.animateAll. cbn [length seq foldl].
  assert (H0 : animate_at r t [s; p; m] 0 = [animate None r t s; p; m]).
  { unfold animate_at. cbn [lookup list_lookup]. rewrite Hs. reflexivity. }
  rewrite H0.
  assert (H1 : animate_at r t [animate None r t s; p; m] 1
               = [animate None r t s;
                  animate (Some (animate None r t s)) r t p; m]).
  { unfold animate_at. cbn [lookup list_lookup]. rewrite Hp. reflexivity. }
  rewrite H1. unfold animate_at. cbn [lookup list_lookup]. rewrite Hm.
  reflexivity.
Qed.

Lemma offset_distance (u : vec3) (a d : R) :
  dist2 (vadd u (rotateAboutY a (0, 0, - d))) u = d * d.
Proof.
  destruct u as [[x y] z]. unfold dist2, vadd, rotateAboutY.
  pose proof (sin2_cos2 a) as H. unfold Rsqr in H.
  transitivity (d * d * (sin a * sin a + cos a * cos a)); [ring|].
  rewrite H. ring.
Qed.

Lemma animateFrames_of_three (frames : list (R * R)) :
  forall s p m : AstronomicalObject,
    orbits s = None -> orbits p = Some 0%nat -> orbits m = Some 1%nat ->
    onOrbit p -> followsPlanet m p ->
    exists s' p' m' : AstronomicalObject,
      animateFrames frames [s; p; m] = [s'; p'; m'] /\
      onOrbit p' /\ followsPlanet m' p'.
Proof.
  unfold animateFrames.
  induction frames as [|[r t] frames IH]; intros s p m Hs Hp Hm Hon Hfol.
  - exists s, p, m. auto.
  - cbn [foldl]. rewrite (frame_of_three r t s p m Hs Hp Hm).
    apply IH.
    + rewrite animate_orbits. exact Hs.
    + rewrite animate_orbits. exact Hp.
    + rewrite animate_orbits. exact Hm.
    + apply animate_onOrbit; [rewrite animate_orbits; exact Hs|exact Hon].
    + apply animate_followsPlanet; [rewrite Hp; eauto|exact Hfol].
Qed.

(** X6.  A Sun at the origin, a Planet constructed around it with no
    origin of its own in its configuration (so that [setOrigin] places it
    from the Sun's origin and its orbit distance) and a Moon constructed
    around the Planet, animated by the driver for any number of frames
    with any rates and elapsed times: after every frame the Planet is on
    its circle around the origin, and the Moon is at its own distance from
    the Planet, at the angle that is the sum of the two cumulative orbit
    angles. *)
Theorem X6_moon_follows_planet_every_frame
    (sunConfig planetConfig moonConfig : Config.t) (rs rp rm : R)
    (sun planet moon : AstronomicalObject) (frames : list (R * R)) :
  new_AstronomicalObject [] sunConfig rs = Some sun ->
  origin sun = (0, 0, 0) ->
  new_AstronomicalObject [sun] planetConfig rp = Some planet ->
  Config.orbits planetConfig = Some 0%nat ->
  Config.origin planetConfig = None ->
  new_AstronomicalObject [sun; planet] moonConfig rm = Some moon ->
  Config.orbits moonConfig = Some 1%nat ->
  exists s p m : AstronomicalObject,
    animateFrames frames [sun; planet; moon] = [s; p; m] /\
    worldPosition (modelViewMatrix p)
      = rotateAboutY (cumulativeOrbitAngle p) (orbitalOffset p) /\
    worldPosition (modelViewMatrix m)
      = vadd (worldPosition (modelViewMatrix p))
          (rotateAboutY (cumulativeOrbitAngle p + cumulativeOrbitAngle m)
             (orbitalOffset m)) /\
    dist2 (worldPosition (modelViewMatrix m))
      (worldPosition (modelViewMatrix p))
      = distanceFromBodyWeAreOrbiting m * distanceFromBodyWeAreOrbiting m.
Proof.
  intros Hsun Hsun0 Hplanet HpO HpOrigin Hmoon HmO.
  pose proof (root_orbits_None _ _ _ Hsun) as Hs.
  assert (Hp : orbits planet = Some 0%nat)
    by (rewrite (new_orbits _ _ _ _ Hplanet); exact HpO).
  assert (Hm : orbits moon = Some 1%nat)
    by (rewrite (new_orbits _ _ _ _ Hmoon); exact HmO).
  assert (Hon : onOrbit planet).
  { apply (new_onOrbit [sun] planetConfig rp planet sun Hplanet);
      [rewrite HpO; reflexivity|exact Hs]. }
  assert (Hfol : followsPlanet moon planet).
  { apply (new_followsPlanet [sun; planet] moonConfig rm moon planet Hmoon).
    - rewrite HmO. reflexivity.
    - rewrite Hp. eauto.
    - rewrite (new_origin_default [sun] planetConfig rp planet sun Hplanet);
        [|rewrite HpO; reflexivity|exact HpOrigin].
      rewrite Hsun0. reflexivity.
    - exact (new_last_cumulative _ _ _ _ Hplanet). }
  destruct (animateFrames_of_three frames sun planet moon Hs Hp Hm Hon Hfol)
    as (s & p & m & Hh & Hon' & Hfol').
  exists s, p, m. split; [exact Hh|].
  split; [exact (onOrbit_worldPosition p Hon')|].
  pose proof (followsPlanet_worldPosition m p Hfol' Hon') as Hw.
  split; [exact Hw|].
  rewrite Hw. unfold orbitalOffset. apply offset_distance.
Qed.

Lemma X6_moon_follows_planet_every_frame_witness :
  exists s p m : AstronomicalObject,
    animateFrames [(1000, 0); (1000, 16); (250, 17)]
      [Scenario.sun; Scenario.planet; Scenario.moon] = [s; p; m] /\
    worldPosition (modelViewMatrix p)
      = rotateAboutY (cumulativeOrbitAngle p) (orbitalOffset p) /\
    worldPosition (modelViewMatrix m)
      = vadd (worldPosition (modelViewMatrix p))
          (rotateAboutY (cumulativeOrbitAngle p + cumulativeOrbitAngle m)
             (orbitalOffset m)) /\
    dist2 (worldPosition (modelViewMatrix m))
      (worldPosition (modelViewMatrix p))
      = distanceFromBodyWeAreOrbiting m * distanceFromBodyWeAreOrbiting m.
Proof.
  exact (X6_moon_follows_planet_every_frame Scenario.sunConfig
           Scenario.planetConfig Scenario.moonConfig (1 / 2) (4 / 5) (1 / 2)
           Scenario.sun Scenario.planet Scenario.moon
           [(1000, 0); (1000, 16); (250, 17)]
           ScenarioFacts.new_sun ScenarioPlaces.sun_origin
           ScenarioFacts.new_planet eq_refl eq_refl
           ScenarioFacts.new_moon eq_refl).
Defined.

(** ** References and the order of calls *)

(** X7.  In every heap a program can reach, an [orbits] reference points
    to an object constructed earlier, which exists: the orbit relation has
    no cycle and no body orbits itself, and [animate] always finds the
    object it dereferences. *)
Theorem X7_orbits_point_to_older_bodies (h : Heap) (i : Ref)
    (this : AstronomicalObject) (r t : R) :
  Reachable h ->
  h !! i = Some this ->
  (forall j : Ref,
     orbits this = Some j -> (j < i)%nat /\ is_Some (h !! j)) /\
  exists P,
    deref h (orbits this) = Some P /\
    animate_at r t h i !! i = Some (animate P r t this).
Proof.
  intros Hh Hi. pose proof (Reachable_wellFormed h Hh) as Hwf. split.
  - intros j Ej. pose proof (Hwf i this j Hi Ej) as Hlt. split; [exact Hlt|].
    apply lookup_lt_is_Some_2. apply lookup_lt_Some in Hi. lia.
  - destruct (wellFormed_deref h i this Hwf Hi) as [P HP].
    exists P. split; [exact HP|].
    apply animate_at_lookup_eq; assumption.
Qed.

Lemma X7_orbits_point_to_older_bodies_witness :
  (forall j : Ref,
     orbits Scenario.moon = Some j ->
     (j < 2)%nat /\ is_Some (Scenario.system !! j)) /\
  exists P,
    deref Scenario.system (orbits Scenario.moon) = Some P /\
    animate_at 1000 16 Scenario.system 2 !! 2%nat
      = Some (animate P 1000 16 Scenario.moon).
Proof.
  exact (X7_orbits_point_to_older_bodies Scenario.system 2 Scenario.moon
           1000 16 ScenarioFacts.Reachable_system eq_refl).
Defined.

Lemma deref_insert_ne (h : Heap) (i : Ref) (x : AstronomicalObject)
    (o : option Ref) :
  o <> Some i -> deref (<[i := x]> h) o = deref h o.
Proof.
  intros Ho. unfold deref. destruct o as [j|]; [|reflexivity].
  rewrite list_lookup_insert_ne by congruence. reflexivity.
Qed.

Lemma deref_animate_at_ne (r t : R) (h : Heap) (k : Ref) (o : option Ref) :
  o <> Some k -> deref (animate_at r t h k) o = deref h o.
Proof.
  intros Ho. unfold animate_at. destruct (h !! k) as [b|]; [|reflexivity].
  destruct (deref h (orbits b)); [|reflexivity].
  apply deref_insert_ne. exact Ho.
Qed.

Lemma animate_at_after_other (r t r' t' : R) (h : Heap) (i k : Ref) :
  i <> k ->
  (forall a, h !! i = Some a -> orbits a <> Some k) ->
  animate_at r' t' (animate_at r t h k) i
  = match h !! i with
    | Some a =>
        match deref h (orbits a) with
        | Some P => <[i := animate P r' t' a]> (animate_at r t h k)
        | None => animate_at r t h k
        end
    | None => animate_at r t h k
    end.
Proof.
  intros Hne Ho. unfold animate_at at 1.
  rewrite animate_at_lookup_ne by congruence.
  destruct (h !! i) as [a|] eqn:Hi; [|reflexivity].
  rewrite deref_animate_at_ne by (apply Ho; reflexivity). reflexivity.
Qed.

(** X8.  Two calls of [animate] on different bodies neither of which
    orbits the other can be made in either order: the order of the
    registry matters only between a body and the body it orbits. *)
Theorem X8_independent_calls_commute (r t r' t' : R) (h : Heap)
    (i k : Ref) :
  i <> k ->
  (forall a, h !! i = Some a -> orbits a <> Some k) ->
  (forall b, h !! k = Some b -> orbits b <> Some i) ->
  animate_at r t (animate_at r' t' h i) k
  = animate_at r' t' (animate_at r t h k) i.
Proof.
  intros Hne Hi Hk.
  rewrite (animate_at_after_other r t r' t' h i k Hne Hi).
  rewrite (animate_at_after_other r' t' r t h k i (not_eq_sym Hne) Hk).
  unfold animate_at.
  destruct (h !! i) as [a|], (h !! k) as [b|]; try reflexivity.
  destruct (deref h (orbits a)) as [Pa|], (deref h (orbits b)) as [Pb|];
    try reflexivity.
  apply list_insert_insert_ne. congruence.
Qed.

Lemma X8_independent_calls_commute_witness :
  animate_at 1000 16 (animate_at 250 17 Scenario.system 1) 4
  = animate_at 250 17 (animate_at 1000 16 Scenario.system 4) 1.
Proof.
  apply X8_independent_calls_commute.
  - discriminate.
  - intros a [= <-]. rewrite ScenarioPeriods.planet_orbits. discriminate.
  - intros b [= <-].
    rewrite (new_orbits _ _ _ _ ScenarioFacts.new_venus). discriminate.
Defined.

(** ** More on what the constructor derives *)

Lemma axis_vector_long (x : R) :
  ~ Rabs (sqrt (x * x + (1 - x) * (1 - x) + 0 * 0)) < GLMAT_EPSILON.
Proof.
  set (q := x * x + (1 - x) * (1 - x) + 0 * 0).
  assert (Hq : 1 / 2 <= q).
  { pose proof (Rle_0_sqr (2 * x - 1)) as H. unfold Rsqr in H.
    unfold q. nra. }
  pose proof (sqrt_pos q) as Hs.
  rewrite (Rabs_pos_eq _ Hs). unfold GLMAT_EPSILON. intros Hlt.
  assert (Hsq : sqrt q * sqrt q = q) by (apply sqrt_sqrt; lra).
  nra.
Qed.

(** X9.  The axis vector of a constructed body is never too short for
    the matrix library: its squared length is at least 1/2 whatever the
    configured axis, so the tilt rotations of [beforeOrbit] and
    [afterOrbit] are always carried out and [rotate] never leaves the
    matrix untouched for want of an axis. *)
Theorem X9_axis_vector_never_degenerate (h : Heap) (config : Config.t)
    (rnd : R) (this : AstronomicalObject) :
  new_AstronomicalObject h config rnd = Some this ->
  let '(x, y, z) := axisArray this in
  1 / 2 <= x * x + y * y + z * z /\
  ~ Rabs (sqrt (x * x + y * y + z * z)) < GLMAT_EPSILON.
Proof.
  intros Hnew. rewrite (new_axisArray _ _ _ _ Hnew).
  set (x := degreesToRadians _ / degreesToRadians 90).
  split; [|apply axis_vector_long].
  pose proof (Rle_0_sqr (2 * x - 1)) as H. unfold Rsqr in H. nra.
Qed.

Lemma X9_axis_vector_never_degenerate_witness :
  let '(x, y, z) := axisArray Scenario.venus in
  1 / 2 <= x * x + y * y + z * z /\
  ~ Rabs (sqrt (x * x + y * y + z * z)) < GLMAT_EPSILON.
Proof.
  exact (X9_axis_vector_never_degenerate _ _ _ _ ScenarioFacts.new_venus).
Defined.

(** X10.  The initial phase of a constructed body that orbits something
    and is not the ring system, for a random number strictly between 0 and
    1, is more than a full turn: above [2 PI] for a body that does not
    spin clockwise and below [- 2 PI] for one that does; [lastOrbitAngle]
    starts at the same value.  The ring system starts at a quarter turn
    whatever the random number. *)
Theorem X10_initial_phase (h : Heap) (config : Config.t) (rnd : R)
    (this : AstronomicalObject) (j : Ref) :
  new_AstronomicalObject h config rnd = Some this ->
  Config.orbits config = Some j ->
  0 < rnd < 1 ->
  lastOrbitAngle this = cumulativeOrbitAngle this /\
  (name this = ringsName -> cumulativeOrbitAngle this = PI / 2) /\
  (name this <> ringsName ->
   if spinsClockwise this then cumulativeOrbitAngle this < - (2 * PI)
   else 2 * PI < cumulativeOrbitAngle this).
Proof.
  intros Hnew Ho Hrnd.
  pose proof (new_cumulativeOrbitAngle _ _ _ _ Hnew) as Hc.
  rewrite Ho in Hc. rewrite (new_name _ _ _ _ Hnew).
  split; [exact (new_last_cumulative _ _ _ _ Hnew)|].
  assert (Hinv : 2 * PI < (PI * 2) / rnd).
  { pose proof PI_RGT_0 as Hpi. unfold Rdiv.
    assert (1 < / rnd).
    { rewrite <- Rinv_1. apply Rinv_lt_contravar; lra. }
    nra. }
  split.
  - intros Hn. apply String.eqb_eq in Hn. rewrite Hn in Hc. rewrite Hc.
    unfold degreesToRadians. field.
  - intros Hn.
    destruct (String.eqb _ ringsName) eqn:E.
    { apply String.eqb_eq in E. contradiction. }
    destruct (new_static _ _ _ _ Hnew) as (P & a & _ & Ha & Hs).
    destruct Hs as (_ & _ & _ & _ & _ & _ & _ & -> & _).
    rewrite (attr_spinsClockwise _ _ _ Ha), Hc.
    destruct (getBoolean _ _); lra.
Qed.

Lemma X10_initial_phase_witness :
  lastOrbitAngle Scenario.venus = cumulativeOrbitAngle Scenario.venus /\
  (if spinsClockwise Scenario.venus
   then cumulativeOrbitAngle Scenario.venus < - (2 * PI)
   else 2 * PI < cumulativeOrbitAngle Scenario.venus).
Proof.
  destruct (X10_initial_phase _ Scenario.venusConfig (1 / 2) Scenario.venus
              0%nat ScenarioFacts.new_venus eq_refl ltac:(lra))
    as (H1 & _ & H3).
  split; [exact H1|]. apply H3.
  rewrite (new_name _ _ _ _ ScenarioFacts.new_venus). discriminate.
Defined.

(** X11.  No constructed body has radius 0: a configured radius of 0, like
    a missing one, is replaced by 10 before the scaling, which gives 1/10
    (1/100 for a body named "Sun"). *)
Theorem X11_radius_never_zero (h : Heap) (config : Config.t) (rnd : R)
    (this : AstronomicalObject) :
  new_AstronomicalObject h config rnd = Some this ->
  radius this <> 0 /\
  (Config.radius config = None \/ Config.radius config = Some 0 ->
   radius this = if String.eqb (name this) "Sun" then 1 / 100 else 1 / 10).
Proof.
  intros Hnew. rewrite (new_radius _ _ _ _ Hnew), (new_name _ _ _ _ Hnew).
  split.
  - assert (H : num_or (Config.radius config) 10 <> 0)
      by (apply num_or_neq_0; lra).
    destruct (String.eqb _ "Sun"); lra.
  - intros Hr. rewrite (num_or_falsy _ 10 Hr).
    destruct (String.eqb _ "Sun"); lra.
Qed.

Lemma X11_radius_never_zero_witness :
  radius Scenario.moon <> 0.
Proof.
  exact (proj1 (X11_radius_never_zero _ _ _ _ ScenarioFacts.new_moon)).
Defined.

(** ** The camera *)

Lemma animate_origin (P : option AstronomicalObject) (r t : R)
    (this : AstronomicalObject) :
  origin (animate P r t this) = origin this
  /\ radius (animate P r t this) = radius this.
Proof.
  unfold animate. destruct P; [|destruct (spins this)]; split; reflexivity.
Qed.

Lemma animateSeq_static
    (calls : list (option AstronomicalObject * R * R))
    (this : AstronomicalObject) :
  origin (animateSeq calls this) = origin this /\
  radius (animateSeq calls this) = radius this.
Proof.
  revert this. unfold animateSeq.
  induction calls as [|[[P r] t] calls IH]; intros this; cbn [foldl].
  - split; reflexivity.
  - destruct (IH (animate P r t this)) as [-> ->]. apply animate_origin.
Qed.

Lemma multiply_worldPosition (a b : mat4) :
  m15 b = 1 ->
  worldPosition (multiply a b)
  = (m0 a * m12 b + m4 a * m13 b + m8 a * m14 b + m12 a,
     m1 a * m12 b + m5 a * m13 b + m9 a * m14 b + m13 a,
     m2 a * m12 b + m6 a * m13 b + m10 a * m14 b + m14 a).
Proof.
  intros Hb. rewrite worldPosition_eq. unfold multiply.
  cbn [m12 m13 m14]. rewrite Hb. apply triple_ext; ring.
Qed.

Lemma onOrbit_last_column (this : AstronomicalObject) :
  onOrbit this ->
  m12 (modelViewMatrix this)
    = - distanceFromBodyWeAreOrbiting this * sin (cumulativeOrbitAngle this)
  /\ m13 (modelViewMatrix this) = 0
  /\ m14 (modelViewMatrix this)
    = - distanceFromBodyWeAreOrbiting this * cos (cumulativeOrbitAngle this)
  /\ m15 (modelViewMatrix this) = 1.
Proof.
  unfold onOrbit. intros ->.
  destruct (isNotFirstAnimationFrame this).
  - unfold respinOf.
    destruct (rotate_last_column
                (rotate (orbitPlace (cumulativeOrbitAngle this)
                           (distanceFromBodyWeAreOrbiting this))
                   1 (axisArray this))
                (if spinsClockwise this then - lastSpinAngle this
                 else lastSpinAngle this) Yaxis) as (-> & -> & -> & ->).
    destruct (rotate_last_column
                (orbitPlace (cumulativeOrbitAngle this)
                   (distanceFromBodyWeAreOrbiting this))
                1 (axisArray this)) as (-> & -> & -> & ->).
    repeat apply conj; reflexivity.
  - repeat apply conj; reflexivity.
Qed.

Lemma snapTo_planar (planet : AstronomicalObject) (d : R) :
  origin planet = (0, 0, 0 - d) ->
  Camera.snapTo planet
  = planar (PI - cumulativeOrbitAngle planet) 0 (- d - radius planet * 5).
Proof.
  intros Ho. unfold Camera.snapTo. rewrite Ho. cbn [fst snd].
  rewrite create_planar, !translate_planar, !rotate_planar.
  rewrite sin_0, cos_0. apply planar_ext; ring.
Qed.

(** X12.  [snapTo] puts the camera in front of the body: for a body
    constructed around a root at the world origin, with no origin of its
    own in the configuration, and animated any number of times, the camera
    set by [snapTo] sees the body straight ahead, at 5 radii on the
    negative Z axis of the view, wherever the body is on its orbit. *)
Theorem X12_snapTo_centres_the_planet (h : Heap) (config : Config.t)
    (rnd : R) (this p : AstronomicalObject)
    (calls : list (option AstronomicalObject * R * R)) :
  new_AstronomicalObject h config rnd = Some this ->
  deref h (Config.orbits config) = Some (Some p) ->
  orbits p = None ->
  origin p = (0, 0, 0) ->
  Config.origin config = None ->
  Forall (fun call => exists q, call.1.1 = Some q /\ orbits q = None) calls ->
  let this' := animateSeq calls this in
  viewPosition (Camera.snapTo this') this' = (0, 0, - radius this * 5).
Proof.
  intros Hnew Hp Ho Hp0 Horigin Hcalls this'.
  pose proof (animateSeq_onOrbit calls this Hcalls
                (new_onOrbit _ _ _ _ _ Hnew Hp Ho)) as Hon.
  fold this' in Hon.
  destruct (onOrbit_last_column this' Hon) as (H12 & H13 & H14 & H15).
  destruct (animateSeq_static calls this) as [Horg Hrad].
  fold this' in Horg, Hrad.
  assert (Horigin' : origin this'
                     = (0, 0, 0 - distanceFromBodyWeAreOrbiting this')).
  { rewrite Horg, (new_origin_default _ _ _ _ _ Hnew Hp Horigin), Hp0.
    subst this'. rewrite animateSeq_distance. reflexivity. }
  unfold viewPosition.
  rewrite (snapTo_planar this' _ Horigin'), (multiply_worldPosition _ _ H15).
  rewrite H12, H13, H14, Hrad. unfold planar. cbn [m0 m1 m2 m4 m5 m6 m8 m9 m10 m12 m13 m14].
  unfold Rminus. rewrite cos_plus, sin_plus, cos_neg, sin_neg, cos_PI, sin_PI.
  pose proof (sin2_cos2 (cumulativeOrbitAngle this')) as Hs.
  unfold Rsqr in Hs.
  set (s := sin (cumulativeOrbitAngle this')) in *.
  set (c := cos (cumulativeOrbitAngle this')) in *.
  set (d := distanceFromBodyWeAreOrbiting this').
  apply triple_ext; [ring|ring|].
  transitivity (d * (s * s + c * c) + - d + - (radius this * 5)); [ring|].
  rewrite Hs. ring.
Qed.

Lemma X12_snapTo_centres_the_planet_witness :
  let this' :=
    animateSeq [(Some Scenario.sun, 1000, 16); (Some Scenario.sun, 250, 17)]
      Scenario.planet in
  viewPosition (Camera.snapTo this') this'
  = (0, 0, - radius Scenario.planet * 5).
Proof.
  apply (X12_snapTo_centres_the_planet [Scenario.sun] Scenario.planetConfig
           (4 / 5) Scenario.planet Scenario.sun).
  - exact ScenarioFacts.new_planet.
  - reflexivity.
  - exact ScenarioPeriods.sun_orbits.
  - exact ScenarioPlaces.sun_origin.
  - reflexivity.
  - repeat constructor; exists Scenario.sun;
      (split; [reflexivity|exact ScenarioPeriods.sun_orbits]).
Defined.

Lemma translate_translate (a : mat4) (u v : vec3) :
  translate (translate a u) v
  = translate a (u.1.1 + v.1.1, u.1.2 + v.1.2, u.2 + v.2).
Proof.
  destruct a, u as [[ux uy] uz], v as [[vx vy] vz].
  unfold translate. cbn. f_equal; ring.
Qed.

Lemma translate_zero (a : mat4) (v : vec3) :
  v = (0, 0, 0) -> translate a v = a.
Proof. intros ->. destruct a. unfold translate. cbn. f_equal; ring. Qed.

(** X13.  The camera moves undo each other and commute: going backwards
    after going forwards with the same acceleration, or right after left,
    leaves the camera where it was, and a step forwards and a step to the
    left can be taken in either order. *)
Theorem X13_camera_moves_compose (a b : R) (cameraMatrix : mat4) :
  Camera.goBackwards a (Camera.goForwards a cameraMatrix) = cameraMatrix /\
  Camera.goRight a (Camera.goLeft a cameraMatrix) = cameraMatrix /\
  Camera.goLeft b (Camera.goForwards a cameraMatrix)
  = Camera.goForwards a (Camera.goLeft b cameraMatrix).
Proof.
  unfold Camera.goBackwards, Camera.goForwards, Camera.goRight, Camera.goLeft.
  rewrite !translate_translate. cbn [fst snd].
  repeat apply conj.
  - apply translate_zero. apply triple_ext; ring.
  - apply translate_zero. apply triple_ext; ring.
  - f_equal. apply triple_ext; ring.
Qed.

Lemma hold_keyDown (key : string) (n : nat) (st : Controls.t) :
  Controls.keyDown st = None ->
  Controls.keyDown (Controls.hold key (S n) st) = Some (S n).
Proof.
  intros H0. induction n as [|n IH].
  - cbn. rewrite H0. reflexivity.
  - cbn [Controls.hold] in *. unfold Controls.keydownMove at 1.
    cbn [Controls.keyDown]. rewrite IH. reflexivity.
Qed.

(** X14.  Holding the key w for [n] key-down events, starting with no key
    down, moves the camera forwards by [1 + 4 + ... + n * n], that is
    [n (n + 1) (2 n + 1) / 6], along its own Z axis: the acceleration is
    the count of events and the speed its square.  Releasing the key
    resets the count. *)
Theorem X14_held_key_accelerates (n : nat) (st : Controls.t) :
  Controls.keyDown st = None ->
  Controls.cameraMatrix (Controls.hold "w" n st)
  = translate (Controls.cameraMatrix st)
      (0, 0, INR (n * (n + 1) * (2 * n + 1)) / 6) /\
  Controls.keyDown (Controls.keyupMove (Controls.hold "w" n st)) = None.
Proof.
  intros H0. split; [|reflexivity].
  induction n as [|n IH].
  - cbn [Controls.hold]. symmetry. apply translate_zero.
    apply triple_ext; try reflexivity. cbn. lra.
  - cbn [Controls.hold]. unfold Controls.keydownMove.
    cbn [Controls.cameraMatrix String.eqb Ascii.eqb Bool.eqb].
    assert (Hk : match Controls.keyDown (Controls.hold "w" n st) with
                 | Some (S k) => S (S k)
                 | _ => 1%nat
                 end = S n).
    { destruct n as [|n]; [cbn; rewrite H0; reflexivity|].
      rewrite (hold_keyDown "w" n st H0). reflexivity. }
    rewrite Hk, IH. unfold Camera.goForwards, Camera.calculateMovementSpeed.
    rewrite translate_translate_Z. f_equal. apply triple_ext; try reflexivity.
    replace (S n * (S n + 1) * (2 * S n + 1))%nat
      with (n * (n + 1) * (2 * n + 1) + 6 * (S n * S n))%nat by lia.
    rewrite plus_INR, !mult_INR.
    replace (INR 6) with 6 by (cbn; ring). field.
Qed.

Lemma X14_held_key_accelerates_witness :
  Controls.cameraMatrix
    (Controls.hold "w" 3 (Controls.mk None false create))
  = translate create (0, 0, INR (3 * (3 + 1) * (2 * 3 + 1)) / 6).
Proof.
  exact (proj1 (X14_held_key_accelerates 3 (Controls.mk None false create)
                  eq_refl)).
Defined.

(** ** The sphere buffers *)

Lemma foldl_step_app {A B : Type} (step : list A -> B -> list A)
    (f : B -> list A) :
  (forall acc x, step acc x = acc ++ f x) ->
  forall (l : list B) (acc : list A),
    foldl step acc l = acc ++ flat_map f l.
Proof.
  intros Hstep. induction l as [|x l IH]; intros acc; cbn.
  - symmetry. apply app_nil_r.
  - rewrite IH, Hstep, <- app_assoc. reflexivity.
Qed.

Lemma flat_map_flat_map {A B C : Type} (f : B -> list C) (g : A -> list B)
    (l : list A) :
  flat_map f (flat_map g l) = flat_map (fun x => flat_map f (g x)) l.
Proof.
  induction l as [|x l IH]; cbn; [reflexivity|].
  rewrite flat_map_app, IH. reflexivity.
Qed.

Lemma flat_map_map {A B C : Type} (f : B -> list C) (g : A -> B)
    (l : list A) :
  flat_map f (map g l) = flat_map (fun x => f (g x)) l.
Proof. induction l as [|x l IH]; cbn; [reflexivity|]. rewrite IH. reflexivity. Qed.

Lemma flat_map_length_const {A B : Type} (f : A -> list B) (c : nat)
    (l : list A) :
  (forall x, length (f x) = c) ->
  length (flat_map f l) = (c * length l)%nat.
Proof.
  intros Hc. induction l as [|x l IH]; cbn; [lia|].
  rewrite length_app, Hc, IH. lia.
Qed.

Lemma getIndexData_eq (latitudeBands longitudeBands : nat) :
  Buffers._getIndexData latitudeBands longitudeBands
  = flat_map
      (fun latNumber =>
         flat_map (Buffers.indexCell longitudeBands latNumber)
           (seq 0 longitudeBands))
      (seq 0 latitudeBands).
Proof.
  unfold Buffers._getIndexData.
  rewrite (foldl_step_app _
             (fun latNumber =>
                flat_map (Buffers.indexCell longitudeBands latNumber)
                  (seq 0 longitudeBands))).
  - reflexivity.
  - intros acc latNumber. apply foldl_step_app.
    intros acc' longNumber. unfold Buffers.push, Buffers.indexCell.
    rewrite <- !app_assoc. reflexivity.
Qed.

Lemma getIndexData_length (latitudeBands longitudeBands : nat) :
  length (Buffers._getIndexData latitudeBands longitudeBands)
  = (6 * latitudeBands * longitudeBands)%nat.
Proof.
  rewrite getIndexData_eq.
  rewrite (flat_map_length_const _ (6 * longitudeBands)).
  - rewrite length_seq. lia.
  - intros latNumber. rewrite (flat_map_length_const _ 6).
    + rewrite length_seq. lia.
    + intros longNumber. reflexivity.
Qed.

Lemma indexCell_bound (latitudeBands longitudeBands latNumber longNumber : nat) :
  (latNumber < latitudeBands)%nat -> (longNumber < longitudeBands)%nat ->
  Forall (fun index =>
            (index < (latitudeBands + 1) * (longitudeBands + 1))%nat)
    (Buffers.indexCell longitudeBands latNumber longNumber).
Proof.
  intros Hlat Hlong. unfold Buffers.indexCell. repeat constructor; nia.
Qed.

(** X15.  The index data of a sphere with any numbers of bands has six
    indices for each cell of the grid, and every index is below
    [(latitudeBands + 1) * (longitudeBands + 1)], the number of vertices
    the vertex loops produce: no triangle refers to a vertex that does not
    exist. *)
Theorem X15_index_data_in_bounds (latitudeBands longitudeBands : nat) :
  length (Buffers._getIndexData latitudeBands longitudeBands)
    = (6 * latitudeBands * longitudeBands)%nat /\
  Forall (fun index =>
            (index < (latitudeBands + 1) * (longitudeBands + 1))%nat)
    (Buffers._getIndexData latitudeBands longitudeBands).
Proof.
  split; [apply getIndexData_length|].
  rewrite getIndexData_eq.
  apply List.Forall_flat_map. apply List.Forall_forall.
  intros latNumber Hlat. apply List.in_seq in Hlat.
  apply List.Forall_flat_map. apply List.Forall_forall.
  intros longNumber Hlong. apply List.in_seq in Hlong.
  apply indexCell_bound; lia.
Qed.

Lemma foldl_arrays {B : Type} (step : Buffers.Arrays -> B -> Buffers.Arrays)
    (fn ft fp : B -> list R) :
  (forall a x,
     step a x
     = Buffers.mkArrays (Buffers.normalData a ++ fn x)
         (Buffers.textureCoordData a ++ ft x)
         (Buffers.vertexPositionData a ++ fp x)) ->
  forall (l : list B) (a : Buffers.Arrays),
    foldl step a l
    = Buffers.mkArrays (Buffers.normalData a ++ flat_map fn l)
        (Buffers.textureCoordData a ++ flat_map ft l)
        (Buffers.vertexPositionData a ++ flat_map fp l).
Proof.
  intros Hstep. induction l as [|x l IH]; intros a; cbn [foldl flat_map].
  - rewrite !app_nil_r. destruct a. reflexivity.
  - rewrite IH, Hstep. cbn. rewrite <- !app_assoc. reflexivity.
Qed.

Lemma flat_map_grid {C : Type} (f : nat * nat -> list C)
    (latitudeBands longitudeBands : nat) :
  flat_map f (Buffers.grid latitudeBands longitudeBands)
  = flat_map
      (fun latNumber =>
         flat_map (fun longNumber => f (latNumber, longNumber))
           (seq 0 (S longitudeBands)))
      (seq 0 (S latitudeBands)).
Proof.
  unfold Buffers.grid. rewrite flat_map_flat_map.
  apply List.flat_map_ext. intros latNumber. apply flat_map_map.
Qed.

Lemma sphereArrays_eq (radius : R) (latitudeBands longitudeBands : nat) :
  Buffers.sphereArrays radius latitudeBands longitudeBands
  = Buffers.mkArrays
      (flat_map
         (fun '(la, lo) =>
            Buffers.triple
              (Buffers.vertexNormal latitudeBands longitudeBands la lo))
         (Buffers.grid latitudeBands longitudeBands))
      (flat_map
         (fun '(la, lo) =>
            Buffers.couple
              (Buffers.vertexTexture latitudeBands longitudeBands la lo))
         (Buffers.grid latitudeBands longitudeBands))
      (flat_map
         (fun '(la, lo) =>
            Buffers.triple
              (Buffers.scale radius
                 (Buffers.vertexNormal latitudeBands longitudeBands la lo)))
         (Buffers.grid latitudeBands longitudeBands)).
Proof.
  rewrite !flat_map_grid. unfold Buffers.sphereArrays.
  rewrite (foldl_arrays _
    (fun la => flat_map (fun lo =>
       Buffers.triple
         (Buffers.vertexNormal latitudeBands longitudeBands la lo))
       (seq 0 (S longitudeBands)))
    (fun la => flat_map (fun lo =>
       Buffers.couple
         (Buffers.vertexTexture latitudeBands longitudeBands la lo))
       (seq 0 (S longitudeBands)))
    (fun la => flat_map (fun lo =>
       Buffers.triple
         (Buffers.scale radius
            (Buffers.vertexNormal latitudeBands longitudeBands la lo)))
       (seq 0 (S longitudeBands)))).
  - reflexivity.
  - intros a la. apply foldl_arrays. intros a' lo.
    unfold Buffers.push, Buffers.triple, Buffers.couple, Buffers.scale,
      Buffers.vertexNormal, Buffers.vertexTexture.
    rewrite <- !app_assoc. reflexivity.
Qed.

Lemma grid_length (latitudeBands longitudeBands : nat) :
  length (Buffers.grid latitudeBands longitudeBands)
  = ((latitudeBands + 1) * (longitudeBands + 1))%nat.
Proof.
  unfold Buffers.grid.
  rewrite (flat_map_length_const _ (S longitudeBands)).
  - rewrite length_seq. lia.
  - intros la. rewrite length_map, length_seq. reflexivity.
Qed.

(** X16.  With at least one band each way, the vertex loops of a sphere
    list, vertex after vertex in the order of the grid, a normal of length
    1 and as position that normal scaled by the radius, so that every
    vertex is at the distance of the radius from the centre; there are
    [(latitudeBands + 1) * (longitudeBands + 1)] vertices. *)
Theorem X16_sphere_vertices_on_sphere (radius : R)
    (latitudeBands longitudeBands : nat) :
  (0 < latitudeBands)%nat -> (0 < longitudeBands)%nat ->
  let arrays := Buffers.sphereArrays radius latitudeBands longitudeBands in
  Buffers.normalData arrays
    = flat_map
        (fun '(la, lo) =>
           Buffers.triple
             (Buffers.vertexNormal latitudeBands longitudeBands la lo))
        (Buffers.grid latitudeBands longitudeBands) /\
  Buffers.vertexPositionData arrays
    = flat_map
        (fun '(la, lo) =>
           Buffers.triple
             (Buffers.scale radius
                (Buffers.vertexNormal latitudeBands longitudeBands la lo)))
        (Buffers.grid latitudeBands longitudeBands) /\
  length (Buffers.grid latitudeBands longitudeBands)
    = ((latitudeBands + 1) * (longitudeBands + 1))%nat /\
  forall la lo : nat,
    let '(x, y, z) :=
      Buffers.vertexNormal latitudeBands longitudeBands la lo in
    x * x + y * y + z * z = 1 /\
    (radius * x) * (radius * x) + (radius * y) * (radius * y)
    + (radius * z) * (radius * z) = radius * radius.
Proof.
  intros _ _. cbn zeta. rewrite sphereArrays_eq.
  cbn [Buffers.normalData Buffers.vertexPositionData].
  split; [reflexivity|]. split; [reflexivity|]. split; [apply grid_length|].
  intros la lo. unfold Buffers.vertexNormal.
  set (theta := INR la * PI / INR latitudeBands).
  set (phi := INR lo * 2 * PI / INR longitudeBands).
  pose proof (sin2_cos2 theta) as Ht. pose proof (sin2_cos2 phi) as Hp.
  unfold Rsqr in Ht, Hp.
  assert (H1 : cos phi * sin theta * (cos phi * sin theta)
               + cos theta * cos theta
               + sin phi * sin theta * (sin phi * sin theta) = 1).
  { transitivity ((sin phi * sin phi + cos phi * cos phi)
                  * (sin theta * sin theta) + cos theta * cos theta);
      [ring|]. rewrite Hp. lra. }
  split; [exact H1|].
  transitivity (radius * radius
                * (cos phi * sin theta * (cos phi * sin theta)
                   + cos theta * cos theta
                   + sin phi * sin theta * (sin phi * sin theta))); [ring|].
  rewrite H1. ring.
Qed.

Lemma X16_sphere_vertices_on_sphere_witness :
  (0 < 30)%nat /\ (0 < 30)%nat /\
  length (Buffers.grid 30 30) = ((30 + 1) * (30 + 1))%nat /\
  forall la lo : nat,
    let '(x, y, z) := Buffers.vertexNormal 30 30 la lo in
    x * x + y * y + z * z = 1 /\
    (2 * x) * (2 * x) + (2 * y) * (2 * y) + (2 * z) * (2 * z) = 2 * 2.
Proof.
  assert (H30 : (0 < 30)%nat) by lia.
  split; [exact H30|]. split; [exact H30|].
  exact (proj2 (proj2 (X16_sphere_vertices_on_sphere 2 30 30 H30 H30))).
Defined.

Lemma band_fraction (k n : nat) :
  (0 < n)%nat -> (k <= n)%nat -> 0 <= 1 - INR k / INR n <= 1.
Proof.
  intros Hn Hk.
  assert (H0 : 0 < INR n) by (apply lt_0_INR; exact Hn).
  assert (H1 : 0 <= INR k) by apply pos_INR.
  assert (H2 : INR k <= INR n) by (apply le_INR; exact Hk).
  assert (H3 : 0 <= INR k / INR n).
  { apply Rmult_le_pos; [exact H1|].
    apply Rlt_le, Rinv_0_lt_compat. exact H0. }
  assert (H4 : INR k / INR n <= 1).
  { apply (Rmult_le_reg_r (INR n)); [exact H0|].
    unfold Rdiv. rewrite Rmult_assoc, Rinv_l by lra. lra. }
  lra.
Qed.

(** X17.  With at least one band each way, every texture coordinate the
    vertex loops produce lies between 0 and 1. *)
Theorem X17_texture_coordinates_in_unit_square (radius : R)
    (latitudeBands longitudeBands : nat) :
  (0 < latitudeBands)%nat -> (0 < longitudeBands)%nat ->
  Forall (fun c => 0 <= c <= 1)
    (Buffers.textureCoordData
       (Buffers.sphereArrays radius latitudeBands longitudeBands)).
Proof.
  intros Hlat Hlong. rewrite sphereArrays_eq.
  cbn [Buffers.textureCoordData]. rewrite flat_map_grid.
  apply List.Forall_flat_map. apply List.Forall_forall.
  intros la Hla. apply List.in_seq in Hla.
  apply List.Forall_flat_map. apply List.Forall_forall.
  intros lo Hlo. apply List.in_seq in Hlo.
  unfold Buffers.couple, Buffers.vertexTexture.
  apply List.Forall_cons; [apply band_fraction; lia|].
  apply List.Forall_cons; [apply band_fraction; lia|].
  apply List.Forall_nil.
Qed.

Lemma X17_texture_coordinates_in_unit_square_witness :
  Forall (fun c => 0 <= c <= 1)
    (Buffers.textureCoordData (Buffers.sphereArrays 1 30 30)).
Proof.
  apply X17_texture_coordinates_in_unit_square; lia.
Defined.

Lemma Uint16Array_small (array : list nat) :
  Forall (fun n => (n < 256 * 256)%nat) array ->
  Buffers.Uint16Array array = array.
Proof.
  unfold Buffers.Uint16Array. induction 1 as [|n l Hn _ IH]; cbn [map].
  - reflexivity.
  - rewrite IH, (Nat.mod_small n) by exact Hn. reflexivity.
Qed.

(** X18.  The four buffers [initSphericalBuffers] builds agree with each
    other: the normal, texture and position buffers each hold 31 * 31
    items, the index buffer holds 6 * 30 * 30 indices, all of them below
    the number of vertices, and the conversion to 16-bit integers changes
    none of them. *)
Theorem X18_spherical_buffers_consistent (radius : R) :
  let buffers := Buffers.initSphericalBuffers radius in
  Buffers.numItems (Buffers.vertexNormalBuffer buffers) = (31 * 31)%nat /\
  Buffers.numItems (Buffers.vertexTextureCoordBuffer buffers)
    = (31 * 31)%nat /\
  Buffers.numItems (Buffers.vertexPositionBuffer buffers) = (31 * 31)%nat /\
  Buffers.numItems (Buffers.vertexIndexBuffer buffers)
    = (6 * 30 * 30)%nat /\
  Buffers.data (Buffers.vertexIndexBuffer buffers)
    = Buffers._getIndexData 30 30 /\
  Forall (fun index =>
            (index < Buffers.numItems (Buffers.vertexPositionBuffer buffers))
            %nat)
    (Buffers.data (Buffers.vertexIndexBuffer buffers)).
Proof.
  cbn zeta. unfold Buffers.initSphericalBuffers.
  cbn [Buffers.numItems Buffers.data Buffers.vertexNormalBuffer
       Buffers.vertexTextureCoordBuffer Buffers.vertexPositionBuffer
       Buffers.vertexIndexBuffer].
  pose proof (getIndexData_length 30 30) as Hlen.
  assert (Hbound : Forall (fun index => (index < (30 + 1) * (30 + 1))%nat)
                     (Buffers._getIndexData 30 30)).
  { rewrite getIndexData_eq.
    apply List.Forall_flat_map. apply List.Forall_forall.
    intros latNumber Hlat. apply List.in_seq in Hlat.
    apply List.Forall_flat_map. apply List.Forall_forall.
    intros longNumber Hlong. apply List.in_seq in Hlong.
    apply indexCell_bound; lia. }
  assert (Hsmall : Buffers.Uint16Array (Buffers._getIndexData 30 30)
                   = Buffers._getIndexData 30 30).
  { apply Uint16Array_small. eapply List.Forall_impl; [|exact Hbound].
    cbn beta. intros n Hn. lia. }
  rewrite sphereArrays_eq.
  cbn [Buffers.normalData Buffers.textureCoordData
       Buffers.vertexPositionData].
  assert (Hn : length
                 (flat_map
                    (fun '(la, lo) =>
                       Buffers.triple (Buffers.vertexNormal 30 30 la lo))
                    (Buffers.grid 30 30)) = (3 * (31 * 31))%nat).
  { rewrite (flat_map_length_const _ 3), grid_length; [reflexivity|].
    intros [la lo]. reflexivity. }
  assert (Ht : length
                 (flat_map
                    (fun '(la, lo) =>
                       Buffers.couple (Buffers.vertexTexture 30 30 la lo))
                    (Buffers.grid 30 30)) = (2 * (31 * 31))%nat).
  { rewrite (flat_map_length_const _ 2), grid_length; [reflexivity|].
    intros [la lo]. reflexivity. }
  assert (Hp : length
                 (flat_map
                    (fun '(la, lo) =>
                       Buffers.triple
                         (Buffers.scale radius
                            (Buffers.vertexNormal 30 30 la lo)))
                    (Buffers.grid 30 30)) = (3 * (31 * 31))%nat).
  { rewrite (flat_map_length_const _ 3), grid_length; [reflexivity|].
    intros [la lo]. reflexivity. }
  rewrite Hn, Ht, Hp, Hsmall, Hlen.
  assert (H3 : (3 * (31 * 31) / 3 = 31 * 31)%nat)
    by (rewrite Nat.mul_comm; apply Nat.div_mul; discriminate).
  assert (H2 : (2 * (31 * 31) / 2 = 31 * 31)%nat)
    by (rewrite Nat.mul_comm; apply Nat.div_mul; discriminate).
  rewrite H3, H2.
  repeat apply conj; try reflexivity.
  eapply List.Forall_impl; [|exact Hbound]. cbn beta. intros n Hn'. lia.
Qed.
